(** * suppy: control and release strategies of a supply-chain simulator

    A shallow embedding of the two strategy classes defined in the
    repository's custom-strategies notebook ([RSQ.get_orders] and
    [Fractional.get_releases]) and of the [MetricsCollector] of the
    custom-metrics notebook, together with models of the library parts
    they rest on (quantity maps, pipelines, the bill-of-materials graph).
    [RSQ.get_orders] is embedded twice: as a function of what it reads, and
    as a run over the objects it touches.

    Integers are Python integers (unbounded, [Z]).  The release formula
    [ceil(order - shortage * (order / order_total))] is evaluated by Python
    in IEEE-754 binary64; it is modelled here bit-exactly with [SpecFloat],
    not with exact rationals. *)

From Stdlib Require Import ZArith Zpower List Sorted Bool String Lia SpecFloat.
Import ListNotations.
Local Open Scope string_scope.
Local Open Scope list_scope.
Local Open Scope Z_scope.

(** ** Python exceptions and the error monad *)

Inductive exn : Type :=
| KeyError (key : string)
| ZeroDivisionError
| OverflowError
| ValueError.

Inductive result (A : Type) : Type :=
| Ok (a : A)
| Raise (e : exn).

Arguments Ok {A} a.
Arguments Raise {A} e.

Definition bind {A B : Type} (r : result A) (k : A -> result B) : result B :=
  match r with
  | Ok a => k a
  | Raise e => Raise e
  end.

Notation "x <- r ;; k" := (bind r (fun x => k))
  (at level 61, r at next level, right associativity).

(** ** Quantity maps: [Orders] and [Stock]

    Both are insertion-ordered Python dictionaries from SKU codes to integers
    whose missing keys read as 0.  Iteration order matters for the tie-break
    of [max], so the dictionary is an association list; [dict_set] overwrites
    in place or appends, as assignment to a Python dict does. *)

Module Dict.

Definition t : Type := list (string * Z).

Definition empty : t := [].

Fixpoint get (d : t) (k : string) : Z :=
  match d with
  | [] => 0
  | (k', v) :: d' => if String.eqb k k' then v else get d' k
  end.

Fixpoint mem (d : t) (k : string) : bool :=
  match d with
  | [] => false
  | (k', _) :: d' => if String.eqb k k' then true else mem d' k
  end.

Fixpoint set (d : t) (k : string) (v : Z) : t :=
  match d with
  | [] => [(k, v)]
  | (k', v') :: d' =>
      if String.eqb k k' then (k', v) :: d' else (k', v') :: set d' k v
  end.

Definition keys (d : t) : list string := map fst d.
Definition values (d : t) : list Z := map snd d.
Definition items (d : t) : list (string * Z) := d.

(** [Orders.sum()]: the sum of the values. *)
Definition sum (d : t) : Z := fold_right Z.add 0 (values d).

(** A dictionary holds each key once. *)
Fixpoint wf (d : t) : bool :=
  match d with
  | [] => true
  | (k, _) :: d' => negb (mem d' k) && wf d'
  end.

End Dict.

Definition Orders : Type := Dict.t.
Definition Stock : Type := Dict.t.

(** ** Binary64 arithmetic as Python performs it *)

Module Float.

Definition prec : Z := 53.
Definition emax : Z := 1024.

Definition float : Type := spec_float.

(** Conversion of an [int] operand in mixed [int]/[float] arithmetic:
    round to nearest, ties to even; an integer that rounds beyond the
    largest double raises [OverflowError]. *)
Definition of_int (n : Z) : result float :=
  match binary_normalize prec emax n 0 false with
  | S754_infinity _ => Raise OverflowError
  | f => Ok f
  end.

(** [a / b] on two [int]s: the correctly rounded quotient.  A zero divisor
    raises [ZeroDivisionError], a quotient beyond the largest double raises
    [OverflowError]; a zero dividend gives a zero signed by the divisor. *)
Definition int_true_divide (a b : Z) : result float :=
  match b with
  | Z0 => Raise ZeroDivisionError
  | _ =>
      match a with
      | Z0 => Ok (S754_zero (b <? 0))
      | _ =>
          match SFdiv prec emax
                  (S754_finite (a <? 0) (Z.to_pos (Z.abs a)) 0)
                  (S754_finite (b <? 0) (Z.to_pos (Z.abs b)) 0) with
          | S754_infinity _ => Raise OverflowError
          | f => Ok f
          end
      end
  end.

Definition mul (x y : float) : float := SFmul prec emax x y.
Definition sub (x y : float) : float := SFsub prec emax x y.

(** [math.ceil] on a float: exact on finite values, an exception on
    infinities and NaN. *)
Definition ceil (x : float) : result Z :=
  match x with
  | S754_zero _ => Ok 0
  | S754_infinity _ => Raise OverflowError
  | S754_nan => Raise ValueError
  | S754_finite s m e =>
      let n := cond_Zopp s (Zpos m) in
      Ok (if 0 <=? e then n * 2 ^ e else - ((- n) / 2 ^ (- e)))
  end.

(** The ceiling of the exact quotient [a / b], the number that
    [ceil(a / b)] stands for on paper. *)
Definition ceil_div (a b : Z) : Z := - ((- a) / b).

End Float.

(** ** Nodes

    The fields are those the notebooks pass to [Node(...)]; the sales and
    lead-time providers play no part in the strategies and are left out. *)

Record Receipt : Type := {
  sku_code : string;
  eta : Z;
  quantity : Z
}.

Definition Pipeline : Type := list Receipt.

(** [Receipt(sku_code=sku, eta=e, quantity=q)]. *)
Definition receipt (sku : string) (e q : Z) : Receipt :=
  {| sku_code := sku; eta := e; quantity := q |}.

Record Node : Type := {
  id : string;
  data : Dict.t;
  llc : Z;
  stock : Stock;
  backorders : Z;
  pipeline : Pipeline;
  orders : Orders
}.

(** ** Release strategy: [Fractional] *)

Module Fractional.

(** [ceil(order - shortage * (order / order_total))].  Python evaluates the
    quotient of the two integers first, then converts [shortage] for the
    product and [order] for the difference. *)
Definition tentative (order shortage order_total : Z) : result Z :=
  q <- Float.int_true_divide order order_total ;;
  s <- Float.of_int shortage ;;
  o <- Float.of_int order ;;
  Float.ceil (Float.sub o (Float.mul s q)).

(** The [for node, order in orders.items()] loop. *)
Fixpoint fill (items : list (string * Z)) (shortage order_total : Z)
         (releases : Orders) : result Orders :=
  match items with
  | [] => Ok releases
  | (k, order) :: rest =>
      r <- tentative order shortage order_total ;;
      fill rest shortage order_total (Dict.set releases k r)
  end.

(** [max(releases, key=lambda x: releases[x])]: the first key, in iteration
    order, whose value is not exceeded by a later one. *)
Fixpoint max_from (releases : Orders) (best : string) (bestv : Z)
         (ks : list string) : string :=
  match ks with
  | [] => best
  | k :: ks' =>
      let v := Dict.get releases k in
      if bestv <? v then max_from releases k v ks'
      else max_from releases best bestv ks'
  end.

Definition max_key (releases : Orders) : result string :=
  match Dict.keys releases with
  | [] => Raise ValueError
  | k :: ks => Ok (max_from releases k (Dict.get releases k) ks)
  end.

(** The [while releases.sum() > stock] loop; [None] when the fuel runs out
    before the guard fails. *)
Fixpoint reduce (fuel : nat) (releases : Orders) (stock : Z)
  : option (result Orders) :=
  if stock <? Dict.sum releases then
    match fuel with
    | O => None
    | S fuel' =>
        match max_key releases with
        | Raise e => Some (Raise e)
        | Ok k =>
            reduce fuel' (Dict.set releases k (Dict.get releases k - 1)) stock
        end
    end
  else Some (Ok releases).

Definition get_releases (fuel : nat) (node : Node) : option (result Orders) :=
  let releases := Dict.empty in
  let orders := node.(orders) in
  let stock := Dict.get node.(stock) node.(id) in
  let order_total := Dict.sum orders in
  if order_total =? 0 then Some (Ok releases)
  else
    let shortage := Z.max (order_total - stock) 0 in
    match fill (Dict.items orders) shortage order_total releases with
    | Raise e => Some (Raise e)
    | Ok releases => reduce fuel releases stock
    end.

End Fractional.

(** ** Control strategy: [RSQ]

    [SupplyChain.inventory_assemblies_feasible] belongs to the library, not
    to the notebook; the strategy is embedded over an arbitrary chain type and
    an arbitrary feasibility function.  This first embedding is the function
    from what the method reads to what it returns; the module [World] below
    runs the same statements on the objects they touch, the library call
    included. *)

Module RSQ.
Section Strategy.

Variable SupplyChain : Type.
Variable inventory_assemblies_feasible : SupplyChain -> Node -> Z.

(** [data[key]] on the plain [dict] of policy parameters. *)
Definition lookup (data : Dict.t) (key : string) : result Z :=
  if Dict.mem data key then Ok (Dict.get data key) else Raise (KeyError key).

(** [a % b] on integers: the remainder takes the sign of the divisor. *)
Definition int_mod (a b : Z) : result Z :=
  if b =? 0 then Raise ZeroDivisionError else Ok (a mod b).

(** [ceil((reorder_level - inventory) / order_quantity) * order_quantity],
    each [data[...]] read where Python reads it. *)
Definition batch (data : Dict.t) (inventory : Z) : result Z :=
  reorder_level <- lookup data "reorder_level" ;;
  order_quantity <- lookup data "order_quantity" ;;
  q <- Float.int_true_divide (reorder_level - inventory) order_quantity ;;
  c <- Float.ceil q ;;
  order_quantity' <- lookup data "order_quantity" ;;
  Ok (c * order_quantity').

Definition get_orders (self : SupplyChain) (node : Node) (period : Z)
  : result Orders :=
  let data := node.(data) in
  let inventory := inventory_assemblies_feasible self node in
  review_time <- lookup data "review_time" ;;
  r <- int_mod period review_time ;;
  order_quantity <-
    (if r =? 0 then
       reorder_level <- lookup data "reorder_level" ;;
       if inventory <? reorder_level then batch data inventory else Ok 0
     else Ok 0) ;;
  let orders := Dict.empty in
  Ok (Dict.set orders node.(id) order_quantity).

End Strategy.

Arguments get_orders {SupplyChain} inventory_assemblies_feasible self node period.

End RSQ.

(** ** [RSQ.get_orders] run on the objects it touches

    The function [RSQ.get_orders] above fixes what the method returns from
    what it reads.  Here the same statements run one by one on a world of
    objects: the chain behind [self.supply_chain], the node that is passed in,
    and the [Orders] objects allocated so far, addressed by position.  The
    library call [inventory_assemblies_feasible] is free to write to the chain
    and to the node; [Orders()] allocates a new object; [orders[node] = ...]
    writes to the object at an address. *)

Module World.
Section Objects.

Variable SupplyChain : Type.

Record t : Type := {
  chain : SupplyChain;
  node : Node;
  heap : list Orders
}.

(** The library call: its value, and the chain and the node as it leaves
    them. *)
Variable inventory_assemblies_feasible :
  SupplyChain -> Node -> Z * (SupplyChain * Node).

(** A statement: an outcome and the world it leaves, also when it raises. *)
Definition M (A : Type) : Type := t -> result A * t.

Definition ret {A : Type} (a : A) : M A := fun w => (Ok a, w).

Definition lift {A : Type} (r : result A) : M A := fun w => (r, w).

Definition seq {A B : Type} (m : M A) (k : A -> M B) : M B :=
  fun w =>
    match m w with
    | (Ok a, w') => k a w'
    | (Raise e, w') => (Raise e, w')
    end.

Notation "x <~ m ;; k" := (seq m (fun x => k))
  (at level 61, m at next level, right associativity).

(** [self.supply_chain.inventory_assemblies_feasible(node)]. *)
Definition call_library : M Z :=
  fun w =>
    let '(inventory, (c, n)) := inventory_assemblies_feasible w.(chain) w.(node) in
    (Ok inventory, {| chain := c; node := n; heap := w.(heap) |}).

(** [data[key]]: [data] is the dict of the node itself, not a copy, so the
    read sees the dict as it is when the read happens; a library call that
    changes a policy parameter is taken to change it in this dict. *)
Definition getitem (key : string) : M Z :=
  fun w => (RSQ.lookup w.(node).(data) key, w).

(** [Orders()]: a new, empty object at the next free address.  The class
    is the library's; it is taken to build an empty map of its own, as in
    [RSQ.get_orders]. *)
Definition new_orders : M nat :=
  fun w =>
    (Ok (List.length w.(heap)),
     {| chain := w.(chain); node := w.(node); heap := w.(heap) ++ [Dict.empty] |}).

Fixpoint update (objects : list Orders) (address : nat) (sku : string)
         (quantity : Z) : list Orders :=
  match objects, address with
  | [], _ => []
  | o :: objects', O => Dict.set o sku quantity :: objects'
  | o :: objects', S address' => o :: update objects' address' sku quantity
  end.

(** [orders[node] = quantity] on the object at [address], keyed by the
    node's SKU. *)
Definition setitem (address : nat) (quantity : Z) : M unit :=
  fun w =>
    (Ok tt,
     {| chain := w.(chain); node := w.(node);
        heap := update w.(heap) address w.(node).(id) quantity |}).

Definition batch (inventory : Z) : M Z :=
  reorder_level <~ getitem "reorder_level" ;;
  order_quantity <~ getitem "order_quantity" ;;
  q <~ lift (Float.int_true_divide (reorder_level - inventory) order_quantity) ;;
  c <~ lift (Float.ceil q) ;;
  order_quantity' <~ getitem "order_quantity" ;;
  ret (c * order_quantity').

(** The method, statement by statement; it returns the address of the
    [Orders] object it built. *)
Definition get_orders (period : Z) : M nat :=
  inventory <~ call_library ;;
  review_time <~ getitem "review_time" ;;
  r <~ lift (RSQ.int_mod period review_time) ;;
  order_quantity <~
    (if r =? 0 then
       reorder_level <~ getitem "reorder_level" ;;
       if inventory <? reorder_level then batch inventory else ret 0
     else ret 0) ;;
  orders <~ new_orders ;;
  _ <~ setitem orders order_quantity ;;
  ret orders.

(** What the caller holds after a call: the map behind the returned
    address, or the exception. *)
Definition returned (r : result nat * t) : option (result Orders) :=
  match fst r with
  | Ok address =>
      match nth_error (snd r).(heap) address with
      | Some o => Some (Ok o)
      | None => None
      end
  | Raise e => Some (Raise e)
  end.

End Objects.

Arguments chain {SupplyChain} _.
Arguments node {SupplyChain} _.
Arguments heap {SupplyChain} _.
Arguments get_orders {SupplyChain} inventory_assemblies_feasible period _.
Arguments returned {SupplyChain} r.

(** A library call that only reads. *)
Definition reads {SupplyChain : Type} (f : SupplyChain -> Node -> Z)
  : SupplyChain -> Node -> Z * (SupplyChain * Node) :=
  fun c n => (f c n, (c, n)).

End World.

(** ** Pipeline operations *)

Module PipelineOps.

(** Modelled from the spec: the [Pipeline] class itself ([suppy.pipeline])
    is not among the sources; section 4.2 gives its operations. [add]
    appends. *)
Definition add (p : Pipeline) (r : Receipt) : Pipeline := p ++ [r].

Definition matured (r : Receipt) : bool := r.(eta) =? 0.

(** Modelled from the spec: [pop_matured] of the absent [Pipeline] class
    removes and returns all receipts with [eta == 0]; the pair is
    (returned receipts, receipts left in the pipeline). *)
Definition pop_matured (p : Pipeline) : list Receipt * Pipeline :=
  (filter matured p, filter (fun r => negb (matured r)) p).

Definition age1 (r : Receipt) : Receipt :=
  {| sku_code := r.(sku_code); eta := r.(eta) - 1; quantity := r.(quantity) |}.

(** Modelled from the spec: [age] of the absent [Pipeline] class
    decrements [eta] on every remaining receipt by 1. *)
Definition age (p : Pipeline) : Pipeline := map age1 p.

(** Modelled from the spec: [sum_by_sku] of the absent [Pipeline] class,
    read at one SKU: the total in-transit quantity of that SKU. *)
Definition in_transit (p : Pipeline) (sku : string) : Z :=
  fold_right Z.add 0
    (map quantity (filter (fun r => String.eqb r.(sku_code) sku) p)).

(** What one period does to a pipeline: matured receipts are taken out at
    its start, the rest is aged at its end. *)
Definition period (p : Pipeline) : Pipeline := age (snd (pop_matured p)).

End PipelineOps.

(** ** The supply chain: bill of materials and feasibility *)

(** [Edge(source=..., destination=..., number=...)]: [number] units of
    [source], the supplier, go into one unit of [destination]. *)
Record Edge : Type := {
  source : string;
  destination : string;
  number : Z
}.

(** A chain as the library holds it once it is built: its nodes, and its
    bill of materials, whether the edges were given through
    [SupplyChain(edges=...)] or through [Node.predecessors]. *)
Record SupplyChain : Type := {
  nodes : list Node;
  edges : list Edge
}.

Module Chain.

Definition bom (es : list Edge) (sku : string) : list Edge :=
  filter (fun e => String.eqb e.(destination) sku) es.

Definition parents (es : list Edge) (sku : string) : list string :=
  map source (bom es sku).


Definition ids (ns : list Node) : list string := map id ns.

Fixpoint find (ns : list Node) (sku : string) : option Node :=
  match ns with
  | [] => None
  | n :: ns' => if String.eqb n.(id) sku then Some n else find ns' sku
  end.

Fixpoint mem (l : list string) (x : string) : bool :=
  match l with
  | [] => false
  | y :: l' => String.eqb x y || mem l' x
  end.

Fixpoint distinct (l : list string) : bool :=
  match l with
  | [] => true
  | x :: l' => negb (mem l' x) && distinct l'
  end.

Definition known (ns : list Node) (e : Edge) : bool :=
  mem (ids ns) e.(source) && mem (ids ns) e.(destination).

(** Every supplier path that ends in [sku] has fewer than [k] edges. *)
Fixpoint bounded (es : list Edge) (k : nat) (sku : string) : bool :=
  match k with
  | O => false
  | S k' => forallb (bounded es k') (parents es sku)
  end.

Definition acyclic (ns : list Node) (es : list Edge) : bool :=
  forallb (bounded es (List.length ns)) (ids ns).

(** Modelled from the spec: the invariants of a [SupplyChain], whose class
    is not among the sources.  Section 3 has the SKU codes unique, every edge
    endpoint a node of the chain, the graph acyclic and every multiplicity an
    integer above 0; section 7 has the constructor reject a chain that breaks
    one of them. *)
Definition well_formed (c : SupplyChain) : bool :=
  distinct (ids c.(nodes)) &&
  forallb (known c.(nodes)) c.(edges) &&
  forallb (fun e => 1 <=? e.(number)) c.(edges) &&
  acyclic c.(nodes) c.(edges).

(** On-hand stock of the node's own SKU plus what is in transit of it. *)
Definition stock_position (n : Node) : Z :=
  Dict.get n.(stock) n.(id) + PipelineOps.in_transit n.(pipeline) n.(id).

Fixpoint minimum (x : Z) (l : list Z) : Z :=
  match l with
  | [] => x
  | y :: l' => Z.min x (minimum y l')
  end.

(** Modelled from the spec: the assemblies that can be put together at a
    node, the second summand of [inventory_assemblies_feasible] of the absent
    [SupplyChain] class.  By section 4.3 it is the minimum, over the parent
    components [p] of the node, of the floor of (units of [p] held at the node
    plus what could be assembled at [p] further upstream) divided by the
    multiplicity; a node without parents assembles nothing.  The spec leaves
    the upstream term open in its formula ([feasible(p) * ?]); its words and
    its scenario 2 settle it: the stock on hand at the supplier is not the
    consumer's (root R holds 100, leaf L holds 5 and is still below its
    reorder level of 10), so the term is what [p] itself can assemble, not
    [p]'s stock position.  [depth] bounds the recursion through the bill of
    materials. *)
Fixpoint assemblies (depth : nat) (c : SupplyChain) (n : Node) : Z :=
  let term (e : Edge) : Z :=
    let upstream :=
      match depth with
      | O => 0
      | S depth' =>
          match find c.(nodes) e.(source) with
          | None => 0
          | Some p => assemblies depth' c p
          end
      end in
    (Dict.get n.(stock) e.(source) + upstream) / e.(number) in
  match map term (bom c.(edges) n.(id)) with
  | [] => 0
  | t :: ts => minimum t ts
  end.

Definition assemblies_feasible (c : SupplyChain) (n : Node) : Z :=
  assemblies (List.length c.(nodes)) c n.

(** Modelled from the spec: [inventory_assemblies_feasible] of the absent
    [SupplyChain] class, section 4.3: the node's own stock plus in-transit of
    its own SKU, plus the assemblies feasible from its components. *)
Definition inventory_assemblies_feasible (c : SupplyChain) (n : Node) : Z :=
  stock_position n + assemblies_feasible c n.

(** The rule of section 4.3 read as an equation: the units producible at the
    parent [sku] upstream, and the number of assemblies of [n] that the
    parent of edge [e] allows. *)
Definition upstream (c : SupplyChain) (sku : string) : Z :=
  match find c.(nodes) sku with
  | None => 0
  | Some p => assemblies_feasible c p
  end.


End Chain.

(** ** Scenarios *)

Definition node (sku : string) (st : Stock) : Node :=
  {| id := sku; data := []; llc := 0; stock := st; backorders := 0;
     pipeline := []; orders := [] |}.

Definition edge (src dst : string) (n : Z) : Edge :=
  {| source := src; destination := dst; number := n |}.

(** A supplier [N] with [st] units of its own SKU on hand and the given
    orders from its children on its books. *)
Definition supplier (st : Z) (o : Orders) : Node :=
  {| id := "N"; data := []; llc := 0; stock := [("N", st)]; backorders := 0;
     pipeline := []; orders := o |}.

(** A node with the RSQ policy parameters [order_quantity], [reorder_level]
    and [review_time]. *)
Definition policy_node (oq rl rt : Z) : Node :=
  {| id := "A";
     data := [("order_quantity", oq); ("reorder_level", rl); ("review_time", rt)];
     llc := 0; stock := [("A", 7)]; backorders := 0; pipeline := [];
     orders := [] |}.

(** A library call that writes: the chain is a count of units on hand, and
    each call books 20 of them. *)
Definition booking (c : Z) (n : Node) : Z * (Z * Node) := (c, (c + 20, n)).






(** Scenario 2: root R holds 100 of R; leaf L holds 5 of L, takes 1 of R per
    unit and reviews every period with reorder level 10 and batches of 10. *)
Definition leaf_L : Node :=
  {| id := "L";
     data := [("order_quantity", 10); ("reorder_level", 10); ("review_time", 1)];
     llc := 1; stock := [("L", 5)]; backorders := 0; pipeline := [];
     orders := [] |}.

Definition two_echelon : SupplyChain :=
  {| nodes := [node "R" [("R", 100)]; leaf_L]; edges := [edge "R" "L" 1] |}.



(** ** The metrics collector of the custom-metrics notebook

    [MetricsCollector] is a [StringIO] whose [write] is overridden: it never
    writes to the buffer, it parses each record and keeps four parallel lists.
    [json.loads] belongs to the standard library; the collector is embedded
    over an arbitrary parser into the record type the code annotates the
    parsed entry with.  What [json.loads] parses to something else (an object
    without [event], [period] or [quantity], or with values that [int]
    rejects) is outside the embedding: there [log[...]] and [int(...)] raise
    [KeyError], [TypeError] or [ValueError]. *)

Module Collector.

(** Modelled from the spec: [MetricEntryType] of [suppy.types], the type
    the code gives the parsed entry; the module is not among the sources.  A
    metric record is [{period, node, event, quantity, [sku]}]; [write] reads
    [event], [period] and [quantity]. *)
Record MetricEntryType : Type := {
  period : Z;
  node : string;
  event : string;
  quantity : Z;
  sku : option string
}.

(** An element of [self.service]: the [0] appended for a new period, or the
    float assigned later. *)
Inductive number : Type :=
| Integer (z : Z)
| Real (f : Float.float).

Record MetricsCollector : Type := {
  periods : list Z;
  sales : list Z;
  backorders : list Z;
  service : list number
}.

(** Exceptions of the list operations, beside those of the arithmetic. *)
Inductive raised : Type :=
| Builtin (e : exn)
| IndexError.

Inductive outcome (A : Type) : Type :=
| Returned (a : A)
| Raised (e : raised).

Arguments Returned {A} a.
Arguments Raised {A} e.

(** [__init__]. *)
Definition init : MetricsCollector :=
  {| periods := []; sales := []; backorders := []; service := [] |}.

(** [sorted(l)] on a list of integers. *)
Fixpoint insert (x : Z) (l : list Z) : list Z :=
  match l with
  | [] => [x]
  | y :: l' => if x <=? y then x :: y :: l' else y :: insert x l'
  end.

Definition sorted (l : list Z) : list Z := fold_right insert [] l.

(** [l.index(x)]: the first position of [x]; [None] stands for the
    [ValueError] of an absent value. *)
Fixpoint index (l : list Z) (x : Z) : option nat :=
  match l with
  | [] => None
  | y :: l' => if x =? y then Some O else option_map S (index l' x)
  end.

(** [l[i] = v] for [i >= 0]; [None] stands for [IndexError]. *)
Fixpoint store {A : Type} (l : list A) (i : nat) (v : A) : option (list A) :=
  match l, i with
  | [], _ => None
  | _ :: l', O => Some (v :: l')
  | y :: l', S i' => option_map (cons y) (store l' i' v)
  end.

(** [l[i] += q]. *)
Definition add_at (l : list Z) (i : nat) (q : Z) : option (list Z) :=
  match nth_error l i with
  | Some v => store l i (v + q)
  | None => None
  end.

(** [s / (s + b) * 100]: the quotient of the two integers in binary64, then
    the product with [100] converted to a float. *)
Definition service_level (s b : Z) : result Float.float :=
  q <- Float.int_true_divide s (s + b) ;;
  h <- Float.of_int 100 ;;
  Ok (Float.mul q h).

(** [log["event"] in ["sales-satisfied", "sales-backordered"]]. *)
Definition tracked (e : string) : bool :=
  existsb (String.eqb e) ["sales-satisfied"; "sales-backordered"].

(** The [if period not in self.periods:] block. *)
Definition register (self : MetricsCollector) (p : Z) : MetricsCollector :=
  if existsb (Z.eqb p) self.(periods) then self
  else {| periods := sorted (self.(periods) ++ [p]);
          sales := self.(sales) ++ [0];
          backorders := self.(backorders) ++ [0];
          service := self.(service) ++ [Integer 0] |}.

(** The [if ... elif ...] on the event: add the quantity to the slot. *)
Definition accumulate (self : MetricsCollector) (e : string) (indx : nat) (q : Z)
  : option MetricsCollector :=
  if String.eqb e "sales-satisfied" then
    option_map (fun l => {| periods := self.(periods); sales := l;
                            backorders := self.(backorders);
                            service := self.(service) |})
               (add_at self.(sales) indx q)
  else if String.eqb e "sales-backordered" then
    option_map (fun l => {| periods := self.(periods); sales := self.(sales);
                            backorders := l;
                            service := self.(service) |})
               (add_at self.(backorders) indx q)
  else Some self.

(** The last statement: [self.service[indx] = sales / (sales + backorders) * 100]. *)
Definition rate (self : MetricsCollector) (indx : nat)
  : MetricsCollector * outcome unit :=
  match nth_error self.(sales) indx, nth_error self.(backorders) indx with
  | Some s, Some b =>
      match service_level s b with
      | Raise e => (self, Raised (Builtin e))
      | Ok v =>
          match store self.(service) indx (Real v) with
          | Some l => ({| periods := self.(periods); sales := self.(sales);
                          backorders := self.(backorders); service := l |},
                       Returned tt)
          | None => (self, Raised IndexError)
          end
      end
  | _, _ => (self, Raised IndexError)
  end.

Section Write.

Variable loads : string -> result MetricEntryType.

(** [write]: the collector as the call leaves it, and how the call ends.
    An exception leaves the lists as they were changed up to it. *)
Definition write (self : MetricsCollector) (s : string)
  : MetricsCollector * outcome unit :=
  match loads s with
  | Raise e => (self, Raised (Builtin e))
  | Ok log =>
      if tracked log.(event) then
        let self := register self log.(period) in
        match index self.(periods) log.(period) with
        | None => (self, Raised (Builtin ValueError))
        | Some indx =>
            match accumulate self log.(event) indx log.(quantity) with
            | None => (self, Raised IndexError)
            | Some self => rate self indx
            end
        end
      else (self, Returned tt)
  end.

End Write.

End Collector.

(** ** Views of the collector

    What the lists of a collector say, for the statements about [write]. *)

(** The four lists go together and the periods are in increasing order. *)
Definition consistent (c : Collector.MetricsCollector) : Prop :=
  List.length c.(Collector.sales) = List.length c.(Collector.periods) /\
  List.length c.(Collector.backorders) = List.length c.(Collector.periods) /\
  List.length c.(Collector.service) = List.length c.(Collector.periods) /\
  StronglySorted Z.lt c.(Collector.periods).

(** [vs[ps.index(p)]], the slot the code addresses for period [p]; 0 for a
    period that is not known. *)
Definition slot (ps vs : list Z) (p : Z) : Z :=
  match Collector.index ps p with
  | Some i => nth i vs 0
  | None => 0
  end.

(** What the event adds to the satisfied and to the backordered total. *)
Definition satisfied_part (e : string) (q : Z) : Z :=
  if String.eqb e "sales-satisfied" then q else 0.

Definition backordered_part (e : string) (q : Z) : Z :=
  if String.eqb e "sales-satisfied" then 0
  else if String.eqb e "sales-backordered" then q else 0.

Definition benign (out : Collector.outcome unit) : Prop :=
  out = Collector.Returned tt \/
  out = Collector.Raised (Collector.Builtin ZeroDivisionError) \/
  out = Collector.Raised (Collector.Builtin OverflowError).

(** ** Scenarios for the policy parameters and the collector *)

(** A node whose policy data holds [review_time] only. *)
Definition review_only_node (rt : Z) : Node :=
  {| id := "A"; data := [("review_time", rt)]; llc := 0; stock := [("A", 7)];
     backorders := 0; pipeline := []; orders := [] |}.

(** A metric record of node A. *)
Definition record (p : Z) (e : string) (q : Z) : Collector.MetricEntryType :=
  {| Collector.period := p; Collector.node := "A"; Collector.event := e;
     Collector.quantity := q; Collector.sku := None |}.

(** A parser that reads every string as [log]. *)
Definition reads (log : Collector.MetricEntryType)
  : string -> result Collector.MetricEntryType :=
  fun _ => Ok log.

(** A collector after period 1 (3 sold, 1 backordered, 75%) and period 3
    (4 sold, 100%). *)
Definition tally : Collector.MetricsCollector :=
  {| Collector.periods := [1; 3];
     Collector.sales := [3; 4];
     Collector.backorders := [1; 0];
     Collector.service :=
       [Collector.Real (S754_finite false 5277655813324800 (-46));
        Collector.Real (S754_finite false 7036874417766400 (-46))] |}.

(** ** Measures for the rounding analysis

    Predicates and values that the error bounds of the binary64 operations
    are stated with. *)

(** [mrs] holds [m0] shifted right by [k] places: its mantissa is the
    quotient, and its round and sticky bits are clear when nothing was lost. *)
Definition shifted (m0 k : Z) (mrs : shr_record) : Prop :=
  shr_m mrs = m0 / 2 ^ k /\
  (m0 mod 2 ^ k = 0 -> shr_r mrs = false /\ shr_s mrs = false).

(** The float that [binary_round_aux] builds from a rounded mantissa and
    its exponent. *)
Definition pack (sx : bool) (m e : Z) : spec_float :=
  match m with
  | Z0 => S754_zero sx
  | Zpos p => if e <=? 971 then S754_finite sx p e else S754_infinity sx
  | Zneg _ => S754_nan
  end.

(** Scaled values: a float with exponent at least -1074 is an integer
    number of units of 2^-1074. *)
Definition W : Z := 2 ^ 1074.

Definition scaled (f : spec_float) : Z :=
  match f with
  | S754_finite s m e => cond_Zopp s (Z.pos m * 2 ^ (e + 1074))
  | _ => 0
  end.

(** Floats as the operations below produce them: a zero, or a finite float
    with an exponent between -1074 and [B]. *)
Definition finite_float (B : Z) (f : spec_float) : Prop :=
  (exists s, f = S754_zero s) \/
  (exists s m e, f = S754_finite s m e /\ -1074 <= e <= B).

Definition nonneg_float (B : Z) (f : spec_float) : Prop :=
  f = S754_zero false \/
  (exists m e, f = S754_finite false m e /\ Z.pos m < 2 ^ 53 /\ -1074 <= e <= B).

(** A tentative release [b] answers the order [a]: it has the same key, lies
    between 0 and the order, and is at most [order / 2^49] below the exact
    share [order * (T - sh) / T]. *)
Definition share_ok (sh T : Z) (a b : string * Z) : Prop :=
  fst a = fst b /\ 0 <= snd b <= snd a /\
  2 ^ 49 * (snd a * (T - sh)) - snd a * T <= 2 ^ 49 * (T * snd b).

(** * Properties *)

(** ** Dictionaries *)

Lemma Dict_sum_cons (k : string) (v : Z) (d : Dict.t) :
  Dict.sum ((k, v) :: d) = v + Dict.sum d.
Proof. reflexivity. Qed.

Lemma Dict_mem_keys (d : Dict.t) (k : string) :
  Dict.mem d k = true <-> In k (Dict.keys d).
Proof.
  induction d as [|[k' v] d IH]; simpl.
  - split; [discriminate | tauto].
  - destruct (String.eqb_spec k k') as [->|Hne].
    + split; auto.
    + rewrite IH. split; [auto | intros [H|H]; [congruence | assumption]].
Qed.

Lemma Dict_sum_set (d : Dict.t) (k : string) (v : Z) :
  Dict.mem d k = true ->
  Dict.sum (Dict.set d k v) = Dict.sum d - Dict.get d k + v.
Proof.
  induction d as [|[k' v'] d IH]; simpl; [discriminate|].
  destruct (String.eqb k k'); intros H.
  - rewrite !Dict_sum_cons. lia.
  - rewrite !Dict_sum_cons, IH by assumption. lia.
Qed.

Lemma Dict_keys_set (d : Dict.t) (k : string) (v : Z) :
  Dict.mem d k = true -> Dict.keys (Dict.set d k v) = Dict.keys d.
Proof.
  induction d as [|[k' v'] d IH]; simpl; [discriminate|].
  destruct (String.eqb k k'); intros H; simpl; [reflexivity|].
  now rewrite IH.
Qed.

Lemma Dict_get_set_same (d : Dict.t) (k : string) (v : Z) :
  Dict.get (Dict.set d k v) k = v.
Proof.
  induction d as [|[k' v'] d IH]; simpl.
  - now rewrite String.eqb_refl.
  - destruct (String.eqb k k') eqn:E; simpl; rewrite E; [reflexivity | exact IH].
Qed.

Lemma Dict_get_set_other (d : Dict.t) (k k0 : string) (v : Z) :
  k0 <> k -> Dict.get (Dict.set d k v) k0 = Dict.get d k0.
Proof.
  intros Hne. induction d as [|[k' v'] d IH]; simpl.
  - destruct (String.eqb_spec k0 k); [congruence | reflexivity].
  - destruct (String.eqb_spec k k') as [->|Hk]; simpl.
    + destruct (String.eqb_spec k0 k'); [congruence | reflexivity].
    + destruct (String.eqb k0 k'); [reflexivity | exact IH].
Qed.

(** ** The correction loop of [Fractional.get_releases] *)

Lemma max_from_in (releases : Orders) (ks : list string) :
  forall best bestv, In (Fractional.max_from releases best bestv ks) (best :: ks).
Proof.
  induction ks as [|k ks IH]; intros best bestv; simpl.
  - now left.
  - destruct (bestv <? Dict.get releases k).
    + destruct (IH k (Dict.get releases k)) as [H|H]; auto.
    + destruct (IH best bestv) as [H|H]; auto.
Qed.

Lemma max_key_in (releases : Orders) (k : string) :
  Fractional.max_key releases = Ok k -> In k (Dict.keys releases).
Proof.
  unfold Fractional.max_key.
  destruct (Dict.keys releases) as [|k0 ks]; [discriminate|].
  intros H; injection H as <-. apply max_from_in.
Qed.

(** The key picked by [max] holds a largest value. *)
Lemma max_from_ge (releases : Orders) (ks : list string) :
  forall best,
    let k := Fractional.max_from releases best (Dict.get releases best) ks in
    forall k', In k' (best :: ks) -> Dict.get releases k' <= Dict.get releases k.
Proof.
  induction ks as [|k0 ks IH]; intros best; simpl.
  - intros k' [<-|[]]. lia.
  - destruct (Z.ltb_spec (Dict.get releases best) (Dict.get releases k0)) as [Hlt|Hge];
      intros k' Hin.
    + specialize (IH k0). simpl in IH.
      destruct Hin as [<-|Hin].
      * specialize (IH k0 (or_introl eq_refl)). lia.
      * apply IH. exact Hin.
    + specialize (IH best). simpl in IH.
      destruct Hin as [<-|[<-|Hin]].
      * apply IH. now left.
      * specialize (IH best (or_introl eq_refl)). lia.
      * apply IH. now right.
Qed.

Lemma max_key_ge (releases : Orders) (k : string) :
  Fractional.max_key releases = Ok k ->
  forall k', In k' (Dict.keys releases) -> Dict.get releases k' <= Dict.get releases k.
Proof.
  unfold Fractional.max_key.
  destruct (Dict.keys releases) as [|k0 ks] eqn:E; [discriminate|].
  intros H; injection H as <-. apply max_from_ge.
Qed.

(** One pass through the loop body takes exactly 1 off the total. *)
Lemma reduce_step_sum (releases : Orders) (k : string) :
  Fractional.max_key releases = Ok k ->
  Dict.sum (Dict.set releases k (Dict.get releases k - 1)) = Dict.sum releases - 1.
Proof.
  intros H. rewrite Dict_sum_set.
  - lia.
  - apply Dict_mem_keys. now apply max_key_in.
Qed.

Lemma reduce_terminates (n : nat) :
  forall releases stock,
    Dict.sum releases - stock <= Z.of_nat n ->
    exists r, forall fuel, (n <= fuel)%nat ->
      Fractional.reduce fuel releases stock = Some r.
Proof.
  induction n as [|n IH]; intros releases stock Hle.
  - exists (Ok releases). intros fuel _.
    destruct fuel; simpl;
      destruct (Z.ltb_spec stock (Dict.sum releases)); solve [reflexivity | lia].
  - destruct (Z.ltb_spec stock (Dict.sum releases)) as [Hlt|Hge].
    + destruct (Fractional.max_key releases) as [k|e] eqn:Hk.
      * destruct (IH (Dict.set releases k (Dict.get releases k - 1)) stock) as [r Hr].
        { rewrite (reduce_step_sum _ _ Hk). lia. }
        exists r. intros [|fuel] Hf; [lia|]. simpl.
        destruct (Z.ltb_spec stock (Dict.sum releases)); [|lia].
        rewrite Hk. apply Hr. lia.
      * exists (Raise e). intros [|fuel] Hf; [lia|]. simpl.
        destruct (Z.ltb_spec stock (Dict.sum releases)); [|lia].
        now rewrite Hk.
    + exists (Ok releases). intros fuel _.
      destruct fuel; simpl;
        destruct (Z.ltb_spec stock (Dict.sum releases)); solve [reflexivity | lia].
Qed.

(** C9. [Fractional.get_releases] terminates on every node: a pass through
    the correction loop lowers the entry picked by [max], a largest one, by 1
    and with it the total by exactly 1, so the loop, whose guard compares the
    total with the fixed stock, stops after finitely many passes; from some
    amount of fuel on the function returns one and the same outcome. *)
Theorem Fractional_get_releases_terminates :
  (forall releases k,
      Fractional.max_key releases = Ok k ->
      (forall k', In k' (Dict.keys releases) ->
                  Dict.get releases k' <= Dict.get releases k) /\
      Dict.sum (Dict.set releases k (Dict.get releases k - 1))
      = Dict.sum releases - 1) /\
  (forall node : Node,
      exists (n : nat) (r : result Orders),
        forall fuel, (n <= fuel)%nat ->
                     Fractional.get_releases fuel node = Some r).
Proof.
  split.
  - intros releases k Hk. split.
    + now apply max_key_ge.
    + now apply reduce_step_sum.
  - intros node. unfold Fractional.get_releases.
    destruct (Dict.sum (orders node) =? 0).
    + exists O, (Ok Dict.empty). reflexivity.
    + destruct (Fractional.fill _ _ _ _) as [releases|e].
      * set (st := Dict.get (stock node) (id node)).
        destruct (reduce_terminates (Z.to_nat (Dict.sum releases - st)) releases st)
          as [r Hr]; [lia|].
        exists (Z.to_nat (Dict.sum releases - st)), r. exact Hr.
      * exists O, (Raise e). reflexivity.
Qed.

(** The loop leaves no more than the stock in the map it returns. *)
Lemma reduce_within_stock (fuel : nat) :
  forall releases stock r,
    Fractional.reduce fuel releases stock = Some (Ok r) -> Dict.sum r <= stock.
Proof.
  induction fuel as [|fuel IH]; intros releases stock r; simpl;
    destruct (Z.ltb_spec stock (Dict.sum releases)) as [Hlt|Hge].
  - discriminate.
  - intros H; injection H as <-. exact Hge.
  - destruct (Fractional.max_key releases) as [k|e]; [apply IH | discriminate].
  - intros H; injection H as <-. exact Hge.
Qed.

(** X5. Whatever map [get_releases] returns for a node with nonnegative stock,
    its total is within the stock. *)
Lemma Fractional_total_within_stock (fuel : nat) (node : Node) (r : Orders) :
  0 <= Dict.get (stock node) (id node) ->
  Fractional.get_releases fuel node = Some (Ok r) ->
  Dict.sum r <= Dict.get (stock node) (id node).
Proof.
  intros Hst. unfold Fractional.get_releases.
  destruct (Dict.sum (orders node) =? 0).
  - intros H; injection H as <-. exact Hst.
  - destruct (Fractional.fill _ _ _ _) as [releases|e]; [|discriminate].
    apply reduce_within_stock.
Qed.

(** C1, at a failing input.  One child orders 2^53 + 1 units and the stock
    covers it, so there is no shortage and everything ordered should be
    released; the conversion of the order to binary64 loses the last unit and
    the map returned totals 2^53. *)
Theorem Fractional_total_loses_a_unit :
  let node := supplier (2 ^ 53 + 1) [("X", 2 ^ 53 + 1)] in
  Dict.sum (orders node) = 2 ^ 53 + 1 /\
  Z.max (Dict.sum (orders node) - Dict.get (stock node) (id node)) 0 = 0 /\
  Fractional.get_releases 0 node = Some (Ok [("X", 2 ^ 53)]) /\
  Dict.sum [("X", 2 ^ 53)] <> Dict.sum (orders node).
Proof. vm_compute. repeat split; discriminate. Qed.

(** C3, at a failing input.  One child orders 2^53 + 3 units, the stock is
    2^53 + 4; binary64 rounds the order up and the child is sent one unit more
    than it ordered. *)
Theorem Fractional_release_exceeds_order :
  let node := supplier (2 ^ 53 + 4) [("X", 2 ^ 53 + 3)] in
  exists r,
    Fractional.get_releases 0 node = Some (Ok r) /\
    Dict.sum r <= Dict.get (stock node) (id node) /\
    Dict.get (orders node) "X" < Dict.get r "X".
Proof. exists [("X", 2 ^ 53 + 4)]. vm_compute. repeat split; discriminate. Qed.

(** C8, at a failing input.  Children order 2^53 + 1 and 2 units and nothing
    is in stock; in binary64 the share of the shortage of the first comes out
    2 above its order, and the map returned holds -2 for it. *)
Theorem Fractional_release_negative :
  let node := supplier 0 [("X", 2 ^ 53 + 1); ("Y", 2)] in
  Fractional.get_releases 0 node = Some (Ok [("X", -2); ("Y", 0)]).
Proof. vm_compute. reflexivity. Qed.

(** ** Binary64 quotients of integers below 2^53

    [SpecFloat] computes with the integer operations of the core library;
    [std_Z] restates them as those of [ZArith]. *)

Ltac std_Z :=
  change IntDef.Z.add with Z.add in *;
  change IntDef.Z.sub with Z.sub in *;
  change IntDef.Z.mul with Z.mul in *;
  change IntDef.Z.opp with Z.opp in *;
  change IntDef.Z.pow with Z.pow in *;
  change IntDef.Z.compare with Z.compare in *;
  change IntDef.Z.eqb with Z.eqb in *;
  change IntDef.Z.leb with Z.leb in *;
  change IntDef.Z.ltb with Z.ltb in *;
  change IntDef.Z.max with Z.max in *;
  change IntDef.Z.min with Z.min in *;
  change IntDef.Z.even with Z.even in *;
  change IntDef.Z.div2 with Z.div2 in *;
  change IntDef.Z.div_eucl with Z.div_eucl in *;
  change IntDef.Z.shiftl with Z.shiftl in *;
  change PosDef.Pos.mul with Pos.mul in *;
  change (@PosDef.Pos.iter) with (@Pos.iter) in *.

Lemma digits2_pos_bounds (p : positive) :
  2 ^ (Zpos (digits2_pos p) - 1) <= Zpos p < 2 ^ Zpos (digits2_pos p).
Proof.
  induction p as [p IH|p IH|]; cbn [digits2_pos].
  - rewrite Pos2Z.inj_succ.
    replace (Z.succ (Z.pos (digits2_pos p)) - 1) with (Z.succ (Z.pos (digits2_pos p) - 1)) by lia.
    rewrite !Z.pow_succ_r by lia. lia.
  - rewrite Pos2Z.inj_succ.
    replace (Z.succ (Z.pos (digits2_pos p)) - 1) with (Z.succ (Z.pos (digits2_pos p) - 1)) by lia.
    rewrite !Z.pow_succ_r by lia. lia.
  - simpl. lia.
Qed.

Lemma digits2_pos_unique (p : positive) (d : Z) :
  2 ^ (d - 1) <= Zpos p < 2 ^ d -> Zpos (digits2_pos p) = d.
Proof.
  intros [Hlo Hhi]. pose proof (digits2_pos_bounds p) as [Blo Bhi].
  assert (0 < d).
  { destruct (Z.ltb_spec 0 d) as [|Hd]; [assumption|].
    destruct (Z.eq_dec d 0) as [->|Hn]; [simpl in Hhi; lia|].
    rewrite Z.pow_neg_r in Hhi by lia. lia. }
  destruct (Z.lt_trichotomy (Zpos (digits2_pos p)) d) as [H1|[H1|H1]]; [|assumption|].
  - assert (2 ^ Zpos (digits2_pos p) <= 2 ^ (d - 1)) by (apply Z.pow_le_mono_r; lia). lia.
  - assert (2 ^ d <= 2 ^ (Zpos (digits2_pos p) - 1)) by (apply Z.pow_le_mono_r; lia). lia.
Qed.

Lemma Zdigits2_unique (n d : Z) :
  0 < n -> 2 ^ (d - 1) <= n < 2 ^ d -> Zdigits2 n = d.
Proof.
  intros Hn H. destruct n as [|p|p]; try lia.
  simpl. now apply digits2_pos_unique.
Qed.

Lemma new_location_exact (b r : Z) :
  0 < b -> 0 <= r < b ->
  (r = 0 -> new_location b r = loc_Exact) /\
  (r <> 0 -> exists c, new_location b r = loc_Inexact c).
Proof.
  intros Hb Hr. unfold new_location, new_location_even, new_location_odd. std_Z.
  split.
  - intros ->. destruct (Z.even b); reflexivity.
  - intros Hne. destruct (Z.even b); cbv beta;
      destruct (Z.eqb_spec r 0); try contradiction; eexists; reflexivity.
Qed.

Lemma round_nearest_even_range (m : Z) (l : location) :
  m <= round_nearest_even m l <= m + 1.
Proof.
  destruct l as [|[| |]]; simpl; try lia. destruct (Z.even m); lia.
Qed.

Lemma fexp_normal (e : Z) : -1021 <= e -> fexp Float.prec Float.emax e = e - 53.
Proof. unfold fexp, emin, Float.prec, Float.emax. std_Z. lia. Qed.

(** no shift when the mantissa has 53 digits *)
Lemma shr_fexp_53 (m e : Z) (l : location) :
  2 ^ 52 <= m < 2 ^ 53 -> -1074 <= e ->
  shr_fexp Float.prec Float.emax m e l = (shr_record_of_loc m l, e).
Proof.
  intros Hm He. unfold shr_fexp. std_Z.
  rewrite (Zdigits2_unique m 53) by (simpl; lia).
  rewrite fexp_normal by lia.
  replace (53 + e - 53 - e) with 0 by lia. reflexivity.
Qed.

Lemma shr_fexp_54 (m e : Z) (l : location) :
  2 ^ 53 <= m < 2 ^ 54 -> -1075 <= e ->
  shr_fexp Float.prec Float.emax m e l = (shr_1 (shr_record_of_loc m l), e + 1).
Proof.
  intros Hm He. unfold shr_fexp. std_Z.
  rewrite (Zdigits2_unique m 54) by (simpl; lia).
  rewrite fexp_normal by lia.
  replace (54 + e - 53 - e) with 1 by lia. reflexivity.
Qed.

Lemma loc_of_shr_record_of_loc (m : Z) (l : location) :
  loc_of_shr_record (shr_record_of_loc m l) = l.
Proof. destruct l as [|[| |]]; reflexivity. Qed.

Lemma shr_m_of_loc (m : Z) (l : location) : shr_m (shr_record_of_loc m l) = m.
Proof. destruct l as [|[| |]]; reflexivity. Qed.

(** a mantissa of 53 digits, or 2^53 after rounding up, as a float *)
Lemma renormalize (sx : bool) (m e : Z) :
  2 ^ 52 <= m <= 2 ^ 53 -> -1074 <= e <= 970 ->
  (let '(mrs, e') := shr_fexp Float.prec Float.emax m e loc_Exact in
   match shr_m mrs with
   | Z0 => S754_zero sx
   | Zpos p => if e' <=? Float.emax - Float.prec then S754_finite sx p e' else S754_infinity sx
   | Zneg _ => S754_nan
   end) =
  if m <? 2 ^ 53 then S754_finite sx (Z.to_pos m) e
  else S754_finite sx (Z.to_pos (2 ^ 52)) (e + 1).
Proof.
  intros Hm He. change (Float.emax - Float.prec) with 971.
  destruct (Z.ltb_spec m (2 ^ 53)) as [Hlt|Hge].
  - rewrite shr_fexp_53 by lia. simpl shr_m.
    destruct m as [|p|p]; try lia.
    destruct (Z.leb_spec e 971); [reflexivity|lia].
  - assert (m = 2 ^ 53) by lia. subst m.
    rewrite shr_fexp_54 by (simpl; lia).
    simpl. destruct (Z.leb_spec (e + 1) 971); [reflexivity|lia].
Qed.

Lemma round_aux_53 (sx : bool) (q e : Z) (l : location) :
  2 ^ 52 <= q < 2 ^ 53 -> -1074 <= e <= 970 ->
  binary_round_aux Float.prec Float.emax sx q e l =
  let m2 := round_nearest_even q l in
  if m2 <? 2 ^ 53 then S754_finite sx (Z.to_pos m2) e
  else S754_finite sx (Z.to_pos (2 ^ 52)) (e + 1).
Proof.
  intros Hq He. unfold binary_round_aux.
  rewrite shr_fexp_53 by lia.
  rewrite shr_m_of_loc, loc_of_shr_record_of_loc.
  pose proof (round_nearest_even_range q l) as Hr.
  std_Z. apply renormalize; lia.
Qed.

Lemma shr_1_m (q : Z) (l : location) :
  0 < q -> shr_m (shr_1 (shr_record_of_loc q l)) = q / 2.
Proof.
  intros Hq. destruct q as [|p|p]; try lia.
  assert (E : shr_m (shr_1 (shr_record_of_loc (Z.pos p) l)) =
              match p with xH => 0 | xO p' => Z.pos p' | xI p' => Z.pos p' end).
  { destruct l as [|[| |]]; destruct p; reflexivity. }
  rewrite E. destruct p as [p|p|].
  - apply Z.div_unique with 1; lia.
  - apply Z.div_unique with 0; lia.
  - reflexivity.
Qed.

(** the location after one shift *)
Lemma shr_1_loc (q : Z) (l : location) :
  0 < q ->
  let l' := loc_of_shr_record (shr_1 (shr_record_of_loc q l)) in
  (Z.even q = true -> l = loc_Exact -> l' = loc_Exact) /\
  (Z.even q = true -> l <> loc_Exact -> l' = loc_Inexact Lt) /\
  (Z.even q = false -> l = loc_Exact -> l' = loc_Inexact Eq) /\
  (Z.even q = false -> l <> loc_Exact -> l' = loc_Inexact Gt).
Proof.
  intros Hq. destruct q as [|p|p]; try lia.
  destruct l as [|[| |]]; destruct p as [p|p|]; simpl;
    repeat split; intros; congruence.
Qed.

Lemma round_aux_54 (sx : bool) (q e : Z) (l : location) :
  2 ^ 53 <= q < 2 ^ 54 -> -1075 <= e <= 969 ->
  binary_round_aux Float.prec Float.emax sx q e l =
  let mrs := shr_1 (shr_record_of_loc q l) in
  let m2 := round_nearest_even (q / 2) (loc_of_shr_record mrs) in
  if m2 <? 2 ^ 53 then S754_finite sx (Z.to_pos m2) (e + 1)
  else S754_finite sx (Z.to_pos (2 ^ 52)) (e + 1 + 1).
Proof.
  intros Hq He. unfold binary_round_aux.
  rewrite shr_fexp_54 by lia.
  rewrite shr_1_m by lia.
  pose proof (round_nearest_even_range (q / 2)
                (loc_of_shr_record (shr_1 (shr_record_of_loc q l)))) as Hr.
  assert (2 ^ 52 <= q / 2 < 2 ^ 53).
  { split; [apply Z.div_le_lower_bound | apply Z.div_lt_upper_bound]; lia. }
  std_Z. apply renormalize; lia.
Qed.

Lemma digits2_pos_small (p : positive) (k : Z) :
  0 <= k -> Z.pos p < 2 ^ k -> Z.pos (digits2_pos p) <= k.
Proof.
  intros Hk Hp. pose proof (digits2_pos_bounds p) as [Blo _].
  destruct (Z.leb_spec (Z.pos (digits2_pos p)) k); [assumption|].
  assert (2 ^ k <= 2 ^ (Z.pos (digits2_pos p) - 1)) by (apply Z.pow_le_mono_r; lia).
  lia.
Qed.

(** the quotient of a dividend below 2^53 by a divisor that leaves it in the
    normal range: 53 or 54 digits of quotient *)
Lemma div_core_normal (pa pb : positive) :
  Z.pos pa < 2 ^ 53 ->
  Z.pos (digits2_pos pb) <= Z.pos (digits2_pos pa) + 1021 ->
  let s := 53 + Z.pos (digits2_pos pb) - Z.pos (digits2_pos pa) in
  SFdiv_core_binary Float.prec Float.emax (Z.pos pa) 0 (Z.pos pb) 0
  = (Z.pos pa * 2 ^ s / Z.pos pb, - s,
     new_location (Z.pos pb) ((Z.pos pa * 2 ^ s) mod Z.pos pb)) /\
  0 < s <= 1074 /\ Z.pos pb < 2 ^ s /\
  2 ^ 52 <= Z.pos pa * 2 ^ s / Z.pos pb < 2 ^ 54.
Proof.
  intros Ha Hb s.
  pose proof (digits2_pos_bounds pa) as [Alo Ahi].
  pose proof (digits2_pos_bounds pb) as [Blo Bhi].
  pose proof (digits2_pos_small pa 53 ltac:(lia) Ha) as Hd1'.
  set (d1 := Z.pos (digits2_pos pa)) in *.
  set (d2 := Z.pos (digits2_pos pb)) in *.
  assert (Hd1 : 1 <= d1 <= 53) by (split; [subst d1; lia | assumption]).
  assert (Hd2 : 1 <= d2) by (subst d2; lia).
  assert (Hs : 0 < s) by (subst s; lia).
  assert (HS : 2 ^ s = 2 ^ (53 - d1) * 2 ^ d2).
  { rewrite <- Z.pow_add_r by lia. f_equal. subst s. lia. }
  assert (Hpos : 0 < 2 ^ (53 - d1)) by (apply Z.pow_pos_nonneg; lia).
  assert (Hpos2 : 0 < 2 ^ (d2 - 1)) by (apply Z.pow_pos_nonneg; lia).
  assert (HD2 : 2 ^ d2 = 2 * 2 ^ (d2 - 1)).
  { rewrite <- Z.pow_succ_r by lia. f_equal. lia. }
  assert (HD1 : 2 ^ d1 = 2 * 2 ^ (d1 - 1)).
  { rewrite <- Z.pow_succ_r by lia. f_equal. lia. }
  assert (H53 : 2 ^ 53 = 2 ^ (53 - d1) * 2 ^ d1).
  { rewrite <- Z.pow_add_r by lia. f_equal. lia. }
  split; [|split; [subst s; lia|split]].
  - unfold SFdiv_core_binary. std_Z.
    change (Zdigits2 (Z.pos pa)) with d1. change (Zdigits2 (Z.pos pb)) with d2.
    rewrite fexp_normal by lia.
    replace (Z.min (d1 + 0 - (d2 + 0) - 53) (0 - 0)) with (- s) by (subst s; lia).
    replace (0 - 0 - - s) with s by lia.
    assert (Hm : forall s', 0 < s' ->
                 match s' with
                 | 0 => Z.pos pa
                 | Z.pos _ => Z.shiftl (Z.pos pa) s'
                 | Z.neg _ => 0
                 end = Z.pos pa * 2 ^ s').
    { intros s' Hs'. rewrite <- Z.shiftl_mul_pow2 by lia.
      destruct s'; try lia; reflexivity. }
    rewrite (Hm s Hs).
    unfold Z.div, Z.modulo.
    destruct (Z.div_eucl (Z.pos pa * 2 ^ s) (Z.pos pb)) as [q r]. reflexivity.
  - rewrite HS.
    assert (1 * 2 ^ d2 <= 2 ^ (53 - d1) * 2 ^ d2)
      by (apply Z.mul_le_mono_nonneg_r; lia).
    lia.
  - split.
    + apply Z.div_le_lower_bound; [lia|].
      (* 2^52 * pb <= pa * 2^s, from pb < 2^d2 and 2^(d1-1) <= pa *)
      rewrite HS.
      assert (E : 2 ^ 52 * 2 ^ d2 = 2 ^ (d1 - 1) * (2 ^ (53 - d1) * 2 ^ d2)).
      { rewrite <- !Z.pow_add_r by lia. f_equal. lia. }
      assert (2 ^ 52 * Z.pos pb <= 2 ^ 52 * 2 ^ d2)
        by (apply Z.mul_le_mono_nonneg_l; lia).
      assert (0 <= 2 ^ (53 - d1) * 2 ^ d2) by lia.
      assert (2 ^ (d1 - 1) * (2 ^ (53 - d1) * 2 ^ d2) <= Z.pos pa * (2 ^ (53 - d1) * 2 ^ d2))
        by (apply Z.mul_le_mono_nonneg_r; lia).
      lia.
    + apply Z.div_lt_upper_bound; [lia|].
      (* pa * 2^s < pb * 2^54, from pa < 2^d1 and 2^(d2-1) <= pb *)
      rewrite HS.
      assert (E : 2 ^ (d2 - 1) * 2 ^ 54 = 2 ^ d1 * (2 ^ (53 - d1) * 2 ^ d2)).
      { rewrite <- !Z.pow_add_r by lia. f_equal. lia. }
      assert (2 ^ (d2 - 1) * 2 ^ 54 <= Z.pos pb * 2 ^ 54)
        by (apply Z.mul_le_mono_nonneg_r; lia).
      assert (0 < 2 ^ (53 - d1) * 2 ^ d2) by lia.
      assert (Z.pos pa * (2 ^ (53 - d1) * 2 ^ d2) < 2 ^ d1 * (2 ^ (53 - d1) * 2 ^ d2))
        by (apply Z.mul_lt_mono_pos_r; lia).
      lia.
Qed.


Lemma ceil_div_unique (a b k : Z) :
  0 < b -> (k - 1) * b < a <= k * b -> Float.ceil_div a b = k.
Proof.
  intros Hb H. unfold Float.ceil_div.
  assert (- a / b = - k); [|lia].
  symmetry. apply Z.div_unique with (k * b - a); lia.
Qed.

Lemma ceil_div_spec (a b : Z) :
  0 < b -> (Float.ceil_div a b - 1) * b < a <= Float.ceil_div a b * b.
Proof.
  intros Hb. unfold Float.ceil_div.
  pose proof (Z.div_mod (- a) b ltac:(lia)).
  pose proof (Z.mod_pos_bound (- a) b Hb). nia.
Qed.

(** the ceiling of m * 2^e, for a mantissa scaled to a common exponent -s *)
Lemma ceil_scaled (m e s : Z) :
  0 < m -> 0 < s -> 0 <= e + s ->
  Float.ceil (S754_finite false (Z.to_pos m) e) = Ok (Float.ceil_div (m * 2 ^ (e + s)) (2 ^ s)).
Proof.
  intros Hm Hs Hes. unfold Float.ceil, cond_Zopp.
  rewrite Z2Pos.id by lia. f_equal.
  assert (HS : 0 < 2 ^ s) by (apply Z.pow_pos_nonneg; lia).
  destruct (Z.leb_spec 0 e) as [He|He].
  - symmetry. apply ceil_div_unique; [assumption|].
    replace (e + s) with (s + e) by lia. rewrite Z.pow_add_r by lia.
    assert (0 < 2 ^ e) by (apply Z.pow_pos_nonneg; lia). nia.
  - unfold Float.ceil_div. f_equal.
    replace s with ((e + s) + - e) at 2 by lia.
    rewrite (Z.pow_add_r 2 (e + s) (- e)) by lia.
    replace (- (m * 2 ^ (e + s))) with (2 ^ (e + s) * (- m)) by ring.
    rewrite Z.div_mul_cancel_l; [reflexivity| |].
    + assert (0 < 2 ^ (- e)) by (apply Z.pow_pos_nonneg; lia). lia.
    + assert (0 < 2 ^ (e + s)) by (apply Z.pow_pos_nonneg; lia). lia.
Qed.

(** the floor of m * 2^e, likewise *)
Lemma ceil_scaled_neg (m e s : Z) :
  0 < m -> 0 < s -> 0 <= e + s ->
  Float.ceil (S754_finite true (Z.to_pos m) e) = Ok (- (m * 2 ^ (e + s) / 2 ^ s)).
Proof.
  intros Hm Hs Hes. unfold Float.ceil, cond_Zopp.
  rewrite Z2Pos.id by lia. f_equal.
  assert (HS : 0 < 2 ^ s) by (apply Z.pow_pos_nonneg; lia).
  destruct (Z.leb_spec 0 e) as [He|He].
  - replace (e + s) with (e + s) by lia. rewrite Z.pow_add_r by lia.
    rewrite Z.mul_assoc, Z.div_mul by lia. lia.
  - rewrite Z.opp_involutive. f_equal.
    replace s with ((e + s) + - e) at 2 by lia.
    rewrite (Z.pow_add_r 2 (e + s) (- e)) by lia.
    rewrite (Z.mul_comm m).
    rewrite Z.div_mul_cancel_l; [reflexivity| |].
    + assert (0 < 2 ^ (- e)) by (apply Z.pow_pos_nonneg; lia). lia.
    + assert (0 < 2 ^ (e + s)) by (apply Z.pow_pos_nonneg; lia). lia.
Qed.

(** the integer arithmetic behind the rounding of a quotient: the quotient
   scaled by 2^s lies strictly inside the unit interval that holds a / b *)
Lemma quotient_window (a b s q r : Z) :
  0 < a -> 0 < b -> 0 < s -> b < 2 ^ s ->
  a * 2 ^ s = b * q + r -> 0 <= r < b ->
  let K := Float.ceil_div a b in
  let F := a / b in
  (K - 1) * 2 ^ s < q /\ q <= K * 2 ^ s /\ (q = K * 2 ^ s -> r = 0) /\
  (q = (K - 1) * 2 ^ s + 1 -> r <> 0) /\
  F * 2 ^ s <= q /\ q + 2 <= (F + 1) * 2 ^ s.
Proof.
  intros Ha Hb Hs HS Heq Hr K F.
  pose proof (ceil_div_spec a b Hb) as HK. fold K in HK.
  assert (HF : F * b <= a < (F + 1) * b).
  { subst F. pose proof (Z.div_mod a b ltac:(lia)).
    pose proof (Z.mod_pos_bound a b Hb). nia. }
  clearbody K F.
  set (S := 2 ^ s) in *.
  assert (0 < S) by lia.
  repeat split.
  - nia.
  - nia.
  - intros ->. nia.
  - intros -> ->. nia.
  - nia.
  - nia.
Qed.

(** the correctly rounded quotient of a positive integer below 2^53 by a
   positive integer that leaves it in the normal range, as mantissa and
   exponent, with the unit interval it stays in *)
Lemma div_rounded_normal (sx : bool) (pa pb : positive) :
  Z.pos pa < 2 ^ 53 ->
  Z.pos (digits2_pos pb) <= Z.pos (digits2_pos pa) + 1021 ->
  let s := 53 + Z.pos (digits2_pos pb) - Z.pos (digits2_pos pa) in
  exists m e,
    (let '(mz, ez, lz) :=
       SFdiv_core_binary Float.prec Float.emax (Z.pos pa) 0 (Z.pos pb) 0 in
     binary_round_aux Float.prec Float.emax sx mz ez lz)
    = S754_finite sx (Z.to_pos m) e /\
    0 < m < 2 ^ 53 /\ 0 < s <= 1074 /\ 0 <= e + s <= 2 /\
    (Float.ceil_div (Z.pos pa) (Z.pos pb) - 1) * 2 ^ s < m * 2 ^ (e + s)
      <= Float.ceil_div (Z.pos pa) (Z.pos pb) * 2 ^ s /\
    (Z.pos pa / Z.pos pb) * 2 ^ s <= m * 2 ^ (e + s)
      < (Z.pos pa / Z.pos pb + 1) * 2 ^ s /\
    Z.abs (Z.pos pb * (m * 2 ^ (e + s)) - Z.pos pa * 2 ^ s) <= 2 * Z.pos pb /\
    2 ^ 52 * Z.pos pb <= Z.pos pa * 2 ^ s.
Proof.
  intros Ha Hb s.
  destruct (div_core_normal pa pb Ha Hb) as (Hcore & [Hs Hs53] & HS & Hq).
  rewrite Hcore. clear Hcore. fold s in Hs, Hs53, HS, Hq |- *.
  set (q := Z.pos pa * 2 ^ s / Z.pos pb) in *.
  set (r := (Z.pos pa * 2 ^ s) mod Z.pos pb) in *.
  assert (Heq : Z.pos pa * 2 ^ s = Z.pos pb * q + r) by (apply Z.div_mod; lia).
  assert (Hr : 0 <= r < Z.pos pb) by (apply Z.mod_pos_bound; lia).
  destruct (quotient_window (Z.pos pa) (Z.pos pb) s q r)
    as (Hlo & Hhi & Hex & Hst & Flo & Fhi); try lia.
  set (K := Float.ceil_div (Z.pos pa) (Z.pos pb)) in *.
  set (F := Z.pos pa / Z.pos pb) in *.
  destruct (new_location_exact (Z.pos pb) r ltac:(lia) Hr) as [Hl0 Hl1].
  clearbody s.
  assert (HevS : exists S2, 2 ^ s = 2 * S2).
  { exists (2 ^ (s - 1)). rewrite <- Z.pow_succ_r by lia. f_equal. lia. }
  destruct HevS as [S2 HS2].
  set (l := new_location (Z.pos pb) r) in *. clearbody l.
  clearbody K F.
  assert (Hbig : 2 ^ 52 * Z.pos pb <= Z.pos pa * 2 ^ s).
  { assert (2 ^ 52 * Z.pos pb <= q * Z.pos pb)
      by (apply Z.mul_le_mono_nonneg_r; lia).
    lia. }
  destruct (Z.ltb_spec q (2 ^ 53)) as [Hq53|Hq54].
  - rewrite round_aux_53 by lia. cbv zeta.
    pose proof (round_nearest_even_range q l) as Hrne.
    assert (Hexact : r = 0 -> round_nearest_even q l = q).
    { intros H0. rewrite (Hl0 H0). reflexivity. }
    set (m2 := round_nearest_even q l) in *.
    assert (Hwin : (K - 1) * 2 ^ s < m2 <= K * 2 ^ s).
    { split; [lia|]. destruct (Z.eq_dec q (K * 2 ^ s)) as [E|E].
      - rewrite (Hexact (Hex E)). lia.
      - lia. }
    assert (Hprod : Z.pos pb * q <= Z.pos pb * m2 <= Z.pos pb * q + Z.pos pb).
    { assert (Z.pos pb * q <= Z.pos pb * m2)
        by (apply Z.mul_le_mono_nonneg_l; lia).
      assert (Z.pos pb * m2 <= Z.pos pb * (q + 1))
        by (apply Z.mul_le_mono_nonneg_l; lia).
      lia. }
    destruct (Z.ltb_spec m2 (2 ^ 53)) as [Hm|Hm].
    + exists m2, (- s).
      replace (- s + s) with 0 by lia. rewrite Z.mul_1_r.
      repeat split; try lia.
    + exists (2 ^ 52), (- s + 1).
      replace (- s + 1 + s) with 1 by lia.
      assert (m2 = 2 ^ 53) by lia. change (2 ^ 52 * 2 ^ 1) with (2 ^ 53).
      repeat split; try lia.
  - rewrite round_aux_54 by lia. cbv zeta.
    destruct (shr_1_loc q l ltac:(lia)) as (L1 & L2 & L3 & L4).
    set (l' := loc_of_shr_record (shr_1 (shr_record_of_loc q l))) in *.
    pose proof (round_nearest_even_range (q / 2) l') as Hrne.
    set (m2 := round_nearest_even (q / 2) l') in *.
    assert (Hq2 : q = 2 * (q / 2) + (if Z.even q then 0 else 1)).
    { rewrite (Z.div_mod q 2) at 1 by lia. f_equal.
      rewrite Zmod_even. reflexivity. }
    assert (Hwin : (K - 1) * 2 ^ s < 2 * m2 <= K * 2 ^ s /\
                   F * 2 ^ s <= 2 * m2 < (F + 1) * 2 ^ s).
    { clear Hbig. destruct (Z.even q) eqn:Eq.
      - assert (m2 = q / 2); [|lia].
        subst m2.
        assert (Hdec : l = loc_Exact \/ l <> loc_Exact)
          by (destruct l; [now left | right; discriminate]).
        destruct Hdec as [El|El].
        + rewrite (L1 eq_refl El). reflexivity.
        + rewrite (L2 eq_refl El). reflexivity.
      - destruct (Z.eq_dec r 0) as [E0|E0].
        + assert (q <> (K - 1) * 2 ^ s + 1) by (intros E; exact (Hst E E0)).
          clear - Hlo Hhi Flo Fhi HS2 Hq2 Hrne H. rewrite HS2 in *. lia.
        + destruct (Hl1 E0) as [c Hc].
          assert (El : l <> loc_Exact) by (rewrite Hc; discriminate).
          assert (m2 = q / 2 + 1);
            [|clear - Hlo Hhi Flo Fhi HS2 Hq2 H; rewrite HS2 in *; lia].
          subst m2. rewrite (L4 eq_refl El). reflexivity. }
    assert (Hq2lo : 2 ^ 52 <= q / 2) by (apply Z.div_le_lower_bound; lia).
    assert (Hprod : Z.pos pb * q - Z.pos pb <= Z.pos pb * (2 * m2)
                    <= Z.pos pb * q + 2 * Z.pos pb).
    { assert (q - 1 <= 2 * m2 <= q + 2) by (destruct (Z.even q); lia).
      assert (Z.pos pb * (q - 1) <= Z.pos pb * (2 * m2))
        by (apply Z.mul_le_mono_nonneg_l; lia).
      assert (Z.pos pb * (2 * m2) <= Z.pos pb * (q + 2))
        by (apply Z.mul_le_mono_nonneg_l; lia).
      lia. }
    destruct (Z.ltb_spec m2 (2 ^ 53)) as [Hm|Hm].
    + exists m2, (- s + 1).
      replace (- s + 1 + s) with 1 by lia. change (2 ^ 1) with 2.
      repeat split; try lia.
    + exists (2 ^ 52), (- s + 1 + 1).
      replace (- s + 1 + 1 + s) with 2 by lia.
      assert (q / 2 < 2 ^ 53) by (apply Z.div_lt_upper_bound; lia).
      assert (m2 = 2 ^ 53) by lia. change (2 ^ 52 * 2 ^ 2) with (2 * 2 ^ 53).
      repeat split; try lia.
Qed.

(** the same for two positive integers below 2^53 *)
Lemma div_rounded (sx : bool) (pa pb : positive) :
  Z.pos pa < 2 ^ 53 -> Z.pos pb < 2 ^ 53 ->
  exists m e s,
    (let '(mz, ez, lz) :=
       SFdiv_core_binary Float.prec Float.emax (Z.pos pa) 0 (Z.pos pb) 0 in
     binary_round_aux Float.prec Float.emax sx mz ez lz)
    = S754_finite sx (Z.to_pos m) e /\
    0 < m < 2 ^ 53 /\ 0 < s <= 105 /\ 0 <= e + s <= 2 /\
    (Float.ceil_div (Z.pos pa) (Z.pos pb) - 1) * 2 ^ s < m * 2 ^ (e + s)
      <= Float.ceil_div (Z.pos pa) (Z.pos pb) * 2 ^ s /\
    (Z.pos pa / Z.pos pb) * 2 ^ s <= m * 2 ^ (e + s)
      < (Z.pos pa / Z.pos pb + 1) * 2 ^ s /\
    Z.abs (Z.pos pb * (m * 2 ^ (e + s)) - Z.pos pa * 2 ^ s) <= 2 * Z.pos pb /\
    2 ^ 52 * Z.pos pb <= Z.pos pa * 2 ^ s.
Proof.
  intros Ha Hb.
  pose proof (digits2_pos_small pb 53 ltac:(lia) Hb) as Hd2.
  assert (Hd1 : 1 <= Z.pos (digits2_pos pa)) by lia.
  destruct (div_rounded_normal sx pa pb Ha ltac:(lia))
    as (m & e & Hr & Hm & Hs & Hrest).
  exists m, e, (53 + Z.pos (digits2_pos pb) - Z.pos (digits2_pos pa)).
  split; [exact Hr|]. split; [exact Hm|]. split; [lia | exact Hrest].
Qed.

(** ceil(a / b) in binary64 is the exact ceiling when |a|, |b| < 2^53, a > 0 *)
Lemma true_divide_ceil (a b : Z) :
  0 < a < 2 ^ 53 -> b <> 0 -> - 2 ^ 53 < b < 2 ^ 53 ->
  (q <- Float.int_true_divide a b ;; Float.ceil q) = Ok (Float.ceil_div a b).
Proof.
  intros Ha Hb0 Hb.
  destruct a as [|pa|pa]; try lia. destruct b as [|pb|pb]; try lia.
  - unfold Float.int_true_divide.
    change (Z.pos pa <? 0) with false. change (Z.pos pb <? 0) with false.
    change (Z.to_pos (Z.abs (Z.pos pa))) with pa.
    change (Z.to_pos (Z.abs (Z.pos pb))) with pb.
    unfold SFdiv. cbn [xorb].
    destruct (div_rounded false pa pb) as (m & e & s & -> & Hm & Hs & Hes & Hc & _ & _ & _);
      try lia.
    cbn [bind]. rewrite (ceil_scaled m e s) by lia. f_equal.
    apply ceil_div_unique; [apply Z.pow_pos_nonneg|]; lia.
  - unfold Float.int_true_divide.
    change (Z.pos pa <? 0) with false. change (Z.neg pb <? 0) with true.
    change (Z.to_pos (Z.abs (Z.pos pa))) with pa.
    change (Z.to_pos (Z.abs (Z.neg pb))) with pb.
    unfold SFdiv. cbn [xorb].
    destruct (div_rounded true pa pb) as (m & e & s & -> & Hm & Hs & Hes & _ & Hf & _ & _);
      try lia.
    cbn [bind]. rewrite (ceil_scaled_neg m e s) by lia. f_equal.
    unfold Float.ceil_div. f_equal.
    assert (HS : 0 < 2 ^ s) by (apply Z.pow_pos_nonneg; lia).
    replace (- Z.pos pa / Z.neg pb) with (Z.pos pa / Z.pos pb).
    + symmetry. apply Z.div_unique with (m * 2 ^ (e + s) - Z.pos pa / Z.pos pb * 2 ^ s); lia.
    + change (Z.neg pb) with (- Z.pos pb). now rewrite Z.div_opp_opp by lia.
Qed.

(** ceil(a / b) in binary64 is the exact ceiling when 0 < a < 2^53 and the
    quotient is in the normal range *)
Lemma true_divide_ceil_normal (a b : Z) :
  0 < a < 2 ^ 53 -> b <> 0 ->
  Zdigits2 (Z.abs b) <= Zdigits2 a + 1021 ->
  (q <- Float.int_true_divide a b ;; Float.ceil q) = Ok (Float.ceil_div a b).
Proof.
  intros Ha Hb0 Hd.
  destruct a as [|pa|pa]; try lia. destruct b as [|pb|pb]; try lia.
  - unfold Float.int_true_divide.
    change (Z.pos pa <? 0) with false. change (Z.pos pb <? 0) with false.
    change (Z.to_pos (Z.abs (Z.pos pa))) with pa.
    change (Z.to_pos (Z.abs (Z.pos pb))) with pb.
    unfold SFdiv. cbn [xorb].
    destruct (div_rounded_normal false pa pb ltac:(lia) Hd)
      as (m & e & -> & Hm & Hs & Hes & Hc & _ & _ & _).
    set (s := 53 + Z.pos (digits2_pos pb) - Z.pos (digits2_pos pa)) in *.
    cbn [bind]. rewrite (ceil_scaled m e s) by lia. f_equal.
    apply ceil_div_unique; [apply Z.pow_pos_nonneg|]; lia.
  - unfold Float.int_true_divide.
    change (Z.pos pa <? 0) with false. change (Z.neg pb <? 0) with true.
    change (Z.to_pos (Z.abs (Z.pos pa))) with pa.
    change (Z.to_pos (Z.abs (Z.neg pb))) with pb.
    unfold SFdiv. cbn [xorb].
    destruct (div_rounded_normal true pa pb ltac:(lia) Hd)
      as (m & e & -> & Hm & Hs & Hes & _ & Hf & _ & _).
    set (s := 53 + Z.pos (digits2_pos pb) - Z.pos (digits2_pos pa)) in *.
    cbn [bind]. rewrite (ceil_scaled_neg m e s) by lia. f_equal.
    unfold Float.ceil_div. f_equal.
    assert (HS : 0 < 2 ^ s) by (apply Z.pow_pos_nonneg; lia).
    replace (- Z.pos pa / Z.neg pb) with (Z.pos pa / Z.pos pb).
    + symmetry. apply Z.div_unique with (m * 2 ^ (e + s) - Z.pos pa / Z.pos pb * 2 ^ s); lia.
    + change (Z.neg pb) with (- Z.pos pb). now rewrite Z.div_opp_opp by lia.
Qed.

(** ** Rounding errors of the binary64 operations *)

Lemma shr_1_shifted (m0 k : Z) (mrs : shr_record) :
  0 <= m0 -> 0 <= k -> shifted m0 k mrs -> shifted m0 (k + 1) (shr_1 mrs).
Proof.
  intros Hm Hk [HM Hex].
  assert (Hp : 0 < 2 ^ k) by (apply Z.pow_pos_nonneg; lia).
  assert (Hpow : 2 ^ (k + 1) = 2 ^ k * 2) by (rewrite Z.pow_add_r by lia; reflexivity).
  assert (HM0 : 0 <= m0 / 2 ^ k) by (apply Z.div_pos; lia).
  destruct mrs as [M r s]. cbn [shr_m shr_r shr_s] in *.
  assert (Hdiv : m0 / 2 ^ (k + 1) = M / 2).
  { rewrite Hpow, <- Z.div_div by lia. now rewrite HM. }
  assert (Hmod : m0 mod 2 ^ (k + 1) = 0 -> m0 mod 2 ^ k = 0 /\ M mod 2 = 0).
  { intros H0. apply Z.mod_divide in H0; [|lia]. destruct H0 as [c Hc].
    rewrite Hpow in Hc. split.
    - apply Z.mod_divide; [lia|]. exists (c * 2). lia.
    - rewrite HM. replace m0 with (c * 2 * 2 ^ k) by lia.
      rewrite Z.div_mul by lia. apply Z.mod_mul. lia. }
  split.
  - rewrite Hdiv. subst M. destruct (m0 / 2 ^ k) as [|p|p]; try lia.
    + reflexivity.
    + destruct p as [p|p|]; cbn [shr_1 shr_m].
      * apply Z.div_unique with 1; lia.
      * apply Z.div_unique with 0; lia.
      * reflexivity.
  - intros H0. destruct (Hmod H0) as [H1 H2]. destruct (Hex H1) as [-> ->].
    subst M. destruct (m0 / 2 ^ k) as [|p|p]; try lia.
    + split; reflexivity.
    + destruct p as [p|p|]; cbn [shr_1 shr_r shr_s orb].
      * rewrite Pos2Z.inj_xI in H2. rewrite Z.add_comm, Z.mul_comm, Z.mod_add in H2 by lia.
        discriminate H2.
      * split; reflexivity.
      * discriminate H2.
Qed.

Lemma shr_iter_shifted (p : positive) :
  forall (m0 k : Z) (mrs : shr_record),
    0 <= m0 -> 0 <= k -> shifted m0 k mrs ->
    shifted m0 (k + Z.pos p) (iter_pos shr_1 p mrs).
Proof.
  induction p as [p IH|p IH|]; intros m0 k mrs Hm Hk H; cbn [iter_pos].
  - replace (k + Z.pos p~1) with (k + 1 + Z.pos p + Z.pos p) by lia.
    apply IH; try lia. apply IH; try lia. now apply shr_1_shifted.
  - replace (k + Z.pos p~0) with (k + Z.pos p + Z.pos p) by lia.
    apply IH; try lia. now apply IH.
  - now apply shr_1_shifted.
Qed.

Lemma shifted_start (m : Z) : shifted m 0 (shr_record_of_loc m loc_Exact).
Proof.
  split; cbn; [now rewrite Z.div_1_r | auto].
Qed.

Lemma fexp_eq (e : Z) : fexp Float.prec Float.emax e = Z.max (e - 53) (-1074).
Proof. unfold fexp, emin, Float.prec, Float.emax. std_Z. reflexivity. Qed.

Lemma Zdigits2_le (x k : Z) : 0 <= k -> 0 <= x < 2 ^ k -> Zdigits2 x <= k.
Proof.
  intros Hk [H0 Hx]. destruct x as [|p|p]; simpl; try lia.
  pose proof (digits2_pos_bounds p) as [Blo _].
  destruct (Z.leb_spec (Z.pos (digits2_pos p)) k); [assumption|].
  assert (2 ^ k <= 2 ^ (Z.pos (digits2_pos p) - 1)) by (apply Z.pow_le_mono_r; lia).
  lia.
Qed.

Lemma Zdigits2_bounds (x : Z) :
  0 < x -> 2 ^ (Zdigits2 x - 1) <= x < 2 ^ Zdigits2 x.
Proof. destruct x; try lia. intros _. apply digits2_pos_bounds. Qed.

Lemma shr_nonpos (mrs : shr_record) (e n : Z) : n <= 0 -> shr mrs e n = (mrs, e).
Proof. destruct n; try lia; reflexivity. Qed.

(* the second normalisation of [binary_round_aux], after rounding *)
Lemma renormalize_gen (sx : bool) (m e : Z) :
  0 <= m <= 2 ^ 53 -> -1074 <= e ->
  exists m' e',
    (let '(mrs, e1) := shr_fexp Float.prec Float.emax m e loc_Exact in
     match shr_m mrs with
     | Z0 => S754_zero sx
     | Zpos p => if e1 <=? Float.emax - Float.prec then S754_finite sx p e1
                 else S754_infinity sx
     | Zneg _ => S754_nan
     end) = pack sx m' e' /\
    0 <= m' < 2 ^ 53 /\ e <= e' <= e + 1 /\ m' * 2 ^ (e' - e) = m.
Proof.
  intros Hm He. change (Float.emax - Float.prec) with 971.
  unfold shr_fexp. std_Z. rewrite fexp_eq.
  destruct (Z.ltb_spec m (2 ^ 53)) as [Hlt|Hge].
  - pose proof (Zdigits2_le m 53 ltac:(lia) ltac:(lia)) as Hd.
    rewrite shr_nonpos by lia.
    exists m, e. rewrite shr_m_of_loc. replace (e - e) with 0 by lia.
    split; [reflexivity|]. lia.
  - assert (m = 2 ^ 53) by lia. subst m.
    change (Zdigits2 (2 ^ 53)) with 54.
    replace (Z.max (54 + e - 53) (-1074) - e) with 1 by lia.
    exists (2 ^ 52), (e + 1). replace (e + 1 - e) with 1 by lia.
    split; [reflexivity|]. split; [|split]; try lia; reflexivity.
Qed.

Lemma round_exact (sx : bool) (m e : Z) :
  0 < m ->
  let n := Z.max (Zdigits2 m + e - 53) (-1074) - e in
  let G := 2 ^ Z.max 0 n in
  exists m' e',
    binary_round_aux Float.prec Float.emax sx m e loc_Exact = pack sx m' e' /\
    0 <= m' < 2 ^ 53 /\ e + Z.max 0 n <= e' <= e + Z.max 0 n + 1 /\
    m / G * G <= m' * 2 ^ (e' - e) <= m / G * G + (if m mod G =? 0 then 0 else G).
Proof.
  intros Hm n G.
  pose proof (Zdigits2_bounds m Hm) as [Dlo Dhi].
  assert (Hd : 0 < Zdigits2 m) by (destruct m; try lia; simpl; lia).
  assert (En : Z.max (Zdigits2 m + e - 53) (-1074) - e = n) by reflexivity.
  assert (EG : G = 2 ^ Z.max 0 n) by reflexivity.
  clearbody G. clearbody n.
  set (d := Zdigits2 m) in *.
  unfold binary_round_aux.
  unfold shr_fexp at 1. std_Z. rewrite fexp_eq. fold d. rewrite En.
  destruct (Z.leb_spec n 0) as [Hn|Hn].
  - (* no shift: the mantissa fits *)
    rewrite shr_nonpos by lia.
    rewrite shr_m_of_loc, loc_of_shr_record_of_loc. cbn [round_nearest_even].
    assert (Hm53 : m < 2 ^ 53).
    { assert (2 ^ d <= 2 ^ 53) by (apply Z.pow_le_mono_r; lia). lia. }
    destruct (renormalize_gen sx m e ltac:(lia) ltac:(lia))
      as (m' & e' & Hr & Hb & He' & Hv).
    std_Z. rewrite Hr. exists m', e'.
    assert (HG : G = 1) by (rewrite EG, Z.max_l by lia; reflexivity).
    rewrite HG, Z.div_1_r, Z.mod_1_r, Z.mul_1_r. cbn [Z.eqb].
    repeat split; lia.
  - (* shift right by n, round, renormalise *)
    assert (HG : G = 2 ^ n) by (rewrite EG, Z.max_r by lia; reflexivity).
    assert (HGpos : 0 < G) by (rewrite HG; apply Z.pow_pos_nonneg; lia).
    destruct n as [|p|p]; try lia.
    cbn [shr].
    destruct (shr_iter_shifted p m 0 (shr_record_of_loc m loc_Exact)
                ltac:(lia) ltac:(lia) (shifted_start m)) as [HM Hex].
    rewrite Z.add_0_l, <- HG in HM, Hex.
    set (mrs := iter_pos shr_1 p (shr_record_of_loc m loc_Exact)) in *.
    pose proof (round_nearest_even_range (shr_m mrs) (loc_of_shr_record mrs)) as Hrne.
    assert (Hexact : m mod G = 0 ->
                     round_nearest_even (shr_m mrs) (loc_of_shr_record mrs) = shr_m mrs).
    { intros H0. destruct (Hex H0) as [Hr Hs].
      destruct mrs as [M r s]. cbn in Hr, Hs. subst r s. reflexivity. }
    set (m2 := round_nearest_even (shr_m mrs) (loc_of_shr_record mrs)) in *.
    rewrite HM in *.
    assert (Hm1 : 0 <= m / G < 2 ^ 53).
    { split; [apply Z.div_pos; lia|].
      apply Z.div_lt_upper_bound; [lia|].
      assert (2 ^ d <= G * 2 ^ 53); [|lia].
      rewrite HG, <- Z.pow_add_r by lia. apply Z.pow_le_mono_r; lia. }
    destruct (renormalize_gen sx m2 (e + Z.pos p) ltac:(lia) ltac:(lia))
      as (m' & e' & Hr & Hb & He' & Hv).
    std_Z. rewrite Hr. exists m', e'.
    split; [reflexivity|]. split; [lia|]. split; [lia|].
    replace (e' - e) with ((e' - (e + Z.pos p)) + Z.pos p) by lia.
    rewrite Z.pow_add_r by lia. rewrite Z.mul_assoc, Hv, <- HG.
    destruct (Z.eqb_spec (m mod G) 0) as [H0|H0].
    + rewrite (Hexact H0). lia.
    + nia.
Qed.

Lemma W_pos : 0 < W.
Proof. unfold W. apply Z.pow_pos_nonneg; lia. Qed.

Lemma pow2_pos (k : Z) : 0 <= k -> 0 < 2 ^ k.
Proof. intros. apply Z.pow_pos_nonneg; lia. Qed.

Lemma pow2_split (a b : Z) : 0 <= a -> 0 <= b -> 2 ^ (a + b) = 2 ^ a * 2 ^ b.
Proof. intros. apply Z.pow_add_r; assumption. Qed.

Lemma scaled_pack (sx : bool) (m e : Z) :
  0 <= m -> e <= 971 -> -1074 <= e ->
  scaled (pack sx m e) = cond_Zopp sx (m * 2 ^ (e + 1074)).
Proof.
  intros Hm He Hlo. unfold pack. destruct m as [|p|p]; try lia.
  - destruct sx; reflexivity.
  - destruct (Z.leb_spec e 971); [reflexivity | lia].
Qed.

Lemma pack_cases (sx : bool) (m e : Z) :
  0 <= m -> e <= 971 ->
  pack sx m e = S754_zero sx /\ m = 0 \/
  exists p, pack sx m e = S754_finite sx p e /\ m = Z.pos p.
Proof.
  intros Hm He. unfold pack. destruct m as [|p|p]; try lia.
  - now left.
  - right. exists p. destruct (Z.leb_spec e 971); [auto | lia].
Qed.

(** [math.ceil] of a finite float, through its scaled value. *)
Lemma ceil_scaled_value (s : bool) (m : positive) (e : Z) :
  -1074 <= e ->
  Float.ceil (S754_finite s m e)
  = Ok (Float.ceil_div (scaled (S754_finite s m e)) W).
Proof.
  intros He. unfold Float.ceil, scaled, Float.ceil_div, W. f_equal.
  set (n := cond_Zopp s (Z.pos m)).
  replace (cond_Zopp s (Z.pos m * 2 ^ (e + 1074))) with (n * 2 ^ (e + 1074))
    by (subst n; unfold cond_Zopp; destruct s; ring).
  pose proof (pow2_pos (e + 1074) ltac:(lia)) as Hp.
  destruct (Z.leb_spec 0 e) as [H0|H0].
  - replace (2 ^ (e + 1074)) with (2 ^ e * 2 ^ 1074) by (rewrite <- pow2_split; lia || reflexivity).
    replace (- (n * (2 ^ e * 2 ^ 1074))) with ((- (n * 2 ^ e)) * 2 ^ 1074) by ring.
    rewrite Z.div_mul by (pose proof (pow2_pos 1074); lia). lia.
  - f_equal.
    replace (2 ^ 1074) with (2 ^ (e + 1074) * 2 ^ (- e))
      by (rewrite <- pow2_split by lia; f_equal; lia).
    replace (- (n * 2 ^ (e + 1074))) with (2 ^ (e + 1074) * (- n)) by ring.
    rewrite Z.div_mul_cancel_l; [reflexivity| |lia].
    pose proof (pow2_pos (- e) ltac:(lia)). lia.
Qed.

Lemma ceil_zero (s : bool) : Float.ceil (S754_zero s) = Ok (Float.ceil_div 0 W).
Proof. unfold Float.ceil, Float.ceil_div. now rewrite Z.opp_0, Z.div_0_l by (pose proof W_pos; lia). Qed.

(** Rounding a positive mantissa to binary64, with values scaled by 2^K so
    as to be integers: the result is within a relative 2^-52 of the input
    (or within one unit of 2^-1074), and it does not cross a point of the
    grid around the input. *)
Lemma round_error (sx : bool) (m e K : Z) :
  0 < m -> 0 <= e + K -> 1074 <= K ->
  let f := Z.max (Zdigits2 m + e - 53) (-1074) in
  exists m' e',
    binary_round_aux Float.prec Float.emax sx m e loc_Exact = pack sx m' e' /\
    0 <= m' < 2 ^ 53 /\ Z.max e f <= e' <= Z.max e f + 1 /\
    let Vin := m * 2 ^ (e + K) in
    let Vout := m' * 2 ^ (e' + K) in
    2 ^ 52 * Z.abs (Vout - Vin) <= Vin + 2 ^ 52 * 2 ^ (K - 1074) /\
    (forall N, Vin <= N -> (2 ^ (Z.max e f + K) | N) -> Vout <= N) /\
    (forall N, N <= Vin -> (2 ^ (Z.max e f + K) | N) -> N <= Vout).
Proof.
  intros Hm HeK HK f.
  destruct (round_exact sx m e Hm) as (m' & e' & Hr & Hb & He' & Hw).
  fold f in He', Hw.
  set (n := f - e) in *.
  set (G := 2 ^ Z.max 0 n) in *.
  exists m', e'. split; [exact Hr|]. split; [exact Hb|].
  assert (Emax : e + Z.max 0 n = Z.max e f) by (subst n; lia).
  rewrite Emax in He'. split; [exact He'|].
  cbv zeta.
  pose proof (Zdigits2_bounds m Hm) as [Dlo Dhi].
  set (d := Zdigits2 m) in *.
  assert (Hd : 0 < d) by (destruct m; try lia; subst d; simpl; lia).
  set (U := 2 ^ (e + K)).
  assert (HU : 0 < U) by (apply pow2_pos; lia).
  assert (HG : 0 < G) by (apply pow2_pos; lia).
  assert (Hout : m' * 2 ^ (e' + K) = m' * 2 ^ (e' - e) * U).
  { subst U. rewrite <- Z.mul_assoc, <- pow2_split by lia. do 2 f_equal. lia. }
  assert (Hgrid : 2 ^ (Z.max e f + K) = G * U).
  { subst G U. rewrite <- pow2_split by lia. f_equal. lia. }
  rewrite Hout, Hgrid. set (R := m' * 2 ^ (e' - e)) in *.
  pose proof (Z.div_mod m G ltac:(lia)) as Hdm.
  pose proof (Z.mod_pos_bound m G HG) as Hmod.
  split; [|split].
  - (* error *)
    destruct (Z.eqb_spec (m mod G) 0) as [H0|H0].
    + assert (R = m) by lia. subst R. rewrite H. rewrite Z.sub_diag. simpl Z.abs.
      pose proof (pow2_pos (K - 1074) ltac:(lia)).
      assert (0 < m * U) by (apply Z.mul_pos_pos; lia). lia.
    + assert (Hn : 0 < n).
      { destruct (Z.leb_spec n 0); [|assumption].
        subst G. rewrite Z.max_l in * by lia. rewrite Z.mod_1_r in H0. lia. }
      assert (EG : G = 2 ^ n) by (subst G; rewrite Z.max_r by lia; reflexivity).
      assert (Habs : Z.abs (R * U - m * U) <= G * U).
      { rewrite <- Z.mul_sub_distr_r, Z.abs_mul, (Z.abs_eq U) by lia.
        apply Z.mul_le_mono_nonneg_r; lia. }
      assert (Hg : 2 ^ 52 * (G * U) <= m * U + 2 ^ 52 * 2 ^ (K - 1074)).
      { rewrite <- Hgrid. replace (Z.max e f) with f by (subst n; lia).
        subst f. destruct (Z.max_spec (d + e - 53) (-1074)) as [[Hlt ->]|[Hge ->]].
        - replace (-1074 + K) with (K - 1074) by lia.
          assert (0 < m * U) by (apply Z.mul_pos_pos; lia). lia.
        - assert (E1 : 2 ^ 52 * 2 ^ (d + e - 53 + K) = 2 ^ (d - 1) * U).
          { subst U. rewrite <- !pow2_split by lia. f_equal. lia. }
          rewrite E1. pose proof (pow2_pos (K - 1074) ltac:(lia)).
          assert (2 ^ (d - 1) * U <= m * U) by (apply Z.mul_le_mono_nonneg_r; lia).
          lia. }
      lia.
  - (* upper grid point *)
    intros N HN [c Hc]. subst N.
    assert (Hmc : m <= c * G) by (apply (Z.mul_le_mono_pos_r _ _ U HU); lia).
    assert (HRc : R <= c * G).
    { clear HN. destruct (Z.eqb_spec (m mod G) 0) as [H0|H0]; [lia|].
      assert (Hac : m / G < c) by (apply (Z.mul_lt_mono_pos_l G); lia).
      assert ((m / G + 1) * G <= c * G) by (apply Z.mul_le_mono_nonneg_r; lia).
      lia. }
    assert (R * U <= c * G * U) by (apply Z.mul_le_mono_nonneg_r; lia). lia.
  - (* lower grid point *)
    intros N HN [c Hc]. subst N.
    assert (Hcm : c * G <= m) by (apply (Z.mul_le_mono_pos_r _ _ U HU); lia).
    assert (Hca : c <= m / G) by (apply Z.div_le_lower_bound; lia).
    assert (c * G <= m / G * G) by (apply Z.mul_le_mono_nonneg_r; lia).
    assert (c * G * U <= R * U) by (apply Z.mul_le_mono_nonneg_r; lia). lia.
Qed.

Lemma iter_xO (p : positive) (k : positive) :
  Z.pos (Pos.iter xO p k) = Z.pos p * 2 ^ Z.pos k.
Proof.
  pose proof (shift_pos_correct k p) as H. unfold shift_pos in H.
  rewrite H, Zpower_pos_nat, Zpower_nat_Z, positive_nat_Z. lia.
Qed.

Lemma shl_align_spec (p : positive) (e e1 : Z) :
  let '(mz, ez) := shl_align p e e1 in
  ez = Z.min e e1 /\ Z.pos mz = Z.pos p * 2 ^ (e - ez).
Proof.
  unfold shl_align. change (IntDef.Z.sub e1 e) with (e1 - e).
  change (@PosDef.Pos.iter positive) with (@Pos.iter positive).
  destruct (e1 - e) as [|k|k] eqn:E.
  - split; [lia|]. replace (e - e) with 0 by lia. lia.
  - split; [lia|]. replace (e - e) with 0 by lia. lia.
  - split; [lia|]. rewrite iter_xO. f_equal. f_equal. lia.
Qed.

Lemma Zdigits2_shift (m k : Z) :
  0 < m -> 0 <= k -> Zdigits2 (m * 2 ^ k) = Zdigits2 m + k.
Proof.
  intros Hm Hk. pose proof (Zdigits2_bounds m Hm) as [Dlo Dhi].
  assert (Hd : 0 < Zdigits2 m) by (destruct m; try lia; simpl; lia).
  pose proof (pow2_pos k Hk).
  apply Zdigits2_unique; [nia|].
  replace (Zdigits2 m + k - 1) with (Zdigits2 m - 1 + k) by lia.
  rewrite !pow2_split by lia. nia.
Qed.

(** [binary_round]: the same, after the mantissa has been shifted left as
    far as the format allows. *)
Lemma binary_round_error (sx : bool) (p : positive) (e K : Z) :
  0 <= e + K -> 1074 <= K ->
  let f := Z.max (Zdigits2 (Z.pos p) + e - 53) (-1074) in
  exists m' e',
    binary_round Float.prec Float.emax sx p e = pack sx m' e' /\
    0 <= m' < 2 ^ 53 /\ f <= e' <= f + 1 /\
    let Vin := Z.pos p * 2 ^ (e + K) in
    let Vout := m' * 2 ^ (e' + K) in
    2 ^ 52 * Z.abs (Vout - Vin) <= Vin + 2 ^ 52 * 2 ^ (K - 1074) /\
    (forall N, Vin <= N -> (2 ^ (f + K) | N) -> Vout <= N) /\
    (forall N, N <= Vin -> (2 ^ (f + K) | N) -> N <= Vout).
Proof.
  intros HeK HK f. unfold binary_round.
  change (Z.pos (digits2_pos p)) with (Zdigits2 (Z.pos p)).
  std_Z. rewrite fexp_eq. fold f.
  pose proof (shl_align_spec p e f) as Hsh.
  destruct (shl_align p e f) as [mz ez]. destruct Hsh as [Hez Hmz].
  assert (Hk : 0 <= e - ez) by lia.
  assert (Hd : Zdigits2 (Z.pos mz) + ez = Zdigits2 (Z.pos p) + e).
  { rewrite Hmz, Zdigits2_shift by lia. lia. }
  assert (Hf : -1074 <= f) by (subst f; lia).
  destruct (round_error sx (Z.pos mz) ez K ltac:(lia) ltac:(lia) HK)
    as (m' & e' & Hr & Hb & He' & Hv).
  cbv zeta in Hv.
  replace (Zdigits2 (Z.pos mz) + ez - 53) with (Zdigits2 (Z.pos p) + e - 53) in * by lia.
  fold f in He', Hv.
  assert (Emax : Z.max ez f = f).
  { apply Z.max_r. rewrite Hez. lia. }
  rewrite Emax in *.
  assert (Ein : Z.pos mz * 2 ^ (ez + K) = Z.pos p * 2 ^ (e + K)).
  { rewrite Hmz, <- Z.mul_assoc, <- pow2_split by lia. do 2 f_equal. lia. }
  rewrite Ein in Hv.
  exists m', e'. split; [exact Hr|]. split; [exact Hb|]. split; [exact He'|].
  exact Hv.
Qed.

Lemma nonneg_scaled (B : Z) (f : spec_float) : nonneg_float B f -> 0 <= scaled f.
Proof.
  intros [->|(m & e & -> & _ & He)]; cbn [scaled cond_Zopp]; [lia|].
  pose proof (pow2_pos (e + 1074) ltac:(lia)). lia.
Qed.

Lemma nonneg_finite (B : Z) (f : spec_float) : nonneg_float B f -> finite_float B f.
Proof.
  intros [->|(m & e & -> & _ & He)]; [left; eauto | right; eauto].
Qed.

Lemma ceil_finite (B : Z) (f : spec_float) :
  finite_float B f -> Float.ceil f = Ok (Float.ceil_div (scaled f) W).
Proof.
  intros [[s ->]|(s & m & e & -> & He)].
  - apply ceil_zero.
  - apply ceil_scaled_value. lia.
Qed.

Lemma pack_nonneg (m e B : Z) :
  0 <= m < 2 ^ 53 -> -1074 <= e <= B -> B <= 971 ->
  nonneg_float B (pack false m e) /\ scaled (pack false m e) = m * 2 ^ (e + 1074).
Proof.
  intros Hm He HB. split.
  - destruct (pack_cases false m e ltac:(lia) ltac:(lia)) as [[-> _]|(p & -> & Hp)].
    + now left.
    + right. exists p, e. repeat split; lia.
  - rewrite scaled_pack by lia. reflexivity.
Qed.

(** An integer below 2^53 converts exactly. *)
Lemma of_int_exact (o : Z) :
  0 <= o < 2 ^ 53 ->
  exists f, Float.of_int o = Ok f /\ nonneg_float 1 f /\ scaled f = o * W.
Proof.
  intros Ho. unfold Float.of_int, binary_normalize.
  destruct o as [|p|p]; try lia.
  - exists (S754_zero false). repeat split. now left.
  - destruct (binary_round_error false p 0 1074 ltac:(lia) ltac:(lia))
      as (m' & e' & Hr & Hb & He' & _ & Hup & Hlo).
    cbv zeta in *. rewrite Hr.
    pose proof (Zdigits2_le (Z.pos p) 53 ltac:(lia) ltac:(lia)) as Hd.
    assert (Hd0 : 0 < Zdigits2 (Z.pos p)) by (simpl; lia).
    set (f := Z.max (Zdigits2 (Z.pos p) + 0 - 53) (-1074)) in *.
    assert (Hf : -1074 <= f <= 0) by (subst f; lia).
    destruct (pack_nonneg m' e' 1 Hb ltac:(lia) ltac:(lia)) as [Hnn Hsc].
    assert (Hgrid : (2 ^ (f + 1074) | Z.pos p * 2 ^ (0 + 1074))).
    { exists (Z.pos p * 2 ^ (- f)). rewrite <- Z.mul_assoc, <- pow2_split by lia.
      do 2 f_equal. lia. }
    pose proof (Hup _ (Z.le_refl _) Hgrid) as H1.
    pose proof (Hlo _ (Z.le_refl _) Hgrid) as H2.
    exists (pack false m' e').
    assert (Hfin : forall s, pack false m' e' <> S754_infinity s).
    { intros s. destruct Hnn as [->|(m & e & -> & _)]; discriminate. }
    split.
    + destruct (pack false m' e'); try reflexivity. exfalso. eapply Hfin; reflexivity.
    + split; [exact Hnn|]. rewrite Hsc. unfold W. change (0 + 1074) with 1074 in *. lia.
Qed.

(** The product of two nonnegative floats. *)
Lemma mul_error (Bx By : Z) (x y : spec_float) :
  nonneg_float Bx x -> nonneg_float By y ->
  0 <= Bx -> 0 <= By -> Bx + By + 54 <= 971 ->
  nonneg_float (Bx + By + 54) (Float.mul x y) /\
  2 ^ 52 * Z.abs (scaled (Float.mul x y) * W - scaled x * scaled y)
  <= scaled x * scaled y + 2 ^ 52 * W.
Proof.
  intros Hx Hy HBx HBy HB. pose proof W_pos as HW.
  destruct Hx as [->|(mx & ex & -> & Hmx & Hex)];
    destruct Hy as [->|(my & ey & -> & Hmy & Hey)]; cbn [Float.mul SFmul xorb scaled].
  - split; [now left | simpl; lia].
  - split; [now left | simpl; lia].
  - split; [now left|]. rewrite Z.mul_0_r. simpl. lia.
  - unfold cond_Zopp.
    destruct (round_error false (Z.pos (mx * my)) (ex + ey) 2148
                ltac:(lia) ltac:(lia) ltac:(lia))
      as (m' & e' & Hr & Hb & He' & Herr & _).
    cbv zeta in *. change (Z.pos (PosDef.Pos.mul mx my)) with (Z.pos (mx * my)).
    std_Z. rewrite Hr.
    assert (Hd : Zdigits2 (Z.pos (mx * my)) <= 106).
    { apply Zdigits2_le; [lia|]. rewrite Pos2Z.inj_mul.
      change (2 ^ 106) with (2 ^ 53 * 2 ^ 53). nia. }
    set (f := Z.max (Zdigits2 (Z.pos (mx * my)) + (ex + ey) - 53) (-1074)) in *.
    assert (Hf : -1074 <= f <= Z.max (ex + ey + 53) (-1074)) by (subst f; lia).
    destruct (pack_nonneg m' e' (Bx + By + 54) Hb ltac:(lia) ltac:(lia)) as [Hnn Hsc].
    split; [exact Hnn|]. rewrite Hsc.
    assert (E1 : m' * 2 ^ (e' + 1074) * W = m' * 2 ^ (e' + 2148)).
    { unfold W. rewrite <- Z.mul_assoc, <- pow2_split by lia. do 2 f_equal. lia. }
    assert (E2 : Z.pos mx * 2 ^ (ex + 1074) * (Z.pos my * 2 ^ (ey + 1074))
                 = Z.pos (mx * my) * 2 ^ (ex + ey + 2148)).
    { rewrite Pos2Z.inj_mul.
      replace (ex + ey + 2148) with ((ex + 1074) + (ey + 1074)) by lia.
      rewrite (pow2_split (ex + 1074) (ey + 1074)) by lia. ring. }
    rewrite E1, E2. exact Herr.
Qed.

Lemma pack_finite (sx : bool) (m e B : Z) :
  0 <= m < 2 ^ 53 -> -1074 <= e <= B -> B <= 971 ->
  finite_float B (pack sx m e) /\
  scaled (pack sx m e) = cond_Zopp sx (m * 2 ^ (e + 1074)).
Proof.
  intros Hm He HB. split.
  - destruct (pack_cases sx m e ltac:(lia) ltac:(lia)) as [[-> _]|(p & -> & Hp)].
    + left. eauto.
    + right. exists sx, p, e. split; [reflexivity | lia].
  - apply scaled_pack; lia.
Qed.

Lemma new_location_above (b r : Z) :
  0 < r -> b < 2 * r -> new_location b r = loc_Inexact Gt.
Proof.
  intros Hr Hb. unfold new_location, new_location_even, new_location_odd. std_Z.
  destruct (Z.even b); cbv beta; destruct (Z.eqb_spec r 0) as [|_]; try lia.
  - now rewrite (proj2 (Z.compare_gt_iff (2 * r) b)) by lia.
  - now rewrite (proj2 (Z.compare_gt_iff (2 * r + 1) b)) by lia.
Qed.

(** the quotient below the normal range: the dividend is shifted by 1074
    digits, whatever the two numbers *)
Lemma div_core_subnormal (pa pb : positive) :
  Z.pos (digits2_pos pa) + 1022 <= Z.pos (digits2_pos pb) ->
  SFdiv_core_binary Float.prec Float.emax (Z.pos pa) 0 (Z.pos pb) 0
  = (Z.pos pa * 2 ^ 1074 / Z.pos pb, - 1074,
     new_location (Z.pos pb) ((Z.pos pa * 2 ^ 1074) mod Z.pos pb)) /\
  0 <= Z.pos pa * 2 ^ 1074 / Z.pos pb < 2 ^ 53.
Proof.
  intros Hb.
  pose proof (digits2_pos_bounds pa) as [Alo Ahi].
  pose proof (digits2_pos_bounds pb) as [Blo Bhi].
  set (d1 := Z.pos (digits2_pos pa)) in *.
  set (d2 := Z.pos (digits2_pos pb)) in *.
  assert (Hd1 : 1 <= d1) by (subst d1; lia).
  split.
  - unfold SFdiv_core_binary. std_Z.
    change (Zdigits2 (Z.pos pa)) with d1. change (Zdigits2 (Z.pos pb)) with d2.
    rewrite fexp_eq.
    replace (Z.min (Z.max (d1 + 0 - (d2 + 0) - 53) (-1074)) (0 - 0)) with (- 1074) by lia.
    change (0 - 0 - - 1074) with 1074.
    cbv iota. rewrite Z.shiftl_mul_pow2 by lia.
    unfold Z.div, Z.modulo.
    destruct (Z.div_eucl (Z.pos pa * 2 ^ 1074) (Z.pos pb)) as [q r]. reflexivity.
  - assert (HW : 0 < 2 ^ 1074) by (apply Z.pow_pos_nonneg; lia).
    split; [apply Z.div_pos; lia|].
    apply Z.div_lt_upper_bound; [lia|].
    assert (E : 2 ^ (d1 + 1021) * 2 ^ 53 = 2 ^ d1 * 2 ^ 1074).
    { rewrite <- !Z.pow_add_r by lia. f_equal. lia. }
    assert (2 ^ (d1 + 1021) <= 2 ^ (d2 - 1)) by (apply Z.pow_le_mono_r; lia).
    assert (2 ^ (d1 + 1021) * 2 ^ 53 <= Z.pos pb * 2 ^ 53)
      by (apply Z.mul_le_mono_nonneg_r; lia).
    assert (Z.pos pa * 2 ^ 1074 < 2 ^ d1 * 2 ^ 1074)
      by (apply Z.mul_lt_mono_pos_r; lia).
    lia.
Qed.

(** the rounded quotient below the normal range: a multiple of 2^-1074 that
    does not exceed 2^53 of them, and is not 0 unless the exact quotient is
    at most half of 2^-1074 *)
Lemma div_rounded_subnormal (sx : bool) (pa pb : positive) :
  Z.pos (digits2_pos pa) + 1022 <= Z.pos (digits2_pos pb) ->
  exists m e,
    (let '(mz, ez, lz) :=
       SFdiv_core_binary Float.prec Float.emax (Z.pos pa) 0 (Z.pos pb) 0 in
     binary_round_aux Float.prec Float.emax sx mz ez lz) = pack sx m e /\
    0 <= m < 2 ^ 53 /\ -1074 <= e <= -1073 /\
    m * 2 ^ (e + 1074) <= 2 ^ 53 /\
    (Z.pos pb < Z.pos pa * 2 ^ 1075 -> 0 < m).
Proof.
  intros Hb.
  destruct (div_core_subnormal pa pb Hb) as (-> & Hq).
  set (q := Z.pos pa * 2 ^ 1074 / Z.pos pb) in *.
  set (r := (Z.pos pa * 2 ^ 1074) mod Z.pos pb).
  assert (Heq : Z.pos pa * 2 ^ 1074 = Z.pos pb * q + r) by (apply Z.div_mod; lia).
  assert (Hr : 0 <= r < Z.pos pb) by (apply Z.mod_pos_bound; lia).
  assert (Hup : Z.pos pb < Z.pos pa * 2 ^ 1075 ->
                0 < round_nearest_even q (new_location (Z.pos pb) r)).
  { intros Hlt. pose proof (round_nearest_even_range q (new_location (Z.pos pb) r)).
    destruct (Z.eq_dec q 0) as [E0|]; [|lia].
    rewrite E0 in *. rewrite Z.mul_0_r, Z.add_0_l in Heq.
    change (2 ^ 1075) with (2 * 2 ^ 1074) in Hlt.
    rewrite new_location_above by lia. reflexivity. }
  set (l := new_location (Z.pos pb) r) in *. clearbody l. clearbody q.
  unfold binary_round_aux.
  unfold shr_fexp at 1. std_Z. rewrite fexp_eq.
  pose proof (Zdigits2_le q 53 ltac:(lia) Hq) as Hd.
  assert (Hd0 : 0 <= Zdigits2 q) by (destruct q; simpl; lia).
  rewrite shr_nonpos by lia.
  rewrite shr_m_of_loc, loc_of_shr_record_of_loc.
  pose proof (round_nearest_even_range q l) as Hrne.
  set (m2 := round_nearest_even q l) in *.
  destruct (renormalize_gen sx m2 (-1074) ltac:(lia) ltac:(lia))
    as (m' & e' & Hre & Hm' & He' & Hv).
  std_Z. rewrite Hre. exists m', e'.
  split; [reflexivity|]. split; [exact Hm'|]. split; [lia|].
  replace (e' + 1074) with (e' - -1074) by lia. rewrite Hv.
  split; [lia|].
  intros Hlt. specialize (Hup Hlt).
  destruct (Z.eq_dec m' 0) as [E|]; [|lia]. rewrite E in Hv. simpl in Hv. lia.
Qed.

Lemma true_divide_ceil_subnormal (a b : Z) :
  0 < a -> b <> 0 -> b < a * 2 ^ 1075 ->
  Zdigits2 a + 1022 <= Zdigits2 (Z.abs b) ->
  (q <- Float.int_true_divide a b ;; Float.ceil q) = Ok (Float.ceil_div a b).
Proof.
  intros Ha Hb0 Hlt Hd.
  assert (HW : 0 < W) by apply W_pos.
  assert (H53 : 2 ^ 53 < W) by (unfold W; apply Z.pow_lt_mono_r; lia).
  destruct a as [|pa|pa]; try lia.
  assert (Hab : Z.pos pa < Z.abs b).
  { pose proof (Zdigits2_bounds (Z.pos pa) ltac:(lia)) as [_ A].
    pose proof (Zdigits2_bounds (Z.abs b) ltac:(lia)) as [B _].
    assert (2 ^ Zdigits2 (Z.pos pa) <= 2 ^ (Zdigits2 (Z.abs b) - 1))
      by (apply Z.pow_le_mono_r; [lia|];
          assert (0 < Zdigits2 (Z.pos pa)) by (simpl; lia); lia).
    lia. }
  assert (Hround : forall sx pb, Z.abs b = Z.pos pb ->
            exists f m2,
              (let '(mz, ez, lz) :=
                 SFdiv_core_binary Float.prec Float.emax (Z.pos pa) 0 (Z.pos pb) 0 in
               binary_round_aux Float.prec Float.emax sx mz ez lz) = f /\
              (forall s, f <> S754_infinity s) /\
              Float.ceil f = Ok (Float.ceil_div (cond_Zopp sx m2) W) /\
              0 <= m2 <= 2 ^ 53 /\
              (Z.pos pb < Z.pos pa * 2 ^ 1075 -> 0 < m2)).
  { intros sx pb Hpb. rewrite Hpb in Hd.
    destruct (div_rounded_subnormal sx pa pb Hd)
      as (m & e & Hre & Hm & He & Hv & Hnz).
    exists (pack sx m e), (m * 2 ^ (e + 1074)).
    destruct (pack_finite sx m e (-1073) Hm ltac:(lia) ltac:(lia)) as [Hfin Hsc].
    split; [exact Hre|]. split.
    { intros s. destruct Hfin as [[s0 ->]|(s0 & m0 & e0 & -> & _)]; discriminate. }
    split; [rewrite (ceil_finite _ _ Hfin), Hsc; reflexivity|].
    pose proof (pow2_pos (e + 1074) ltac:(lia)) as Hp.
    split; [split; [apply Z.mul_nonneg_nonneg; lia | exact Hv]|].
    intros H. apply Z.mul_pos_pos; [exact (Hnz H) | exact Hp]. }
  destruct b as [|pb|pb]; try lia.
  - destruct (Hround false pb eq_refl) as (f & m2 & Hf & Hfin & Hceil & Hm2 & Hnz).
    unfold Float.int_true_divide.
    change (Z.pos pa <? 0) with false. change (Z.pos pb <? 0) with false.
    change (Z.to_pos (Z.abs (Z.pos pa))) with pa.
    change (Z.to_pos (Z.abs (Z.pos pb))) with pb.
    unfold SFdiv. cbn [xorb]. rewrite Hf.
    cbv iota.
    transitivity (Float.ceil f);
      [destruct f; try reflexivity; exfalso; eapply Hfin; reflexivity|].
    rewrite Hceil. f_equal. cbn [cond_Zopp].
    specialize (Hnz Hlt).
    rewrite (ceil_div_unique m2 W 1) by lia.
    symmetry. apply ceil_div_unique; simpl in Hab; lia.
  - destruct (Hround true pb eq_refl) as (f & m2 & Hf & Hfin & Hceil & Hm2 & _).
    unfold Float.int_true_divide.
    change (Z.pos pa <? 0) with false. change (Z.neg pb <? 0) with true.
    change (Z.to_pos (Z.abs (Z.pos pa))) with pa.
    change (Z.to_pos (Z.abs (Z.neg pb))) with pb.
    unfold SFdiv. cbn [xorb]. rewrite Hf.
    cbv iota.
    transitivity (Float.ceil f);
      [destruct f; try reflexivity; exfalso; eapply Hfin; reflexivity|].
    rewrite Hceil. f_equal. cbn [cond_Zopp].
    unfold Float.ceil_div. rewrite Z.opp_involutive.
    rewrite (Z.div_small m2 W) by lia.
    change (Z.neg pb) with (- Z.pos pb). rewrite Z.div_opp_opp by lia.
    simpl in Hab. now rewrite Z.div_small by lia.
Qed.

(** the side of the midpoint decides the rounding *)
Lemma round_by_remainder (b r q : Z) :
  0 <= r < b ->
  (2 * r < b -> round_nearest_even q (new_location b r) = q) /\
  (b < 2 * r -> round_nearest_even q (new_location b r) = q + 1).
Proof.
  intros Hr. split.
  - intros Hlt. unfold new_location, new_location_even, new_location_odd. std_Z.
    destruct (Z.even b); cbv beta; destruct (Z.eqb_spec r 0) as [|_]; try reflexivity.
    + now rewrite (proj2 (Z.compare_lt_iff (2 * r) b)) by lia.
    + destruct (Z.compare_spec (2 * r + 1) b); try reflexivity. lia.
  - intros Hgt. rewrite new_location_above by lia. reflexivity.
Qed.

(** the quotient of 2^53 by a divisor that leaves it in the normal range *)
Lemma div_core_top (pb : positive) :
  Z.pos (digits2_pos pb) <= 1075 ->
  let s := Z.pos (digits2_pos pb) - 1 in
  SFdiv_core_binary Float.prec Float.emax (2 ^ 53) 0 (Z.pos pb) 0
  = (2 ^ 53 * 2 ^ s / Z.pos pb, - s,
     new_location (Z.pos pb) ((2 ^ 53 * 2 ^ s) mod Z.pos pb)) /\
  0 <= s <= 1074 /\ 2 ^ s <= Z.pos pb < 2 * 2 ^ s /\
  2 ^ 52 <= 2 ^ 53 * 2 ^ s / Z.pos pb <= 2 ^ 53.
Proof.
  intros Hb s.
  pose proof (digits2_pos_bounds pb) as [Blo Bhi].
  set (d2 := Z.pos (digits2_pos pb)) in *.
  assert (Hd2 : 1 <= d2) by (subst d2; lia).
  assert (Hs : 0 <= s <= 1074) by (subst s; lia).
  assert (HD2 : 2 ^ d2 = 2 * 2 ^ s).
  { subst s. rewrite <- Z.pow_succ_r by lia. f_equal. lia. }
  assert (HS : 0 < 2 ^ s) by (apply Z.pow_pos_nonneg; lia).
  fold s in Blo. rewrite HD2 in Bhi.
  split; [|split; [exact Hs|split; [lia|]]].
  - unfold SFdiv_core_binary. std_Z.
    change (Zdigits2 (2 ^ 53)) with 54. change (Zdigits2 (Z.pos pb)) with d2.
    rewrite fexp_normal by lia.
    replace (Z.min (54 + 0 - (d2 + 0) - 53) (0 - 0)) with (- s) by (subst s; lia).
    replace (0 - 0 - - s) with s by lia.
    assert (Hm : match s with
                 | 0 => 2 ^ 53
                 | Z.pos _ => Z.shiftl (2 ^ 53) s
                 | Z.neg _ => 0
                 end = 2 ^ 53 * 2 ^ s).
    { rewrite <- Z.shiftl_mul_pow2 by lia.
      destruct s; try lia; reflexivity. }
    rewrite Hm.
    unfold Z.div, Z.modulo.
    destruct (Z.div_eucl (2 ^ 53 * 2 ^ s) (Z.pos pb)) as [q r]. reflexivity.
  - split.
    + apply Z.div_le_lower_bound; [lia|]. change (2 ^ 53) with (2 ^ 52 * 2). lia.
    + apply Z.div_le_upper_bound; [lia|].
      rewrite (Z.mul_comm (Z.pos pb)). apply Z.mul_le_mono_nonneg_l; lia.
Qed.

(** the correctly rounded quotient of 2^53 by a positive integer, as mantissa
    and exponent, with the unit interval it stays in *)
Lemma div_rounded_top (sx : bool) (pb : positive) :
  Z.pos (digits2_pos pb) <= 1075 ->
  let T := Z.pos (digits2_pos pb) in
  exists m e,
    (let '(mz, ez, lz) :=
       SFdiv_core_binary Float.prec Float.emax (2 ^ 53) 0 (Z.pos pb) 0 in
     binary_round_aux Float.prec Float.emax sx mz ez lz)
    = S754_finite sx (Z.to_pos m) e /\
    0 < m < 2 ^ 53 /\ 0 < T /\ 0 <= e + T <= 3 /\
    (Float.ceil_div (2 ^ 53) (Z.pos pb) - 1) * 2 ^ T < m * 2 ^ (e + T)
      <= Float.ceil_div (2 ^ 53) (Z.pos pb) * 2 ^ T /\
    (2 ^ 53 / Z.pos pb) * 2 ^ T <= m * 2 ^ (e + T)
      < (2 ^ 53 / Z.pos pb + 1) * 2 ^ T.
Proof.
  intros Hb T.
  destruct (div_core_top pb Hb) as (Hcore & Hs & Hpb & Hq).
  rewrite Hcore. clear Hcore.
  set (s := Z.pos (digits2_pos pb) - 1) in *.
  assert (HT : T = s + 1) by (subst T s; lia).
  set (a := 2 ^ 53) in *.
  assert (Ha : a = 2 ^ 53) by reflexivity.
  set (q := a * 2 ^ s / Z.pos pb) in *.
  set (r := (a * 2 ^ s) mod Z.pos pb) in *.
  assert (Heq : a * 2 ^ s = Z.pos pb * q + r) by (apply Z.div_mod; lia).
  assert (Hr : 0 <= r < Z.pos pb) by (apply Z.mod_pos_bound; lia).
  pose proof (ceil_div_spec a (Z.pos pb) ltac:(lia)) as HK.
  assert (HF : a / Z.pos pb * Z.pos pb <= a < (a / Z.pos pb + 1) * Z.pos pb).
  { pose proof (Z.div_mod a (Z.pos pb) ltac:(lia)).
    pose proof (Z.mod_pos_bound a (Z.pos pb) ltac:(lia)). lia. }
  set (K := Float.ceil_div a (Z.pos pb)) in *.
  set (F := a / Z.pos pb) in *.
  assert (HS : 0 < 2 ^ s) by (apply Z.pow_pos_nonneg; lia).
  assert (HTT : 2 ^ T = 2 * 2 ^ s).
  { rewrite HT. replace (s + 1) with (Z.succ s) by lia.
    now rewrite Z.pow_succ_r by lia. }
  destruct (round_by_remainder (Z.pos pb) r q Hr) as [Hdown Hup].
  pose proof (round_nearest_even_range q (new_location (Z.pos pb) r)) as Hrne.
  (* the products that compare the quotient with the two windows *)
  assert (PK1 : (K - 1) * Z.pos pb * 2 ^ s + 2 ^ s <= a * 2 ^ s).
  { assert (((K - 1) * Z.pos pb + 1) * 2 ^ s <= a * 2 ^ s)
      by (apply Z.mul_le_mono_nonneg_r; lia).
    lia. }
  assert (PK2 : a * 2 ^ s <= K * Z.pos pb * 2 ^ s)
    by (apply Z.mul_le_mono_nonneg_r; lia).
  assert (PF1 : F * Z.pos pb * 2 ^ s <= a * 2 ^ s)
    by (apply Z.mul_le_mono_nonneg_r; lia).
  assert (PF2 : a * 2 ^ s + 2 ^ s <= (F + 1) * Z.pos pb * 2 ^ s).
  { assert ((a + 1) * 2 ^ s <= (F + 1) * Z.pos pb * 2 ^ s)
      by (apply Z.mul_le_mono_nonneg_r; lia).
    lia. }
  set (S := 2 ^ s) in *.
  set (b := Z.pos pb) in *.
  assert (Hb0 : 0 < b) by (subst b; lia).
  pose proof (new_location_exact b r Hb0 Hr) as [Hl0 _].
  set (l := new_location b r) in *.
  set (m2 := round_nearest_even q l) in *.
  assert (Hwin : (K - 1) * S < m2 <= K * S /\ F * S <= m2 < (F + 1) * S).
  { clearbody K F S l q. clear Ha.
    assert (QK : q <= K * S).
    { apply (Z.mul_le_mono_pos_l _ _ b Hb0). lia. }
    assert (QF : F * S <= q).
    { destruct (Z.le_gt_cases (F * S) q) as [|Hlt]; [assumption|exfalso].
      assert (b * (q + 1) <= b * (F * S)) by (apply Z.mul_le_mono_nonneg_l; lia).
      lia. }
    assert (QF2 : q < (F + 1) * S).
    { destruct (Z.lt_ge_cases q ((F + 1) * S)) as [|Hge]; [assumption|exfalso].
      assert (b * ((F + 1) * S) <= b * q) by (apply Z.mul_le_mono_nonneg_l; lia).
      lia. }
    assert (QK1 : (K - 1) * S <= q).
    { destruct (Z.le_gt_cases ((K - 1) * S) q) as [|Hlt]; [assumption|exfalso].
      assert (b * (q + 1) <= b * ((K - 1) * S)) by (apply Z.mul_le_mono_nonneg_l; lia).
      lia. }
    repeat split.
    - destruct (Z.eq_dec q ((K - 1) * S)) as [E|]; [|lia].
      assert (S <= r) by (rewrite E in Heq; lia).
      rewrite Hup in * by lia. lia.
    - destruct (Z.eq_dec q (K * S)) as [E|]; [|lia].
      assert (r = 0) by (rewrite E in Heq; lia).
      rewrite Hdown in * by lia. lia.
    - lia.
    - destruct (Z.eq_dec q ((F + 1) * S - 1)) as [E|]; [|lia].
      assert (r + S <= b) by (rewrite E in Heq; lia).
      rewrite Hdown in * by lia. lia. }
  clearbody l.
  destruct (Z.ltb_spec q (2 ^ 53)) as [Hq53|Hq54].
  - rewrite round_aux_53 by lia. cbv zeta. fold m2.
    destruct (Z.ltb_spec m2 (2 ^ 53)) as [Hm|Hm].
    + exists m2, (- s).
      replace (- s + T) with 1 by lia. change (2 ^ 1) with 2. rewrite HTT.
      repeat split; try lia.
    + exists (2 ^ 52), (- s + 1).
      replace (- s + 1 + T) with 2 by lia.
      assert (m2 = 2 ^ 53) by lia. change (2 ^ 52 * 2 ^ 2) with (2 * 2 ^ 53).
      rewrite HTT. repeat split; try lia.
  - assert (Eq : q = 2 ^ 53) by lia.
    assert (Er : r = 0).
    { rewrite Eq, <- Ha in Heq.
      assert (a * S <= a * b) by (apply Z.mul_le_mono_nonneg_l; lia).
      lia. }
    rewrite round_aux_54 by lia. cbv zeta.
    destruct (shr_1_loc q l ltac:(lia)) as (L1 & _ & _ & _).
    rewrite (L1 ltac:(rewrite Eq; reflexivity) (Hl0 Er)).
    cbn [round_nearest_even].
    assert (Hhalf : q / 2 = 2 ^ 52) by (rewrite Eq; reflexivity).
    rewrite Hhalf. change (2 ^ 52 <? 2 ^ 53) with true. cbv iota.
    exists (2 ^ 52), (- s + 1).
    replace (- s + 1 + T) with 2 by lia. change (2 ^ 52 * 2 ^ 2) with (2 * 2 ^ 53).
    assert (Hm2 : m2 = 2 ^ 53).
    { subst m2. rewrite (Hl0 Er). cbn [round_nearest_even]. exact Eq. }
    rewrite HTT. repeat split; try lia.
Qed.

(** ceil(2^53 / b) in binary64 is the exact ceiling when the quotient is in
    the normal range *)
Lemma true_divide_ceil_top (b : Z) :
  b <> 0 -> Zdigits2 (Z.abs b) <= 1075 ->
  (q <- Float.int_true_divide (2 ^ 53) b ;; Float.ceil q)
  = Ok (Float.ceil_div (2 ^ 53) b).
Proof.
  intros Hb0 Hd.
  destruct b as [|pb|pb]; try lia.
  - unfold Float.int_true_divide.
    change (2 ^ 53 <? 0) with false. change (Z.pos pb <? 0) with false.
    change (Z.to_pos (Z.abs (Z.pos pb))) with pb.
    unfold SFdiv. cbn [xorb].
    change (Z.pos (Z.to_pos (Z.abs (2 ^ 53)))) with (2 ^ 53).
    destruct (div_rounded_top false pb Hd)
      as (m & e & Hr & Hm & HT & Hes & Hc & _).
    rewrite Hr. change (2 ^ 53) with 9007199254740992 at 1. cbv iota.
    cbn [bind]. rewrite (ceil_scaled m e (Z.pos (digits2_pos pb))) by lia. f_equal.
    apply ceil_div_unique; [apply Z.pow_pos_nonneg|]; lia.
  - unfold Float.int_true_divide.
    change (2 ^ 53 <? 0) with false. change (Z.neg pb <? 0) with true.
    change (Z.to_pos (Z.abs (Z.neg pb))) with pb.
    unfold SFdiv. cbn [xorb].
    change (Z.pos (Z.to_pos (Z.abs (2 ^ 53)))) with (2 ^ 53).
    destruct (div_rounded_top true pb Hd)
      as (m & e & Hr & Hm & HT & Hes & _ & Hf).
    rewrite Hr. change (2 ^ 53) with 9007199254740992 at 1. cbv iota.
    set (T := Z.pos (digits2_pos pb)) in *.
    cbn [bind]. rewrite (ceil_scaled_neg m e T) by lia. f_equal.
    unfold Float.ceil_div. f_equal.
    assert (HS : 0 < 2 ^ T) by (apply Z.pow_pos_nonneg; lia).
    replace (- 2 ^ 53 / Z.neg pb) with (2 ^ 53 / Z.pos pb).
    + symmetry. apply Z.div_unique with (m * 2 ^ (e + T) - 2 ^ 53 / Z.pos pb * 2 ^ T); lia.
    + change (Z.neg pb) with (- Z.pos pb). now rewrite Z.div_opp_opp by lia.
Qed.

(** ceil(a / b) in binary64 is the exact ceiling for 0 < a <= 2^53 and every
    divisor that does not make the quotient vanish *)
Lemma true_divide_ceil_wide (a b : Z) :
  0 < a <= 2 ^ 53 -> b <> 0 -> b < a * 2 ^ 1075 ->
  (q <- Float.int_true_divide a b ;; Float.ceil q) = Ok (Float.ceil_div a b).
Proof.
  intros Ha Hb0 Hlt.
  destruct (Z.le_gt_cases (Zdigits2 (Z.abs b)) (Zdigits2 a + 1021)) as [Hd|Hd].
  - destruct (Z.eq_dec a (2 ^ 53)) as [->|Hne].
    + now apply true_divide_ceil_top.
    + apply true_divide_ceil_normal; try assumption. lia.
  - apply true_divide_ceil_subnormal; try assumption; lia.
Qed.

Lemma Zdigits2_mono (a b : Z) : 0 < a <= b -> Zdigits2 a <= Zdigits2 b.
Proof.
  intros H. pose proof (Zdigits2_bounds a ltac:(lia)) as [Alo _].
  pose proof (Zdigits2_bounds b ltac:(lia)) as [_ Bhi].
  destruct (Z.leb_spec (Zdigits2 a) (Zdigits2 b)); [assumption|].
  assert (2 ^ Zdigits2 b <= 2 ^ (Zdigits2 a - 1)); [|lia].
  apply Z.pow_le_mono_r; [lia|].
  assert (0 <= Zdigits2 b) by (destruct b; simpl; lia). lia.
Qed.

(** Rounding a signed difference [dm * 2^ez]. *)
Lemma normalize_error (dm ez B : Z) :
  -1074 <= ez -> Zdigits2 (Z.abs dm) + ez - 53 <= B -> -1074 <= B -> B + 1 <= 971 ->
  let R := binary_normalize Float.prec Float.emax dm ez false in
  let D := dm * 2 ^ (ez + 1074) in
  finite_float (B + 1) R /\
  2 ^ 52 * Z.abs (scaled R - D) <= Z.abs D + 2 ^ 52 /\
  (0 <= D -> 0 <= scaled R) /\ (D <= 0 -> scaled R <= 0) /\
  (0 < D -> forall j N, 0 <= j -> D < 2 ^ (53 + j) -> (2 ^ j | N) -> D <= N ->
            scaled R <= N).
Proof.
  intros Hez Hd HB HB1 R D.
  pose proof (pow2_pos (ez + 1074) ltac:(lia)) as HU.
  destruct dm as [|p|p].
  - subst R D. cbn [binary_normalize scaled]. rewrite Z.mul_0_l. cbn.
    split; [left; eauto|]. repeat split; try lia.
  - subst R. cbn [binary_normalize].
    destruct (binary_round_error false p ez 1074 ltac:(lia) ltac:(lia))
      as (m' & e' & -> & Hb & He' & Herr & Hup & _).
    cbv zeta in *. cbn [Z.abs] in Hd.
    set (f := Z.max (Zdigits2 (Z.pos p) + ez - 53) (-1074)) in *.
    assert (Hf : -1074 <= f <= B) by (subst f; lia).
    destruct (pack_finite false m' e' (B + 1) Hb ltac:(lia) ltac:(lia)) as [Hfin Hsc].
    rewrite Hsc. cbn [cond_Zopp]. fold D in Herr, Hup.
    change (2 ^ (1074 - 1074)) with 1 in Herr.
    assert (HD : 0 < D) by (subst D; lia).
    split; [exact Hfin|]. split; [rewrite (Z.abs_eq D) by lia; lia|].
    pose proof (pow2_pos (e' + 1074) ltac:(lia)).
    split; [nia|]. split; [lia|].
    intros _ j N Hj HDj [c Hc] HN. apply (Hup N HN).
    assert (Hfj : f + 1074 <= j).
    { assert (Zdigits2 D <= 53 + j) by (apply Zdigits2_le; lia).
      assert (Zdigits2 D = Zdigits2 (Z.pos p) + (ez + 1074))
        by (subst D; apply Zdigits2_shift; lia).
      subst f. lia. }
    exists (c * 2 ^ (j - (f + 1074))).
    rewrite <- Z.mul_assoc, <- pow2_split by lia. rewrite Hc. do 2 f_equal. lia.
  - subst R. cbn [binary_normalize].
    destruct (binary_round_error true p ez 1074 ltac:(lia) ltac:(lia))
      as (m' & e' & -> & Hb & He' & Herr & _ & _).
    cbv zeta in *. cbn [Z.abs] in Hd.
    set (f := Z.max (Zdigits2 (Z.pos p) + ez - 53) (-1074)) in *.
    assert (Hf : -1074 <= f <= B) by (subst f; lia).
    destruct (pack_finite true m' e' (B + 1) Hb ltac:(lia) ltac:(lia)) as [Hfin Hsc].
    rewrite Hsc. cbn [cond_Zopp].
    change (2 ^ (1074 - 1074)) with 1 in Herr.
    assert (HD : D = - (Z.pos p * 2 ^ (ez + 1074))) by (subst D; lia).
    assert (HD0 : D < 0) by lia.
    split; [exact Hfin|].
    pose proof (pow2_pos (e' + 1074) ltac:(lia)).
    split; [|split; [lia|split; [nia|lia]]].
    rewrite HD. rewrite Z.abs_opp.
    replace (- (m' * 2 ^ (e' + 1074)) - - (Z.pos p * 2 ^ (ez + 1074)))
      with (- (m' * 2 ^ (e' + 1074) - Z.pos p * 2 ^ (ez + 1074))) by ring.
    rewrite Z.abs_opp. rewrite (Z.abs_eq (Z.pos p * _)) by lia. lia.
Qed.

(** The difference of two nonnegative floats. *)
Lemma sub_error (Bx By : Z) (x y : spec_float) :
  nonneg_float Bx x -> nonneg_float By y ->
  -1074 <= Z.max Bx By -> Z.max Bx By + 1 <= 971 ->
  let R := Float.sub x y in
  let D := scaled x - scaled y in
  finite_float (Z.max Bx By + 1) R /\
  2 ^ 52 * Z.abs (scaled R - D) <= Z.abs D + 2 ^ 52 /\
  (0 <= D -> 0 <= scaled R) /\ (D <= 0 -> scaled R <= 0) /\
  (0 < D -> forall j N, 0 <= j -> D < 2 ^ (53 + j) -> (2 ^ j | N) -> D <= N ->
            scaled R <= N).
Proof.
  intros Hx Hy HB HB1 R D.
  destruct Hx as [->|(mx & ex & -> & Hmx & Hex)];
    destruct Hy as [->|(my & ey & -> & Hmy & Hey)]; subst R D;
    cbn [Float.sub SFsub scaled cond_Zopp negb].
  - split; [left; eauto|]. cbn. repeat split; lia.
  - pose proof (pow2_pos (ey + 1074) ltac:(lia)).
    split; [right; exists true, my, ey; split; [reflexivity|lia]|].
    replace (- (Z.pos my * 2 ^ (ey + 1074)) - (0 - Z.pos my * 2 ^ (ey + 1074)))
      with 0 by ring.
    cbn [Z.abs]. repeat split; try lia.
  - pose proof (pow2_pos (ex + 1074) ltac:(lia)).
    split; [right; exists false, mx, ex; split; [reflexivity|lia]|].
    replace (Z.pos mx * 2 ^ (ex + 1074) - (Z.pos mx * 2 ^ (ex + 1074) - 0))
      with 0 by ring.
    cbn [Z.abs]. repeat split; try lia.
  - std_Z.
    pose proof (shl_align_spec mx ex (Z.min ex ey)) as Hsx.
    pose proof (shl_align_spec my ey (Z.min ex ey)) as Hsy.
    destruct (shl_align mx ex (Z.min ex ey)) as [mx' ex'].
    destruct (shl_align my ey (Z.min ex ey)) as [my' ey'].
    destruct Hsx as [Hex' Hmx']. destruct Hsy as [Hey' Hmy'].
    cbn [fst].
    set (ez := Z.min ex ey) in *.
    assert (Ex : ex' = ez) by lia. assert (Ey : ey' = ez) by lia.
    rewrite Ex, Ey in *. clear Hex' Hey' Ex Ey.
    set (dm := Z.pos mx' - Z.pos my').
    assert (HD : Z.pos mx * 2 ^ (ex + 1074) - Z.pos my * 2 ^ (ey + 1074)
                 = dm * 2 ^ (ez + 1074)).
    { subst dm. rewrite Hmx', Hmy', Z.mul_sub_distr_r.
      rewrite <- !Z.mul_assoc, <- !pow2_split by lia.
      do 2 f_equal; f_equal; lia. }
    rewrite HD.
    apply normalize_error; try lia.
    assert (Hdm : Z.abs dm < 2 ^ (53 + Z.max ex ey - ez)).
    { assert (Z.pos mx' < 2 ^ (53 + ex - ez)).
      { rewrite Hmx'. replace (53 + ex - ez) with (53 + (ex - ez)) by lia.
        rewrite pow2_split by lia. apply Zmult_lt_compat_r; [apply pow2_pos|]; lia. }
      assert (Z.pos my' < 2 ^ (53 + ey - ez)).
      { rewrite Hmy'. replace (53 + ey - ez) with (53 + (ey - ez)) by lia.
        rewrite pow2_split by lia. apply Zmult_lt_compat_r; [apply pow2_pos|]; lia. }
      assert (2 ^ (53 + ex - ez) <= 2 ^ (53 + Z.max ex ey - ez))
        by (apply Z.pow_le_mono_r; lia).
      assert (2 ^ (53 + ey - ez) <= 2 ^ (53 + Z.max ex ey - ez))
        by (apply Z.pow_le_mono_r; lia).
      subst dm. lia. }
    assert (Zdigits2 (Z.abs dm) <= 53 + Z.max ex ey - ez).
    { apply Zdigits2_le; lia. }
    lia.
Qed.

(** The quotient of two positive integers, the dividend not above the
    divisor: within a relative 2^-51 of the exact quotient. *)
Lemma div_error (o T : Z) :
  0 < o <= T -> T < 2 ^ 53 ->
  exists q, Float.int_true_divide o T = Ok q /\ nonneg_float 0 q /\
            2 ^ 51 * Z.abs (T * scaled q - o * W) <= o * W.
Proof.
  intros Ho HT.
  destruct o as [|pa|pa]; try lia. destruct T as [|pb|pb]; try lia.
  unfold Float.int_true_divide.
  change (Z.pos pa <? 0) with false. change (Z.pos pb <? 0) with false.
  change (Z.to_pos (Z.abs (Z.pos pa))) with pa.
  change (Z.to_pos (Z.abs (Z.pos pb))) with pb.
  unfold SFdiv. cbn [xorb].
  destruct (div_rounded false pa pb)
    as (m & e & s & -> & Hm & Hs & Hes & _ & _ & Herr & Hbig); try lia.
  assert (Hs52 : 52 <= s).
  { destruct (Z.leb_spec 52 s) as [|Hlt]; [assumption|exfalso].
    assert (2 ^ s <= 2 ^ 51) by (apply Z.pow_le_mono_r; lia).
    assert (Z.pos pa * 2 ^ s <= Z.pos pb * 2 ^ 51).
    { transitivity (Z.pos pb * 2 ^ s).
      - apply Z.mul_le_mono_nonneg_r; [apply Z.pow_nonneg|]; lia.
      - apply Z.mul_le_mono_nonneg_l; lia. }
    lia. }
  exists (S754_finite false (Z.to_pos m) e). split; [reflexivity|]. split.
  - right. exists (Z.to_pos m), e. rewrite Z2Pos.id by lia. repeat split; lia.
  - cbn [scaled cond_Zopp]. rewrite Z2Pos.id by lia.
    set (V := m * 2 ^ (e + s)) in *.
    set (G := 2 ^ (1074 - s)).
    assert (HG : 0 < G) by (apply pow2_pos; lia).
    assert (HW : W = 2 ^ s * G).
    { unfold W, G. rewrite <- pow2_split by lia. f_equal. lia. }
    assert (HV : m * 2 ^ (e + 1074) = V * G).
    { unfold V, G. rewrite <- Z.mul_assoc, <- pow2_split by lia. do 2 f_equal. lia. }
    rewrite HV, HW.
    replace (Z.pos pb * (V * G) - Z.pos pa * (2 ^ s * G))
      with ((Z.pos pb * V - Z.pos pa * 2 ^ s) * G) by ring.
    rewrite Z.abs_mul, (Z.abs_eq G) by lia.
    assert (Z.abs (Z.pos pb * V - Z.pos pa * 2 ^ s) * G <= 2 * Z.pos pb * G)
      by (apply Z.mul_le_mono_nonneg_r; lia).
    assert (2 ^ 52 * Z.pos pb * G <= Z.pos pa * 2 ^ s * G)
      by (apply Z.mul_le_mono_nonneg_r; lia).
    lia.
Qed.

Lemma div_error_zero (T : Z) :
  0 < T ->
  Float.int_true_divide 0 T = Ok (S754_zero false).
Proof.
  intros HT. unfold Float.int_true_divide. destruct T; try lia. reflexivity.
Qed.

(** The quotient [o / T] for [0 <= o <= T]. *)
Lemma div_share (o T : Z) :
  0 <= o <= T -> 0 < T < 2 ^ 53 ->
  exists q, Float.int_true_divide o T = Ok q /\ nonneg_float 0 q /\
            2 ^ 51 * Z.abs (T * scaled q - o * W) <= o * W.
Proof.
  intros Ho HT. destruct (Z.eq_dec o 0) as [->|Hnz].
  - exists (S754_zero false). split; [apply div_error_zero; lia|].
    split; [now left|]. cbn [scaled]. rewrite Z.mul_0_r. cbn. lia.
  - apply div_error; lia.
Qed.

Lemma scale_abs (c k x y b : Z) :
  0 <= k -> c * Z.abs (x - y) <= b -> c * Z.abs (k * x - k * y) <= k * b.
Proof.
  intros Hk H. rewrite <- Z.mul_sub_distr_l, Z.abs_mul, (Z.abs_eq k) by lia.
  replace (c * (k * Z.abs (x - y))) with (k * (c * Z.abs (x - y))) by ring.
  apply Z.mul_le_mono_nonneg_l; assumption.
Qed.

(** One tentative release, for quantities up to 2^48: it is defined, lies
    between 0 and the order, and is at most [o / 2^49] below the exact share
    [o * (T - sh) / T]. *)
Lemma tentative_bounds (o sh T : Z) :
  0 <= o <= T -> 0 <= sh <= T -> 0 < T <= 2 ^ 48 ->
  exists t, Fractional.tentative o sh T = Ok t /\ 0 <= t <= o /\
            2 ^ 49 * (o * (T - sh)) - o * T <= 2 ^ 49 * (T * t).
Proof.
  intros Ho Hsh HT. pose proof W_pos as HW.
  assert (HW60 : 2 ^ 60 <= W) by (unfold W; apply Z.pow_le_mono_r; lia).
  destruct (div_share o T ltac:(lia) ltac:(lia)) as (q & Hq & Hnq & Eq).
  destruct (of_int_exact sh ltac:(lia)) as (s & Hs & Hns & Es).
  destruct (of_int_exact o ltac:(lia)) as (fo & Hfo & Hno & Eo).
  unfold Fractional.tentative. rewrite Hq, Hs, Hfo. cbn [bind].
  destruct (mul_error 1 0 s q Hns Hnq ltac:(lia) ltac:(lia) ltac:(lia))
    as [Hnp Ep].
  destruct (sub_error 1 55 fo (Float.mul s q) Hno Hnp ltac:(lia) ltac:(lia))
    as (Hfin & Er & _ & Hneg & Hgrid).
  rewrite (ceil_finite _ _ Hfin).
  pose proof (ceil_div_spec (scaled (Float.sub fo (Float.mul s q))) W HW) as Ht.
  set (t := Float.ceil_div (scaled (Float.sub fo (Float.mul s q))) W) in *.
  pose proof (nonneg_scaled _ _ Hnq) as HQ0.
  pose proof (nonneg_scaled _ _ Hnp) as HP0.
  set (Q := scaled q) in *. set (P := scaled (Float.mul s q)) in *.
  set (R := scaled (Float.sub fo (Float.mul s q))) in *.
  clearbody t Q P R. rewrite Es, Eo in *. clear Es Eo.
  exists t. split; [reflexivity|].
  (* the product, in units of 2^-1074 *)
  assert (Ep' : 2 ^ 52 * Z.abs (P - sh * Q) <= sh * Q + 2 ^ 52).
  { apply (Z.mul_le_mono_pos_l _ _ W HW).
    replace (W * (2 ^ 52 * Z.abs (P - sh * Q)))
      with (2 ^ 52 * Z.abs (P * W - sh * W * Q)).
    - lia.
    - replace (P * W - sh * W * Q) with ((P - sh * Q) * W) by ring.
      rewrite Z.abs_mul, (Z.abs_eq W) by lia. ring. }
  clear Ep.
  assert (HoW : 0 <= o * W) by (apply Z.mul_nonneg_nonneg; lia).
  assert (HoW48 : o * W <= 2 ^ 48 * W) by (apply Z.mul_le_mono_nonneg_r; lia).
  assert (HshQ : 0 <= sh * Q <= T * Q).
  { split; [apply Z.mul_nonneg_nonneg; lia|apply Z.mul_le_mono_nonneg_r; lia]. }
  assert (HR : 2 ^ 52 * R >= (2 ^ 52 - 1) * (o * W) - (2 ^ 52 + 1) * P - 2 ^ 52) by lia.
  split; [split|].
  - (* nonnegative *)
    assert (- W < R) by lia.
    assert ((t - 1) * W < t * W) by lia.
    assert (- 1 * W < t * W) by lia.
    assert (- 1 < t) by (apply (Zmult_lt_reg_r _ _ W); lia).
    lia.
  - (* at most the order *)
    assert (HRo : R <= o * W).
    { destruct (Z.le_gt_cases (o * W - P) 0) as [Hd|Hd].
      - pose proof (Hneg Hd). lia.
      - apply (Hgrid Hd 1074); try lia.
        + change (2 ^ (53 + 1074)) with (2 ^ 53 * W).
          assert (o * W < 2 ^ 53 * W) by (apply Zmult_lt_compat_r; lia). lia.
        + exists o. reflexivity. }
    assert ((t - 1) * W < o * W) by lia.
    assert (t - 1 < o) by (apply (Zmult_lt_reg_r _ _ W); lia).
    lia.
  - (* close to the exact share *)
    pose proof (scale_abs _ sh _ _ _ ltac:(lia) Eq) as E1.
    pose proof (scale_abs _ T _ _ _ ltac:(lia) Ep') as E2.
    assert (E3 : T * (2 ^ 52 * R) >= T * ((2 ^ 52 - 1) * (o * W) - (2 ^ 52 + 1) * P - 2 ^ 52)).
    { apply Z.le_ge, Z.mul_le_mono_nonneg_l; lia. }
    assert (E4 : T * R <= T * (t * W)) by (apply Z.mul_le_mono_nonneg_l; lia).
    assert (E5 : sh * (o * W) <= T * (o * W)) by (apply Z.mul_le_mono_nonneg_r; lia).
    assert (E6 : 0 <= sh * (o * W)) by (apply Z.mul_nonneg_nonneg; lia).
    assert (E7 : o = 0 \/ 2 ^ 60 * T <= T * (o * W)).
    { destruct (Z.eq_dec o 0) as [|Hnz]; [now left|right].
      rewrite (Z.mul_comm (2 ^ 60)). apply Z.mul_le_mono_nonneg_l; [lia|].
      assert (1 * W <= o * W) by (apply Z.mul_le_mono_nonneg_r; lia). lia. }
    apply (Z.mul_le_mono_pos_l _ _ W HW).
    destruct E7 as [->|E7].
    + rewrite !Z.mul_0_l, Z.mul_0_r.
      assert (0 <= T * t) by (apply Z.mul_nonneg_nonneg; lia).
      assert (0 <= W * (2 ^ 49 * (T * t))) by (apply Z.mul_nonneg_nonneg; lia).
      lia.
    + set (X1 := sh * (T * Q)) in *. set (X2 := sh * (o * W)) in *.
      set (X3 := T * P) in *. set (X4 := T * (o * W)) in *.
      replace (T * (sh * Q)) with X1 in E2 by (unfold X1; ring).
      replace (T * (sh * Q + 2 ^ 52)) with (X1 + 2 ^ 52 * T) in E2 by (unfold X1; ring).
      replace (T * (2 ^ 52 * R)) with (2 ^ 52 * (T * R)) in E3 by ring.
      replace (T * ((2 ^ 52 - 1) * (o * W) - (2 ^ 52 + 1) * P - 2 ^ 52))
        with ((2 ^ 52 - 1) * X4 - (2 ^ 52 + 1) * X3 - 2 ^ 52 * T) in E3
        by (unfold X3, X4; ring).
      replace (W * (2 ^ 49 * (o * (T - sh)) - o * T))
        with (2 ^ 49 * (X4 - X2) - X4) by (unfold X2, X4; ring).
      replace (W * (2 ^ 49 * (T * t))) with (2 ^ 49 * (T * (t * W))) by ring.
      replace (sh * (T * Q)) with X1 in E1 by (unfold X1; ring).
      clearbody X1 X2 X3 X4.
      lia.
Qed.

(** ** Dictionaries with distinct keys *)

Lemma Dict_wf_NoDup (d : Dict.t) : Dict.wf d = true <-> NoDup (Dict.keys d).
Proof.
  induction d as [|[k v] d IH]; simpl.
  - split; [constructor | reflexivity].
  - rewrite andb_true_iff, negb_true_iff, IH. split.
    + intros [Hm Hd]. constructor; [|exact Hd].
      intros Hin. apply Dict_mem_keys in Hin. congruence.
    + intros H. inversion H as [|? ? Hn Hd]; subst. split; [|exact Hd].
      destruct (Dict.mem d k) eqn:E; [|reflexivity].
      exfalso. apply Hn. now apply Dict_mem_keys.
Qed.

Lemma Dict_set_fresh (d : Dict.t) (k : string) (v : Z) :
  ~ In k (Dict.keys d) -> Dict.set d k v = d ++ [(k, v)].
Proof.
  induction d as [|[k' v'] d IH]; simpl; intros Hn; [reflexivity|].
  destruct (String.eqb_spec k k') as [->|Hne]; [tauto|].
  rewrite IH by tauto. reflexivity.
Qed.

Lemma Dict_sum_app (d d' : Dict.t) : Dict.sum (d ++ d') = Dict.sum d + Dict.sum d'.
Proof.
  induction d as [|[k v] d IH]; [reflexivity|].
  simpl app. rewrite !Dict_sum_cons, IH. lia.
Qed.

Lemma Dict_values_set (P : Z -> Prop) (d : Dict.t) (k : string) (v : Z) :
  Forall P (Dict.values d) -> P v -> Forall P (Dict.values (Dict.set d k v)).
Proof.
  intros Hd Hv. induction d as [|[k' v'] d IH]; simpl.
  - constructor; [exact Hv | constructor].
  - inversion Hd; subst. destruct (String.eqb k k'); simpl; constructor; auto.
Qed.

Lemma Dict_get_values (P : Z -> Prop) (d : Dict.t) (k : string) :
  P 0 -> Forall P (Dict.values d) -> P (Dict.get d k).
Proof.
  intros H0 Hd. induction d as [|[k' v'] d IH]; simpl; [exact H0|].
  inversion Hd; subst. destruct (String.eqb k k'); auto.
Qed.

Lemma Dict_values_get (P : Z -> Prop) (d : Dict.t) :
  NoDup (Dict.keys d) ->
  (forall k, In k (Dict.keys d) -> P (Dict.get d k)) ->
  Forall P (Dict.values d).
Proof.
  induction d as [|[k v] d IH]; simpl; intros Hnd H; constructor.
  - specialize (H k (or_introl eq_refl)). now rewrite String.eqb_refl in H.
  - inversion Hnd as [|? ? Hn Hd]; subst. apply IH; [exact Hd|].
    intros k' Hin. specialize (H k' (or_intror Hin)).
    destruct (String.eqb_spec k' k) as [E|_]; [subst k'; contradiction | exact H].
Qed.

Lemma Dict_sum_nonpos (d : Dict.t) :
  Forall (fun v => v <= 0) (Dict.values d) -> Dict.sum d <= 0.
Proof.
  induction d as [|[k v] d IH]; intros H.
  - unfold Dict.sum. simpl. lia.
  - inversion H; subst. rewrite Dict_sum_cons. specialize (IH ltac:(assumption)). lia.
Qed.

Lemma Dict_sum_nonneg (d : Dict.t) :
  Forall (fun v => 0 <= v) (Dict.values d) -> 0 <= Dict.sum d.
Proof.
  induction d as [|[k v] d IH]; intros H.
  - unfold Dict.sum. simpl. lia.
  - inversion H; subst. rewrite Dict_sum_cons. specialize (IH ltac:(assumption)). lia.
Qed.

Lemma Dict_value_le_sum (d : Dict.t) :
  Forall (fun v => 0 <= v) (Dict.values d) ->
  Forall (fun v => 0 <= v <= Dict.sum d) (Dict.values d).
Proof.
  induction d as [|[k v] d IH]; intros H; [constructor|].
  inversion H; subst. specialize (IH ltac:(assumption)).
  pose proof (Dict_sum_nonneg d ltac:(assumption)).
  simpl Dict.values. constructor.
  - rewrite Dict_sum_cons. simpl. lia.
  - eapply Forall_impl; [|exact IH]. intros a Ha. rewrite Dict_sum_cons. simpl in Ha. lia.
Qed.

(** ** The release loop on quantities up to 2^48 *)

Lemma fill_spec (sh T : Z) :
  0 <= sh <= T -> 0 < T <= 2 ^ 48 ->
  forall items acc,
    NoDup (Dict.keys acc ++ Dict.keys items) ->
    Forall (fun v => 0 <= v <= T) (Dict.values items) ->
    exists ts, Fractional.fill items sh T acc = Ok (acc ++ ts) /\
               Forall2 (share_ok sh T) items ts.
Proof.
  intros Hsh HT. induction items as [|[k o] rest IH]; intros acc Hnd Hv.
  - exists []. rewrite app_nil_r. split; [reflexivity | constructor].
  - inversion Hv as [|? ? Ho Hrest]; subst.
    destruct (tentative_bounds o sh T Ho Hsh HT) as (t & Ht & Hto & Hlow).
    cbn [Fractional.fill]. rewrite Ht. cbn [bind].
    simpl Dict.keys in Hnd.
    rewrite Dict_set_fresh.
    + destruct (IH (acc ++ [(k, t)])) as (ts & Hfill & Hts).
      * unfold Dict.keys in *. rewrite map_app, <- app_assoc. exact Hnd.
      * exact Hrest.
      * exists ((k, t) :: ts). rewrite Hfill, <- app_assoc. split; [reflexivity|].
        constructor; [|exact Hts]. repeat split; cbn [fst snd]; try reflexivity; lia.
    + apply NoDup_remove_2 in Hnd. intros Hin. apply Hnd, in_or_app. now left.
Qed.

Lemma share_sum (sh T : Z) (items ts : Dict.t) :
  Forall2 (share_ok sh T) items ts ->
  Dict.keys ts = Dict.keys items /\
  Forall (fun v => 0 <= v) (Dict.values ts) /\
  Dict.sum ts <= Dict.sum items /\
  2 ^ 49 * (Dict.sum items * (T - sh)) - Dict.sum items * T
  <= 2 ^ 49 * (T * Dict.sum ts) /\
  (forall k, Dict.get ts k <= Dict.get items k).
Proof.
  induction 1 as [|[k o] [k' t] items ts (Hk & Ht & Hlow) _ (IHk & IHv & IHs & IHl & IHg)].
  - change (Dict.sum []) with 0.
    split; [reflexivity|]. split; [constructor|]. repeat split; intros; lia.
  - cbn [fst snd] in Hk, Ht, Hlow. subst k'. rewrite !Dict_sum_cons. repeat split.
    + simpl. now rewrite IHk.
    + simpl. constructor; [lia | exact IHv].
    + lia.
    + lia.
    + intros k0. simpl. destruct (String.eqb k0 k); [lia | apply IHg].
Qed.

(** The correction loop, started at or above the stock on nonnegative
    entries, ends exactly at the stock and keeps the entries nonnegative. *)
Lemma reduce_exact (stock : Z) (fuel : nat) :
  0 <= stock ->
  forall releases,
    NoDup (Dict.keys releases) ->
    Forall (fun v => 0 <= v) (Dict.values releases) ->
    Dict.sum releases - stock <= Z.of_nat fuel ->
    exists r, Fractional.reduce fuel releases stock = Some (Ok r) /\
              Dict.sum r = Z.min (Dict.sum releases) stock /\
              Dict.keys r = Dict.keys releases /\
              forall k, 0 <= Dict.get r k <= Dict.get releases k.
Proof.
  intros Hst. induction fuel as [|fuel IH]; intros releases Hnd Hv Hfuel.
  - exists releases. simpl.
    destruct (Z.ltb_spec stock (Dict.sum releases)); [lia|].
    repeat split; try lia.
    apply (Dict_get_values (fun v => 0 <= v)); [lia | exact Hv].
  - simpl. destruct (Z.ltb_spec stock (Dict.sum releases)) as [Hlt|Hge].
    + destruct (Fractional.max_key releases) as [k|e] eqn:Hk.
      * pose proof (max_key_in _ _ Hk) as Hin.
        pose proof (max_key_ge _ _ Hk) as Hmax.
        assert (Hpos : 0 < Dict.get releases k).
        { destruct (Z.lt_ge_cases 0 (Dict.get releases k)) as [|Hle]; [assumption|].
          exfalso.
          assert (Dict.sum releases <= 0); [|lia].
          apply Dict_sum_nonpos.
          apply Dict_values_get; [exact Hnd|].
          intros k' Hk'. specialize (Hmax k' Hk'). lia. }
        assert (Hmem : Dict.mem releases k = true) by now apply Dict_mem_keys.
        destruct (IH (Dict.set releases k (Dict.get releases k - 1)))
          as (r & Hr & Hsum & Hkeys & Hget).
        -- now rewrite Dict_keys_set.
        -- apply Dict_values_set; [exact Hv | lia].
        -- rewrite reduce_step_sum by exact Hk. lia.
        -- exists r. split; [exact Hr|].
           rewrite reduce_step_sum in Hsum by exact Hk.
           rewrite Dict_keys_set in Hkeys by exact Hmem.
           repeat split; try lia; try assumption.
           ++ apply Hget.
           ++ specialize (Hget k0).
              destruct (String.eqb_spec k0 k) as [->|Hne].
              ** rewrite Dict_get_set_same in Hget. lia.
              ** rewrite Dict_get_set_other in Hget by exact Hne. lia.
      * exfalso. unfold Fractional.max_key in Hk.
        destruct releases as [|[k v] d]; [|discriminate].
        unfold Dict.sum in Hlt. simpl in Hlt. lia.
    + exists releases. repeat split; try lia.
      apply (Dict_get_values (fun v => 0 <= v)); [lia | exact Hv].
Qed.

(** X8. On quantities up to 2^48 the binary64 arithmetic of [get_releases]
    loses nothing: the method returns a map over the keys of the orders,
    each release between 0 and its order, the total equal to
    [min(order_total, stock)]. *)
Theorem Fractional_get_releases_small (node : Node) :
  let T := Dict.sum (orders node) in
  let S := Dict.get (stock node) (id node) in
  Dict.wf (orders node) = true ->
  Forall (fun v => 0 <= v) (Dict.values (orders node)) ->
  0 < T <= 2 ^ 48 -> 0 <= S ->
  exists r,
    (forall fuel, (Z.to_nat T <= fuel)%nat ->
                  Fractional.get_releases fuel node = Some (Ok r)) /\
    Dict.sum r = Z.min T S /\
    Dict.keys r = Dict.keys (orders node) /\
    forall k, 0 <= Dict.get r k <= Dict.get (orders node) k.
Proof.
  intros T S Hwf Hv HT HS.
  set (sh := Z.max (T - S) 0).
  assert (Hsh : 0 <= sh <= T) by (subst sh; lia).
  destruct (fill_spec sh T Hsh HT (Dict.items (orders node)) Dict.empty)
    as (ts & Hfill & Hts).
  { apply Dict_wf_NoDup. exact Hwf. }
  { apply Dict_value_le_sum. exact Hv. }
  destruct (share_sum _ _ _ _ Hts) as (Hkeys & Hnn & Hle & Hlow & Hget).
  change (Dict.sum (Dict.items (orders node))) with T in *.
  change (Dict.empty ++ ts) with ts in Hfill.
  assert (Hsum : T - sh <= Dict.sum ts).
  { assert (T * (2 ^ 49 * (T - sh) - T) <= T * (2 ^ 49 * Dict.sum ts)) by lia.
    assert (2 ^ 49 * (T - sh) - T <= 2 ^ 49 * Dict.sum ts)
      by (apply (Z.mul_le_mono_pos_l _ _ T); lia).
    lia. }
  assert (Hnd : NoDup (Dict.keys ts)).
  { rewrite Hkeys. apply Dict_wf_NoDup. exact Hwf. }
  destruct (reduce_terminates (Z.to_nat T) ts S ltac:(lia)) as [r0 Hr0].
  destruct (reduce_exact S (Z.to_nat T) HS ts Hnd Hnn ltac:(lia))
    as (r & Hr & Hrs & Hrk & Hrg).
  rewrite (Hr0 (Z.to_nat T) (Nat.le_refl _)) in Hr. injection Hr as ->.
  exists r. split; [|split; [|split]].
  - intros fuel Hfuel. unfold Fractional.get_releases.
    fold T. fold S. destruct (Z.eqb_spec T 0) as [|_]; [lia|].
    fold sh. rewrite Hfill. apply Hr0. exact Hfuel.
  - subst sh. lia.
  - now rewrite Hrk.
  - intros k. specialize (Hrg k). specialize (Hget k).
    change (Dict.items (orders node)) with (orders node) in Hget. lia.
Qed.

(** ** [RSQ.get_orders] *)

Section RSQ_facts.

Variable SupplyChain : Type.
Variable inventory_assemblies_feasible : SupplyChain -> Node -> Z.

Lemma RSQ_get_orders_unfold (self : SupplyChain) (node : Node) (period rt : Z) :
  RSQ.lookup node.(data) "review_time" = Ok rt ->
  rt <> 0 ->
  RSQ.get_orders inventory_assemblies_feasible self node period =
  (order_quantity <-
     (if period mod rt =? 0 then
        reorder_level <- RSQ.lookup node.(data) "reorder_level" ;;
        if inventory_assemblies_feasible self node <? reorder_level
        then RSQ.batch node.(data) (inventory_assemblies_feasible self node)
        else Ok 0
      else Ok 0) ;;
   Ok [(node.(id), order_quantity)]).
Proof.
  intros Hrt Hnz. unfold RSQ.get_orders. rewrite Hrt. simpl.
  unfold RSQ.int_mod. destruct (Z.eqb_spec rt 0); [contradiction|]. reflexivity.
Qed.

(** C2, as the code has it.  Take a node whose data hold a [review_time]
    other than 0, and any period.  Outside a review period
    ([period mod review_time <> 0]) the method returns the one-entry map from
    the node's SKU to 0.  When the data hold a [reorder_level] and the
    feasible inventory [I] is at or above it, it returns the same map.  In a
    review period with [I] below [reorder_level], when the data hold an
    [order_quantity] other than 0, [reorder_level - I] is at most 2^53 and
    [order_quantity] is below [(reorder_level - I) * 2^1075], it returns the
    one-entry map from the node's SKU to the exact ceiling of
    [(reorder_level - I) / order_quantity] times [order_quantity]. *)
Theorem RSQ_get_orders_single_entry
        (self : SupplyChain) (node : Node) (period rt : Z) :
  RSQ.lookup node.(data) "review_time" = Ok rt ->
  rt <> 0 ->
  let I := inventory_assemblies_feasible self node in
  (period mod rt <> 0 ->
   RSQ.get_orders inventory_assemblies_feasible self node period
   = Ok [(node.(id), 0)]) /\
  (forall rl,
      RSQ.lookup node.(data) "reorder_level" = Ok rl ->
      (rl <= I ->
       RSQ.get_orders inventory_assemblies_feasible self node period
       = Ok [(node.(id), 0)]) /\
      (forall oq,
          RSQ.lookup node.(data) "order_quantity" = Ok oq ->
          period mod rt = 0 -> I < rl ->
          oq <> 0 -> rl - I <= 2 ^ 53 -> oq < (rl - I) * 2 ^ 1075 ->
          RSQ.get_orders inventory_assemblies_feasible self node period
          = Ok [(node.(id), Float.ceil_div (rl - I) oq * oq)])).
Proof.
  intros Hrt Hnz I.
  rewrite (RSQ_get_orders_unfold self node period rt Hrt Hnz). fold I.
  split.
  - intros Hmod. destruct (Z.eqb_spec (period mod rt) 0); [contradiction|reflexivity].
  - intros rl Hrl. rewrite Hrl. cbn [bind]. split.
    + intros Hge. destruct (period mod rt =? 0); [|reflexivity].
      destruct (Z.ltb_spec I rl); [lia|reflexivity].
    + intros oq Hoq Hmod Hlt Hoq0 Hgap Hoqb.
      rewrite Hmod. cbn [Z.eqb].
      destruct (Z.ltb_spec I rl); [|lia].
      unfold RSQ.batch. rewrite Hrl, Hoq. cbn [bind].
      pose proof (true_divide_ceil_wide (rl - I) oq ltac:(lia) Hoq0 Hoqb) as Hq.
      destruct (Float.int_true_divide (rl - I) oq) as [q|e]; [|discriminate Hq].
      cbn [bind] in Hq |- *. rewrite Hq. reflexivity.
Qed.

(** C10. With [review_time] equal to 0 the method raises
    [ZeroDivisionError] at [period % data["review_time"]], whatever the
    period: it returns a map only for a nonzero review time. *)
Theorem RSQ_get_orders_review_time_zero
        (self : SupplyChain) (node : Node) (period : Z) :
  RSQ.lookup node.(data) "review_time" = Ok 0 ->
  RSQ.int_mod period 0 = Raise ZeroDivisionError /\
  RSQ.get_orders inventory_assemblies_feasible self node period
  = Raise ZeroDivisionError.
Proof.
  intros Hrt. split; [reflexivity|].
  unfold RSQ.get_orders. rewrite Hrt. reflexivity.
Qed.

End RSQ_facts.

(** C2, as stated, fails, with a feasible inventory of 7 throughout.  No
    map is returned when [review_time] is 0, when [reorder_level] is absent
    in a review period, when [order_quantity] is 0 and an order is due, or
    when [reorder_level - I] is beyond the largest double.  A map with
    another quantity is returned when the quotient is rounded before the
    ceiling is taken: with [reorder_level - I = 2^53 + 1] and batches of 1
    the order is 2^53, and with [reorder_level - I = 1] and batches of 2^1075
    the quotient vanishes and the order is 0. *)
Lemma RSQ_get_orders_not_for_every_node :
  let inventory := fun (_ : unit) (_ : Node) => 7 in
  RSQ.get_orders inventory tt (policy_node 30 25 0) 1 = Raise ZeroDivisionError /\
  RSQ.get_orders inventory tt (review_only_node 1) 1
  = Raise (KeyError "reorder_level") /\
  RSQ.get_orders inventory tt (policy_node 0 25 1) 1 = Raise ZeroDivisionError /\
  RSQ.get_orders inventory tt (policy_node 1 (2 ^ 1024 + 7) 1) 1
  = Raise OverflowError /\
  (RSQ.get_orders inventory tt (policy_node 1 (2 ^ 53 + 8) 1) 1 = Ok [("A", 2 ^ 53)] /\
   Float.ceil_div (2 ^ 53 + 8 - 7) 1 * 1 = 2 ^ 53 + 1) /\
  (RSQ.get_orders inventory tt (policy_node (2 ^ 1075) 8 1) 1 = Ok [("A", 0)] /\
   Float.ceil_div (8 - 7) (2 ^ 1075) * 2 ^ 1075 = 2 ^ 1075).
Proof. vm_compute. repeat split. Qed.

(** ** [RSQ.get_orders] on the objects it touches *)

Section World_facts.

Variable SupplyChain : Type.
Variable inventory_assemblies_feasible :
  SupplyChain -> Node -> Z * (SupplyChain * Node).

Lemma nth_error_last (objects : list Orders) (o : Orders) :
  nth_error (objects ++ [o]) (List.length objects) = Some o.
Proof.
  rewrite nth_error_app2, Nat.sub_diag by apply Nat.le_refl. reflexivity.
Qed.

Lemma update_last (objects : list Orders) (o : Orders) (sku : string) (q : Z) :
  World.update (objects ++ [o]) (List.length objects) sku q
  = objects ++ [Dict.set o sku q].
Proof.
  induction objects as [|o' objects IH]; cbn [World.update List.length app];
    [reflexivity|]. now rewrite IH.
Qed.

(** One call, in one step: the library call leaves a chain and a node; the
    rest of the method computes on them what [RSQ.get_orders] computes, and
    appends the map to the objects. *)
Lemma World_get_orders_run (w : World.t SupplyChain) (period : Z) :
  World.get_orders inventory_assemblies_feasible period w =
  let '(inventory, (c, n)) :=
    inventory_assemblies_feasible (World.chain w) (World.node w) in
  match RSQ.get_orders (fun _ _ => inventory) c n period with
  | Ok o =>
      (Ok (List.length (World.heap w)),
       {| World.chain := c; World.node := n; World.heap := World.heap w ++ [o] |})
  | Raise e =>
      (Raise e, {| World.chain := c; World.node := n; World.heap := World.heap w |})
  end.
Proof.
  unfold World.get_orders, World.seq at 1, World.call_library.
  destruct (inventory_assemblies_feasible (World.chain w) (World.node w))
    as [inventory [c n]].
  unfold RSQ.get_orders.
  unfold World.seq at 1, World.getitem at 1. cbn [World.node World.chain World.heap].
  destruct (RSQ.lookup (data n) "review_time") as [rt|e]; cbn [bind]; [|reflexivity].
  unfold World.seq at 1, World.lift at 1.
  destruct (RSQ.int_mod period rt) as [r|e]; cbn [bind]; [|reflexivity].
  assert (Hend : forall q w0,
             World.chain w0 = c -> World.node w0 = n -> World.heap w0 = World.heap w ->
             World.seq SupplyChain (World.new_orders SupplyChain)
               (fun orders =>
                  World.seq SupplyChain (World.setitem SupplyChain orders q)
                    (fun _ => World.ret SupplyChain orders)) w0
             = (Ok (List.length (World.heap w)),
                {| World.chain := c; World.node := n;
                   World.heap := World.heap w ++ [Dict.set Dict.empty (id n) q] |})).
  { intros q [c0 n0 h0]. cbn [World.chain World.node World.heap]. intros -> -> ->.
    unfold World.seq, World.new_orders, World.setitem, World.ret.
    cbn [World.chain World.node World.heap]. now rewrite update_last. }
  unfold World.seq at 1.
  destruct (r =? 0).
  - unfold World.seq at 1, World.getitem at 1. cbn [World.node].
    destruct (RSQ.lookup (data n) "reorder_level") as [rl|e]; cbn [bind]; [|reflexivity].
    destruct (inventory <? rl).
    + unfold World.batch, RSQ.batch.
      unfold World.seq at 1, World.getitem at 1. cbn [World.node].
      destruct (RSQ.lookup (data n) "reorder_level") as [rl'|e]; cbn [bind]; [|reflexivity].
      unfold World.seq at 1, World.getitem at 1. cbn [World.node].
      destruct (RSQ.lookup (data n) "order_quantity") as [oq|e] eqn:Hoq; cbn [bind];
        [|reflexivity].
      unfold World.seq at 1, World.lift at 1.
      destruct (Float.int_true_divide (rl' - inventory) oq) as [q|e]; cbn [bind]; [|reflexivity].
      unfold World.seq at 1, World.lift at 1.
      destruct (Float.ceil q) as [k|e]; cbn [bind]; [|reflexivity].
      unfold World.seq at 1, World.getitem at 1, World.ret at 1. cbn [World.node].
      rewrite Hoq. cbn [bind]. apply Hend; reflexivity.
    + unfold World.ret at 1. apply Hend; reflexivity.
  - unfold World.ret at 1. apply Hend; reflexivity.
Qed.

(** What the caller holds after a call is what [RSQ.get_orders] computes
    on the chain and the node as the library call left them. *)
Lemma World_returned (w : World.t SupplyChain) (period : Z) :
  World.returned (World.get_orders inventory_assemblies_feasible period w) =
  let '(inventory, (c, n)) :=
    inventory_assemblies_feasible (World.chain w) (World.node w) in
  Some (RSQ.get_orders (fun _ _ => inventory) c n period).
Proof.
  rewrite World_get_orders_run.
  destruct (inventory_assemblies_feasible (World.chain w) (World.node w))
    as [inventory [c n]].
  destruct (RSQ.get_orders (fun _ _ => inventory) c n period) as [o|e];
    unfold World.returned; cbn [fst snd World.heap]; [|reflexivity].
  now rewrite nth_error_last.
Qed.

(** C7. One call leaves the chain and the node as the library call inside
    it left them, leaves every [Orders] object that existed untouched, and
    returns a new object.  The map it returns depends on the chain, the node
    and the period only: two calls at the same chain and node return equal
    maps, whatever objects exist by then.  And when the library call only
    reads, two calls in a row return equal maps in two distinct objects, the
    chain and the node being after both calls what they were before. *)
Theorem RSQ_get_orders_idempotent :
  (forall (w : World.t SupplyChain) (period : Z),
      let after := World.get_orders inventory_assemblies_feasible period w in
      (World.chain (snd after), World.node (snd after))
      = snd (inventory_assemblies_feasible (World.chain w) (World.node w)) /\
      firstn (List.length (World.heap w)) (World.heap (snd after)) = World.heap w /\
      (forall address, fst after = Ok address ->
         address = List.length (World.heap w) /\
         List.length (World.heap (snd after)) = S address) /\
      (forall e, fst after = Raise e -> World.heap (snd after) = World.heap w)) /\
  (forall (w w' : World.t SupplyChain) (period : Z),
      World.chain w = World.chain w' -> World.node w = World.node w' ->
      World.returned (World.get_orders inventory_assemblies_feasible period w)
      = World.returned (World.get_orders inventory_assemblies_feasible period w') /\
      World.returned (World.get_orders inventory_assemblies_feasible period w) <> None) /\
  (forall (w : World.t SupplyChain) (period inventory : Z),
      inventory_assemblies_feasible (World.chain w) (World.node w)
      = (inventory, (World.chain w, World.node w)) ->
      let first := World.get_orders inventory_assemblies_feasible period w in
      let second := World.get_orders inventory_assemblies_feasible period (snd first) in
      World.chain (snd second) = World.chain w /\
      World.node (snd second) = World.node w /\
      World.returned second = World.returned first /\
      World.returned (fst first, snd second) = World.returned first /\
      (forall a1 a2, fst first = Ok a1 -> fst second = Ok a2 -> a1 <> a2)).
Proof.
  split; [|split].
  - intros w period after. subst after. rewrite World_get_orders_run.
    destruct (inventory_assemblies_feasible (World.chain w) (World.node w))
      as [inventory [c n]].
    destruct (RSQ.get_orders (fun _ _ => inventory) c n period) as [o|e];
      cbn [fst snd World.chain World.node World.heap].
    + split; [reflexivity|]. split.
      * rewrite firstn_app, Nat.sub_diag, firstn_all. cbn [firstn]. apply app_nil_r.
      * split.
        -- intros address H. injection H as <-.
           split; [reflexivity|]. rewrite length_app. cbn [List.length]. lia.
        -- intros e H. discriminate H.
    + split; [reflexivity|]. split; [apply firstn_all|].
      split; [intros address H; discriminate H | reflexivity].
  - intros w w' period Hc Hn. rewrite !World_returned, <- Hc, <- Hn.
    destruct (inventory_assemblies_feasible (World.chain w) (World.node w))
      as [inventory [c n]].
    split; [reflexivity | discriminate].
  - intros w period inventory Hread first second.
    assert (H1 : first =
                 match RSQ.get_orders (fun _ _ => inventory) (World.chain w)
                         (World.node w) period with
                 | Ok o =>
                     (Ok (List.length (World.heap w)),
                      {| World.chain := World.chain w; World.node := World.node w;
                         World.heap := World.heap w ++ [o] |})
                 | Raise e =>
                     (Raise e,
                      {| World.chain := World.chain w; World.node := World.node w;
                         World.heap := World.heap w |})
                 end).
    { subst first. rewrite World_get_orders_run, Hread. reflexivity. }
    assert (H2 : second =
                 match RSQ.get_orders (fun _ _ => inventory) (World.chain w)
                         (World.node w) period with
                 | Ok o =>
                     (Ok (List.length (World.heap (snd first))),
                      {| World.chain := World.chain w; World.node := World.node w;
                         World.heap := World.heap (snd first) ++ [o] |})
                 | Raise e =>
                     (Raise e,
                      {| World.chain := World.chain w; World.node := World.node w;
                         World.heap := World.heap (snd first) |})
                 end).
    { subst second. rewrite World_get_orders_run.
      replace (World.chain (snd first)) with (World.chain w)
        by (rewrite H1; destruct (RSQ.get_orders _ _ _ _); reflexivity).
      replace (World.node (snd first)) with (World.node w)
        by (rewrite H1; destruct (RSQ.get_orders _ _ _ _); reflexivity).
      rewrite Hread. reflexivity. }
    clearbody first second. rewrite H2, H1. clear H1 H2.
    destruct (RSQ.get_orders (fun _ _ => inventory) (World.chain w) (World.node w) period)
      as [o|e]; unfold World.returned; cbn [fst snd World.chain World.node World.heap].
    + rewrite length_app. cbn [List.length].
      repeat split.
      * replace (List.length (World.heap w) + 1)%nat
          with (List.length (World.heap w ++ [o]))
          by (rewrite length_app; reflexivity).
        now rewrite !nth_error_last.
      * rewrite <- app_assoc, nth_error_app2, Nat.sub_diag by apply Nat.le_refl.
        now rewrite nth_error_last.
      * intros a1 a2 E1 E2. injection E1 as <-. injection E2 as <-. lia.
    + repeat split. intros a1 a2 E1. discriminate E1.
Qed.

End World_facts.

(** Over a library call that only reads, the run returns the map of
    [RSQ.get_orders]. *)
Lemma World_get_orders_reads (SupplyChain : Type) (f : SupplyChain -> Node -> Z)
      (w : World.t SupplyChain) (period : Z) :
  World.returned (World.get_orders (World.reads f) period w)
  = Some (RSQ.get_orders f (World.chain w) (World.node w) period).
Proof.
  rewrite World_returned. reflexivity.
Qed.


(** A library call that writes between the two calls changes the second
    map: the hypothesis of the last part of C7 cannot be dropped. *)
Lemma World_get_orders_after_booking :
  let w := {| World.chain := 0; World.node := policy_node 10 25 1; World.heap := [] |} in
  let first := World.get_orders booking 3 w in
  let second := World.get_orders booking 3 (snd first) in
  World.returned first = Some (Ok [("A", 30)]) /\
  World.returned second = Some (Ok [("A", 10)]) /\
  World.chain (snd second) = 40.
Proof. vm_compute. repeat split. Qed.

(** ** Pipelines *)

Lemma age_add (p : Pipeline) (r : Receipt) :
  PipelineOps.age (PipelineOps.add p r)
  = PipelineOps.add (PipelineOps.age p) (PipelineOps.age1 r).
Proof. unfold PipelineOps.age, PipelineOps.add. now rewrite map_app. Qed.

Lemma pop_matured_add (p : Pipeline) (r : Receipt) :
  PipelineOps.pop_matured (PipelineOps.add p r)
  = let (out, rest) := PipelineOps.pop_matured p in
    if PipelineOps.matured r then (out ++ [r], rest) else (out, rest ++ [r]).
Proof.
  unfold PipelineOps.pop_matured, PipelineOps.add.
  rewrite !filter_app. simpl.
  destruct (PipelineOps.matured r); simpl; now rewrite ?app_nil_r.
Qed.

Lemma period_add_pending (p : Pipeline) (sku : string) (k : nat) (q : Z) :
  PipelineOps.period (PipelineOps.add p (receipt sku (Z.of_nat (S k)) q))
  = PipelineOps.add (PipelineOps.period p) (receipt sku (Z.of_nat k) q).
Proof.
  unfold PipelineOps.period. rewrite pop_matured_add.
  destruct (PipelineOps.pop_matured p) as [out rest].
  replace (PipelineOps.matured (receipt sku (Z.of_nat (S k)) q)) with false.
  - cbn [snd]. unfold PipelineOps.age, PipelineOps.add. rewrite map_app.
    f_equal. cbn [map]. unfold PipelineOps.age1, receipt. cbn [eta sku_code quantity].
    do 2 f_equal. lia.
  - unfold PipelineOps.matured, receipt. simpl eta.
    symmetry. apply Z.eqb_neq. lia.
Qed.

Lemma periods_add_pending (j : nat) :
  forall (p : Pipeline) (sku : string) (k : nat) (q : Z),
    Nat.iter j PipelineOps.period
             (PipelineOps.add p (receipt sku (Z.of_nat (j + k)) q))
    = PipelineOps.add (Nat.iter j PipelineOps.period p)
                      (receipt sku (Z.of_nat k) q).
Proof.
  induction j as [|j IH]; intros p sku k q.
  - reflexivity.
  - rewrite !Nat.iter_succ_r.
    replace (S j + k)%nat with (S (j + k)) by lia.
    rewrite period_add_pending. apply IH.
Qed.

(** C6. Ageing takes exactly 1 off the [eta] of every receipt and leaves
    SKU and quantity alone; [pop_matured] returns exactly the receipts with
    [eta = 0] and leaves exactly the others; and a receipt added with
    [eta = L] and quantity [Q] is still waiting, with [eta = L - j], after
    [j < L] periods (none of whose [pop_matured] calls returned it), and is
    returned, with quantity [Q], by the [pop_matured] that follows the [L]-th
    ageing. *)
Theorem Pipeline_receipt_matures_after_eta_periods :
  (forall p : Pipeline,
      map eta (PipelineOps.age p) = map (fun r => eta r - 1) p /\
      map quantity (PipelineOps.age p) = map quantity p /\
      map sku_code (PipelineOps.age p) = map sku_code p) /\
  (forall (p : Pipeline) (r : Receipt),
      (In r (fst (PipelineOps.pop_matured p)) <-> In r p /\ eta r = 0) /\
      (In r (snd (PipelineOps.pop_matured p)) <-> In r p /\ eta r <> 0)) /\
  (forall (p : Pipeline) (sku : string) (Q : Z) (j k : nat),
      let waiting := Nat.iter j PipelineOps.period
                       (PipelineOps.add p (receipt sku (Z.of_nat (j + S k)) Q)) in
      let others := Nat.iter j PipelineOps.period p in
      waiting = PipelineOps.add others (receipt sku (Z.of_nat (S k)) Q) /\
      PipelineOps.pop_matured waiting
      = (fst (PipelineOps.pop_matured others),
         snd (PipelineOps.pop_matured others) ++ [receipt sku (Z.of_nat (S k)) Q])) /\
  (forall (p : Pipeline) (sku : string) (Q : Z) (L : nat),
      let due := Nat.iter L PipelineOps.period
                   (PipelineOps.add p (receipt sku (Z.of_nat L) Q)) in
      let others := Nat.iter L PipelineOps.period p in
      PipelineOps.pop_matured due
      = (fst (PipelineOps.pop_matured others) ++ [receipt sku 0 Q],
         snd (PipelineOps.pop_matured others))).
Proof.
  split; [|split; [|split]].
  - intros p. unfold PipelineOps.age. rewrite !map_map. repeat split.
  - intros p r. unfold PipelineOps.pop_matured, PipelineOps.matured. simpl.
    rewrite !filter_In. split.
    + split; intros [H1 H2]; split; try assumption; lia.
    + split; intros [H1 H2]; split; try assumption.
      * destruct (Z.eqb_spec (eta r) 0); [discriminate | assumption].
      * destruct (Z.eqb_spec (eta r) 0); [contradiction | reflexivity].
  - intros p sku Q j k waiting others. subst waiting others.
    rewrite periods_add_pending. split; [reflexivity|].
    rewrite pop_matured_add.
    destruct (PipelineOps.pop_matured _) as [out rest]. simpl fst; simpl snd.
    unfold PipelineOps.matured, receipt. simpl eta.
    destruct (Z.eqb_spec (Z.of_nat (S k)) 0); [lia | reflexivity].
  - intros p sku Q L due others. subst due others.
    replace L with (L + 0)%nat at 2 by lia.
    rewrite periods_add_pending, pop_matured_add.
    destruct (PipelineOps.pop_matured _) as [out rest]. reflexivity.
Qed.

(** ** The bill of materials *)


Lemma find_In (ns : list Node) (sku : string) (p : Node) :
  Chain.find ns sku = Some p -> In p ns.
Proof.
  induction ns as [|n ns IH]; simpl; [discriminate|].
  destruct (String.eqb (id n) sku); [|auto].
  intros H; injection H as <-. now left.
Qed.


Lemma bom_In (es : list Edge) (sku : string) (e : Edge) :
  In e (Chain.bom es sku) <-> In e es /\ destination e = sku.
Proof.
  unfold Chain.bom. rewrite filter_In.
  split; intros [H1 H2]; split; try assumption; now apply String.eqb_eq.
Qed.




Lemma well_formed_inv (c : SupplyChain) :
  Chain.well_formed c = true ->
  Chain.distinct (Chain.ids (nodes c)) = true /\
  forallb (Chain.known (nodes c)) (edges c) = true /\
  (forall e, In e (edges c) -> 1 <= number e) /\
  Chain.acyclic (nodes c) (edges c) = true.
Proof.
  unfold Chain.well_formed. rewrite !andb_true_iff.
  intros [[[Hd Hk] Hn] Ha]. repeat split; try assumption.
  intros e He. rewrite forallb_forall in Hn. specialize (Hn e He). lia.
Qed.



Lemma minimum_nonneg (l : list Z) :
  forall x, 0 <= x -> (forall y, In y l -> 0 <= y) -> 0 <= Chain.minimum x l.
Proof.
  induction l as [|y l IH]; intros x Hx Hl; cbn [Chain.minimum]; [assumption|].
  apply Z.min_glb; [assumption|].
  apply IH; [apply Hl; now left | intros z Hz; apply Hl; now right].
Qed.

(** Section 4.3 (c): with multiplicities of at least 1 and no negative stock,
    the number of feasible assemblies is never negative. *)
Lemma assemblies_nonneg (c : SupplyChain) :
  (forall e, In e (edges c) -> 1 <= number e) ->
  (forall m k, In m (nodes c) -> 0 <= Dict.get (stock m) k) ->
  forall (depth : nat) (n : Node),
    (forall k, 0 <= Dict.get (stock n) k) ->
    0 <= Chain.assemblies depth c n.
Proof.
  intros Hnum Hstock.
  assert (Hterm : forall (n : Node) (u : Edge -> Z),
             (forall k, 0 <= Dict.get (stock n) k) ->
             (forall e, 0 <= u e) ->
             0 <= match map (fun e => (Dict.get (stock n) (source e) + u e) / number e)
                              (Chain.bom (edges c) (id n)) with
                  | [] => 0
                  | t :: ts => Chain.minimum t ts
                  end).
  { intros n u Hn Hu.
    assert (Hall : forall y,
               In y (map (fun e => (Dict.get (stock n) (source e) + u e) / number e)
                         (Chain.bom (edges c) (id n))) -> 0 <= y).
    { intros y Hy. apply in_map_iff in Hy as (e & <- & He).
      apply bom_In in He as [He _]. specialize (Hnum e He).
      apply Z.div_pos; [|lia]. specialize (Hn (source e)). specialize (Hu e). lia. }
    destruct (map _ _) as [|t ts]; [lia|].
    apply minimum_nonneg; [apply Hall; now left|].
    intros y Hy. apply Hall. now right. }
  induction depth as [|depth IH]; intros n Hn; cbn [Chain.assemblies].
  - apply (Hterm n (fun _ => 0)); [assumption | intros; lia].
  - apply (Hterm n (fun e => match Chain.find (nodes c) (source e) with
                             | Some p => Chain.assemblies depth c p
                             | None => 0
                             end)); [assumption|].
    intros e. destruct (Chain.find (nodes c) (source e)) as [p|] eqn:Hf; [|lia].
    apply IH. intros k. apply Hstock. exact (find_In _ _ _ Hf).
Qed.

Lemma in_transit_nonneg (p : Pipeline) (sku : string) :
  (forall r, In r p -> 0 <= quantity r) -> 0 <= PipelineOps.in_transit p sku.
Proof.
  unfold PipelineOps.in_transit. induction p as [|r p IH]; intros H; simpl; [lia|].
  assert (0 <= fold_right Z.add 0
                 (map quantity (filter (fun r0 => String.eqb (sku_code r0) sku) p)))
    by (apply IH; intros r0 Hr0; apply H; now right).
  destruct (String.eqb (sku_code r) sku); simpl; [|assumption].
  specialize (H r (or_introl eq_refl)). lia.
Qed.

Lemma Chain_inventory_assemblies_feasible_nonneg (c : SupplyChain) (n : Node) :
  Chain.well_formed c = true ->
  (forall m k, In m (n :: nodes c) -> 0 <= Dict.get (stock m) k) ->
  (forall r, In r (pipeline n) -> 0 <= quantity r) ->
  0 <= Chain.inventory_assemblies_feasible c n.
Proof.
  intros Hwf Hstock Hpipe.
  destruct (well_formed_inv c Hwf) as (_ & _ & Hnum & _).
  unfold Chain.inventory_assemblies_feasible, Chain.assemblies_feasible,
    Chain.stock_position.
  pose proof (assemblies_nonneg c Hnum
                (fun m k Hm => Hstock m k (or_intror Hm))
                (List.length (nodes c)) n
                (fun k => Hstock n k (or_introl eq_refl))).
  pose proof (Hstock n (id n) (or_introl eq_refl)).
  pose proof (in_transit_nonneg (pipeline n) (id n) Hpipe). lia.
Qed.


(** ** Low-level codes *)



(** ** More on [RSQ.get_orders]: what it reads, and when it fails *)

Section RSQ_edges.

Variable SupplyChain : Type.
Variable inventory_assemblies_feasible : SupplyChain -> Node -> Z.

(** X1. The policy parameters are read lazily.  Outside a review period the
    method returns the single entry 0 without reading [reorder_level] or
    [order_quantity]; in a review period with the inventory at or above the
    reorder level it returns the single entry 0 without reading
    [order_quantity].  Absent or zero parameters do no harm there. *)
Theorem RSQ_get_orders_reads_lazily
        (self : SupplyChain) (node : Node) (period rt : Z) :
  RSQ.lookup node.(data) "review_time" = Ok rt ->
  rt <> 0 ->
  (period mod rt <> 0 ->
   RSQ.get_orders inventory_assemblies_feasible self node period
   = Ok [(node.(id), 0)]) /\
  (forall rl,
      RSQ.lookup node.(data) "reorder_level" = Ok rl ->
      rl <= inventory_assemblies_feasible self node ->
      RSQ.get_orders inventory_assemblies_feasible self node period
      = Ok [(node.(id), 0)]).
Proof.
  intros Hrt Hnz.
  rewrite (RSQ_get_orders_unfold _ inventory_assemblies_feasible self node period rt Hrt Hnz).
  split.
  - intros Hmod. destruct (Z.eqb_spec (period mod rt) 0); [contradiction|reflexivity].
  - intros rl Hrl Hge. destruct (period mod rt =? 0); [|reflexivity].
    rewrite Hrl. cbn [bind].
    destruct (Z.ltb_spec (inventory_assemblies_feasible self node) rl); [lia|reflexivity].
Qed.

(** X2. A policy parameter that is needed and absent raises [KeyError] with
    its name: [review_time] in every period, [reorder_level] in every review
    period, [order_quantity] whenever the inventory is below the reorder
    level in a review period. *)
Theorem RSQ_get_orders_missing_parameter
        (self : SupplyChain) (node : Node) (period : Z) :
  (Dict.mem node.(data) "review_time" = false ->
   RSQ.get_orders inventory_assemblies_feasible self node period
   = Raise (KeyError "review_time")) /\
  (forall rt,
      RSQ.lookup node.(data) "review_time" = Ok rt -> rt <> 0 ->
      period mod rt = 0 ->
      (Dict.mem node.(data) "reorder_level" = false ->
       RSQ.get_orders inventory_assemblies_feasible self node period
       = Raise (KeyError "reorder_level")) /\
      (forall rl,
          RSQ.lookup node.(data) "reorder_level" = Ok rl ->
          inventory_assemblies_feasible self node < rl ->
          Dict.mem node.(data) "order_quantity" = false ->
          RSQ.get_orders inventory_assemblies_feasible self node period
          = Raise (KeyError "order_quantity"))).
Proof.
  split.
  - intros Hm. unfold RSQ.get_orders, RSQ.lookup. rewrite Hm. reflexivity.
  - intros rt Hrt Hnz Hmod.
    rewrite (RSQ_get_orders_unfold _ inventory_assemblies_feasible self node period rt Hrt Hnz).
    rewrite Hmod. cbn [Z.eqb]. split.
    + intros Hm. unfold RSQ.lookup. rewrite Hm. reflexivity.
    + intros rl Hrl Hlt Hm. rewrite Hrl. cbn [bind].
      destruct (Z.ltb_spec (inventory_assemblies_feasible self node) rl); [|lia].
      unfold RSQ.batch. rewrite Hrl. cbn [bind].
      unfold RSQ.lookup. rewrite Hm. reflexivity.
Qed.

(** X3. With [order_quantity] equal to 0 the method raises
    [ZeroDivisionError] exactly when it has to order: in a review period with
    the inventory below the reorder level. *)
Theorem RSQ_get_orders_zero_order_quantity
        (self : SupplyChain) (node : Node) (period rt rl : Z) :
  RSQ.lookup node.(data) "review_time" = Ok rt ->
  RSQ.lookup node.(data) "reorder_level" = Ok rl ->
  RSQ.lookup node.(data) "order_quantity" = Ok 0 ->
  rt <> 0 ->
  let I := inventory_assemblies_feasible self node in
  (period mod rt = 0 /\ I < rl ->
   RSQ.get_orders inventory_assemblies_feasible self node period
   = Raise ZeroDivisionError) /\
  (~ (period mod rt = 0 /\ I < rl) ->
   RSQ.get_orders inventory_assemblies_feasible self node period
   = Ok [(node.(id), 0)]).
Proof.
  intros Hrt Hrl Hoq Hnz I.
  rewrite (RSQ_get_orders_unfold _ inventory_assemblies_feasible self node period rt Hrt Hnz).
  fold I. rewrite Hrl. cbn [bind]. split.
  - intros [Hmod Hlt]. rewrite Hmod. cbn [Z.eqb].
    destruct (Z.ltb_spec I rl); [|lia].
    unfold RSQ.batch. rewrite Hrl, Hoq. reflexivity.
  - intros Hno. destruct (Z.eqb_spec (period mod rt) 0) as [Hmod|Hmod]; [|reflexivity].
    destruct (Z.ltb_spec I rl); [|reflexivity]. exfalso. apply Hno. auto.
Qed.

(** X4. With a positive [order_quantity], in a review period with the
    inventory below the reorder level (both gaps below 2^53), the order is
    the least multiple of [order_quantity] that lifts the inventory to the
    reorder level: a positive number [k] of batches with
    [I + k * oq >= rl] and [I + (k - 1) * oq < rl]. *)
Theorem RSQ_get_orders_least_batches
        (self : SupplyChain) (node : Node) (period rt rl oq : Z) :
  RSQ.lookup node.(data) "review_time" = Ok rt ->
  RSQ.lookup node.(data) "reorder_level" = Ok rl ->
  RSQ.lookup node.(data) "order_quantity" = Ok oq ->
  rt <> 0 -> period mod rt = 0 ->
  let I := inventory_assemblies_feasible self node in
  I < rl -> rl - I < 2 ^ 53 -> 0 < oq < 2 ^ 53 ->
  exists k,
    RSQ.get_orders inventory_assemblies_feasible self node period
    = Ok [(node.(id), k * oq)] /\
    1 <= k /\ rl <= I + k * oq /\ I + (k - 1) * oq < rl.
Proof.
  intros Hrt Hrl Hoq Hnz Hmod I Hlt Hgap Hoqb.
  rewrite (RSQ_get_orders_unfold _ inventory_assemblies_feasible self node period rt Hrt Hnz).
  fold I. rewrite Hmod, Hrl. cbn [Z.eqb bind].
  destruct (Z.ltb_spec I rl); [|lia].
  unfold RSQ.batch. rewrite Hrl, Hoq. cbn [bind].
  pose proof (true_divide_ceil (rl - I) oq ltac:(lia) ltac:(lia) ltac:(lia)) as Hq.
  destruct (Float.int_true_divide (rl - I) oq) as [q|e]; [|discriminate Hq].
  cbn [bind] in Hq |- *. rewrite Hq. cbn [bind].
  exists (Float.ceil_div (rl - I) oq). split; [reflexivity|].
  pose proof (ceil_div_spec (rl - I) oq ltac:(lia)) as Hc.
  set (k := Float.ceil_div (rl - I) oq) in *. clearbody k.
  assert (0 < k * oq) by lia.
  assert (0 < k).
  { destruct (Z.lt_ge_cases 0 k); [assumption|].
    assert (k * oq <= 0 * oq) by (apply Z.mul_le_mono_nonneg_r; lia). lia. }
  lia.
Qed.

End RSQ_edges.

(** ** More on [Fractional.get_releases] *)

Lemma fill_keys (sh T : Z) :
  forall items acc r,
    NoDup (Dict.keys acc ++ Dict.keys items) ->
    Fractional.fill items sh T acc = Ok r ->
    Dict.keys r = Dict.keys acc ++ Dict.keys items.
Proof.
  induction items as [|[k o] rest IH]; intros acc r Hnd Hfill.
  - injection Hfill as <-. simpl. now rewrite app_nil_r.
  - cbn [Fractional.fill] in Hfill.
    destruct (Fractional.tentative o sh T) as [t|e]; [|discriminate].
    cbn [bind] in Hfill. simpl Dict.keys in Hnd |- *.
    rewrite Dict_set_fresh in Hfill.
    + apply IH in Hfill.
      * rewrite Hfill. unfold Dict.keys. rewrite map_app, <- app_assoc. reflexivity.
      * unfold Dict.keys in *. rewrite map_app, <- app_assoc. exact Hnd.
    + apply NoDup_remove_2 in Hnd. intros Hin. apply Hnd, in_or_app. now left.
Qed.

Lemma reduce_keys (stock : Z) (fuel : nat) :
  forall releases r,
    Fractional.reduce fuel releases stock = Some (Ok r) ->
    Dict.keys r = Dict.keys releases.
Proof.
  induction fuel as [|fuel IH]; intros releases r; simpl;
    destruct (stock <? Dict.sum releases).
  - discriminate.
  - intros H; injection H as <-. reflexivity.
  - destruct (Fractional.max_key releases) as [k|e] eqn:Hk; [|discriminate].
    intros H. apply IH in H. rewrite H. apply Dict_keys_set.
    apply Dict_mem_keys. now apply max_key_in.
  - intros H; injection H as <-. reflexivity.
Qed.

(** X6. Whatever map [get_releases] returns holds exactly the children
    that ordered, in the order of the orders map, when the order total is
    not 0; and no entry at all when the total is 0, even if single orders
    are not 0. *)
Theorem Fractional_releases_keys (fuel : nat) (node : Node) (r : Orders) :
  Dict.wf (orders node) = true ->
  Fractional.get_releases fuel node = Some (Ok r) ->
  (Dict.sum (orders node) = 0 -> r = []) /\
  (Dict.sum (orders node) <> 0 -> Dict.keys r = Dict.keys (orders node)).
Proof.
  intros Hwf. unfold Fractional.get_releases.
  destruct (Z.eqb_spec (Dict.sum (orders node)) 0) as [H0|H0].
  - intros H; injection H as <-. split; [reflexivity | contradiction].
  - destruct (Fractional.fill _ _ _ _) as [releases|e] eqn:Hfill; [|discriminate].
    intros Hr. split; [contradiction|]. intros _.
    apply reduce_keys in Hr. rewrite Hr.
    apply fill_keys in Hfill; [exact Hfill|].
    apply Dict_wf_NoDup. exact Hwf.
Qed.

(** An order is released in full when nothing is short. *)
Lemma tentative_no_shortage (o T : Z) :
  0 <= o <= T -> 0 < T < 2 ^ 53 -> Fractional.tentative o 0 T = Ok o.
Proof.
  intros Ho HT.
  destruct (div_share o T Ho HT) as (q & Hq & Hnq & _).
  destruct (of_int_exact o ltac:(lia)) as (fo & Hfo & Hno & Eo).
  unfold Fractional.tentative. rewrite Hq, Hfo.
  change (Float.of_int 0) with (Ok (S754_zero false)). cbn [bind].
  assert (Hmul : Float.mul (S754_zero false) q = S754_zero false).
  { destruct Hnq as [->|(m & e & -> & _)]; reflexivity. }
  rewrite Hmul.
  pose proof W_pos as HW.
  destruct Hno as [->|(m & e & -> & Hm & He)].
  - cbn [scaled] in Eo. assert (o = 0) by lia. subst o. reflexivity.
  - assert (Hsub : Float.sub (S754_finite false m e) (S754_zero false)
                   = S754_finite false m e) by reflexivity.
    rewrite Hsub, ceil_scaled_value by lia. rewrite Eo. f_equal.
    apply ceil_div_unique; lia.
Qed.

Lemma fill_no_shortage (T : Z) :
  0 < T < 2 ^ 53 ->
  forall items acc,
    NoDup (Dict.keys acc ++ Dict.keys items) ->
    Forall (fun v => 0 <= v <= T) (Dict.values items) ->
    Fractional.fill items 0 T acc = Ok (acc ++ items).
Proof.
  intros HT. induction items as [|[k o] rest IH]; intros acc Hnd Hv.
  - now rewrite app_nil_r.
  - inversion Hv as [|? ? Ho Hrest]; subst.
    cbn [Fractional.fill]. rewrite (tentative_no_shortage o T Ho HT). cbn [bind].
    simpl Dict.keys in Hnd. rewrite Dict_set_fresh.
    + rewrite IH; [now rewrite <- app_assoc| |exact Hrest].
      unfold Dict.keys in *. rewrite map_app, <- app_assoc. exact Hnd.
    + apply NoDup_remove_2 in Hnd. intros Hin. apply Hnd, in_or_app. now left.
Qed.

(** X7. Without a shortage the releases are the orders: for nonnegative
    orders with a total below 2^53 that the stock covers, [get_releases]
    returns the orders map itself, and the correction loop does not run. *)
Theorem Fractional_releases_all_without_shortage (fuel : nat) (node : Node) :
  Dict.wf (orders node) = true ->
  Forall (fun v => 0 <= v) (Dict.values (orders node)) ->
  0 < Dict.sum (orders node) < 2 ^ 53 ->
  Dict.sum (orders node) <= Dict.get (stock node) (id node) ->
  Fractional.get_releases fuel node = Some (Ok (orders node)).
Proof.
  intros Hwf Hv HT HS. unfold Fractional.get_releases.
  destruct (Z.eqb_spec (Dict.sum (orders node)) 0) as [|_]; [lia|].
  rewrite Z.max_r by lia.
  rewrite (fill_no_shortage _ HT).
  - change (Dict.empty ++ Dict.items (orders node)) with (orders node).
    destruct fuel; simpl;
      destruct (Z.ltb_spec (Dict.get (stock node) (id node)) (Dict.sum (orders node)));
      solve [lia | reflexivity].
  - apply Dict_wf_NoDup. exact Hwf.
  - apply Dict_value_le_sum. exact Hv.
Qed.

(** ** The correction loop takes from the top *)

Lemma reduce_sum (stock : Z) (fuel : nat) :
  forall releases r,
    Fractional.reduce fuel releases stock = Some (Ok r) ->
    Dict.sum r = Z.min (Dict.sum releases) stock.
Proof.
  induction fuel as [|fuel IH]; intros releases r; simpl;
    destruct (Z.ltb_spec stock (Dict.sum releases)) as [Hlt|Hge].
  - discriminate.
  - intros H; injection H as <-. lia.
  - destruct (Fractional.max_key releases) as [k|e] eqn:Hk; [|discriminate].
    intros H. apply IH in H. rewrite reduce_step_sum in H by exact Hk. lia.
  - intros H; injection H as <-. lia.
Qed.

Lemma reduce_levels (stock : Z) (start : Orders) (fuel : nat) :
  forall releases r,
    Fractional.reduce fuel releases stock = Some (Ok r) ->
    (forall k, Dict.get releases k <= Dict.get start k) ->
    (forall k k', In k (Dict.keys releases) -> In k' (Dict.keys releases) ->
                  Dict.get releases k < Dict.get start k ->
                  Dict.get releases k' <= Dict.get releases k + 1) ->
    (forall k, Dict.get r k <= Dict.get start k) /\
    (forall k k', In k (Dict.keys r) -> In k' (Dict.keys r) ->
                  Dict.get r k < Dict.get start k ->
                  Dict.get r k' <= Dict.get r k + 1).
Proof.
  induction fuel as [|fuel IH]; intros releases r; simpl;
    destruct (stock <? Dict.sum releases).
  - discriminate.
  - intros H; injection H as <-. auto.
  - destruct (Fractional.max_key releases) as [k0|e] eqn:Hk; [|discriminate].
    pose proof (max_key_in _ _ Hk) as Hin.
    pose proof (max_key_ge _ _ Hk) as Hmax.
    assert (Hmem : Dict.mem releases k0 = true) by now apply Dict_mem_keys.
    intros H Hle Hlev. apply IH in H; [exact H| |].
    + intros k. destruct (String.eqb_spec k k0) as [->|Hne].
      * rewrite Dict_get_set_same. specialize (Hle k0). lia.
      * rewrite Dict_get_set_other by exact Hne. apply Hle.
    + rewrite Dict_keys_set by exact Hmem. intros k k' Hk1 Hk2.
      assert (Hk' : Dict.get (Dict.set releases k0 (Dict.get releases k0 - 1)) k'
                    <= Dict.get releases k').
      { destruct (String.eqb_spec k' k0) as [->|Hne].
        - rewrite Dict_get_set_same. lia.
        - rewrite Dict_get_set_other by exact Hne. lia. }
      destruct (String.eqb_spec k k0) as [->|Hne].
      * rewrite Dict_get_set_same. intros _. specialize (Hmax k' Hk2). lia.
      * rewrite Dict_get_set_other by exact Hne. intros Hlt.
        specialize (Hlev k k' Hk1 Hk2 Hlt). lia.
  - intros H; injection H as <-. auto.
Qed.

(** X9. The correction loop removes exactly the excess over the stock and
    takes it from the top: no release is raised, the total comes down to the
    stock (or stays, when it was within the stock), and a release that was
    cut ends at most 1 below every other release. *)
Theorem Fractional_correction_takes_from_the_top
        (fuel : nat) (releases r : Orders) (stock : Z) :
  Fractional.reduce fuel releases stock = Some (Ok r) ->
  Dict.keys r = Dict.keys releases /\
  Dict.sum r = Z.min (Dict.sum releases) stock /\
  (forall k, Dict.get r k <= Dict.get releases k) /\
  (forall k k', In k (Dict.keys r) -> In k' (Dict.keys r) ->
                Dict.get r k < Dict.get releases k ->
                Dict.get r k' <= Dict.get r k + 1).
Proof.
  intros H. split; [eapply reduce_keys; eassumption|].
  split; [eapply reduce_sum; eassumption|].
  eapply reduce_levels; [exact H | intros; lia | intros; lia].
Qed.

(** ** Lists as [write] uses them *)

Lemma existsb_eqb_In (p : Z) (l : list Z) :
  existsb (Z.eqb p) l = true <-> In p l.
Proof.
  rewrite existsb_exists. split.
  - intros (x & Hin & Heq). apply Z.eqb_eq in Heq. now subst.
  - intros Hin. exists p. split; [exact Hin | apply Z.eqb_refl].
Qed.

Lemma insert_above (p : Z) (l : list Z) :
  Forall (fun x => x < p) l -> Collector.insert p l = l ++ [p].
Proof.
  induction 1 as [|y l Hy _ IH]; simpl; [reflexivity|].
  destruct (Z.leb_spec p y); [lia|]. now rewrite IH.
Qed.

Lemma insert_below (p y : Z) (l : list Z) :
  p <= y -> Collector.insert p (y :: l) = p :: y :: l.
Proof. intros H. simpl. destruct (Z.leb_spec p y); [reflexivity | lia]. Qed.

Lemma insert_In (p x : Z) (l : list Z) :
  In x (Collector.insert p l) <-> x = p \/ In x l.
Proof.
  induction l as [|y l IH]; simpl.
  - intuition.
  - destruct (p <=? y); simpl; rewrite ?IH; intuition.
Qed.

Lemma insert_length (p : Z) (l : list Z) :
  List.length (Collector.insert p l) = S (List.length l).
Proof.
  induction l as [|y l IH]; simpl; [reflexivity|].
  destruct (p <=? y); simpl; [reflexivity | now rewrite IH].
Qed.

Lemma insert_sorted (p : Z) (l : list Z) :
  StronglySorted Z.lt l -> ~ In p l -> StronglySorted Z.lt (Collector.insert p l).
Proof.
  induction 1 as [|y l Hs IH Hy]; intros Hn; simpl.
  - repeat constructor.
  - destruct (Z.leb_spec p y) as [Hle|Hgt].
    + assert (p < y) by (assert (p <> y) by (intros ->; apply Hn; now left); lia).
      constructor; [constructor; assumption|].
      constructor; [assumption|].
      eapply Forall_impl; [|exact Hy]. intros a Ha. simpl in Ha. lia.
    + constructor.
      * apply IH. intros Hin. apply Hn. now right.
      * apply Forall_forall. intros a Ha. apply insert_In in Ha.
        destruct Ha as [->|Ha]; [lia|].
        rewrite Forall_forall in Hy. now apply Hy.
Qed.

Lemma insert_head (p : Z) (l : list Z) :
  Forall (fun a => p <= a) l -> Collector.insert p l = p :: l.
Proof.
  intros H. destruct l as [|y l]; [reflexivity|].
  inversion H; subst. now apply insert_below.
Qed.

(** Sorting a sorted list with one more element at its end inserts it. *)
Lemma sorted_snoc (p : Z) (l : list Z) :
  StronglySorted Z.lt l -> Collector.sorted (l ++ [p]) = Collector.insert p l.
Proof.
  unfold Collector.sorted. rewrite fold_right_app. simpl.
  induction 1 as [|y l Hs IH Hy]; [reflexivity|].
  cbn [fold_right]. rewrite IH. cbn [Collector.insert].
  destruct (Z.leb_spec p y) as [Hle|Hgt].
  - rewrite (insert_head p l).
    + cbn [Collector.insert]. destruct (Z.leb_spec y p).
      * assert (y = p) by lia. now subst.
      * rewrite insert_head; [reflexivity|].
        eapply Forall_impl; [|exact Hy]. intros a Ha. simpl in Ha. lia.
    + eapply Forall_impl; [|exact Hy]. intros a Ha. simpl in Ha. lia.
  - apply insert_head. apply Forall_forall. intros a Ha.
    apply insert_In in Ha. destruct Ha as [->|Ha]; [lia|].
    rewrite Forall_forall in Hy. specialize (Hy a Ha). lia.
Qed.

Lemma index_In (x : Z) (l : list Z) :
  In x l -> exists i, Collector.index l x = Some i /\ (i < List.length l)%nat.
Proof.
  induction l as [|y l IH]; simpl; [tauto|]. intros Hin.
  destruct (Z.eqb_spec x y) as [->|Hne].
  - exists O. split; [reflexivity | lia].
  - destruct IH as (i & Hi & Hlt); [destruct Hin; [congruence | assumption]|].
    exists (S i). rewrite Hi. split; [reflexivity | lia].
Qed.

Lemma index_absent (x : Z) (l : list Z) :
  ~ In x l -> Collector.index l x = None.
Proof.
  induction l as [|y l IH]; simpl; [reflexivity|]. intros Hn.
  destruct (Z.eqb_spec x y) as [->|Hne]; [tauto|].
  rewrite IH by tauto. reflexivity.
Qed.

Lemma index_snoc (x : Z) (l : list Z) :
  ~ In x l -> Collector.index (l ++ [x]) x = Some (List.length l).
Proof.
  induction l as [|y l IH]; simpl; intros Hn.
  - now rewrite Z.eqb_refl.
  - destruct (Z.eqb_spec x y) as [->|Hne]; [tauto|].
    rewrite IH by tauto. reflexivity.
Qed.

Lemma index_app_old (x y : Z) (l : list Z) :
  In y l -> Collector.index (l ++ [x]) y = Collector.index l y.
Proof.
  induction l as [|z l IH]; simpl; [tauto|]. intros Hin.
  destruct (Z.eqb_spec y z) as [->|Hne]; [reflexivity|].
  rewrite IH; [reflexivity|]. destruct Hin; [congruence | assumption].
Qed.

Lemma store_some {A : Type} (l : list A) (i : nat) (v : A) :
  (i < List.length l)%nat ->
  exists l', Collector.store l i v = Some l' /\
             List.length l' = List.length l /\
             nth_error l' i = Some v /\
             forall j, j <> i -> nth_error l' j = nth_error l j.
Proof.
  revert i. induction l as [|y l IH]; intros i Hi; simpl in Hi; [lia|].
  destruct i as [|i]; simpl.
  - exists (v :: l). repeat split. intros [|j] Hj; [congruence | reflexivity].
  - destruct (IH i ltac:(lia)) as (l' & -> & Hlen & Hnth & Hoth).
    exists (y :: l'). simpl. repeat split; [now rewrite Hlen | exact Hnth|].
    intros [|j] Hj; [reflexivity|]. simpl. apply Hoth. congruence.
Qed.

Lemma store_same {A : Type} (l : list A) (i : nat) (v : A) :
  nth_error l i = Some v -> Collector.store l i v = Some l.
Proof.
  revert i. induction l as [|y l IH]; intros [|i]; simpl; try discriminate.
  - intros H; injection H as ->. reflexivity.
  - intros H. now rewrite (IH i H).
Qed.

Lemma store_snoc {A : Type} (l : list A) (a v : A) :
  Collector.store (l ++ [a]) (List.length l) v = Some (l ++ [v]).
Proof. induction l as [|y l IH]; simpl; [reflexivity | now rewrite IH]. Qed.

Lemma store_app_old {A : Type} (l : list A) (a v : A) (i : nat) (l' : list A) :
  Collector.store l i v = Some l' ->
  Collector.store (l ++ [a]) i v = Some (l' ++ [a]).
Proof.
  revert i l'. induction l as [|y l IH]; intros i l'; simpl; [discriminate|].
  destruct i as [|i].
  - intros H; injection H as <-. reflexivity.
  - destruct (Collector.store l i v) as [l0|] eqn:E; [|discriminate].
    intros H; injection H as <-. now rewrite (IH i l0 E).
Qed.

Lemma nth_of_nth_error (l : list Z) (i : nat) (v : Z) :
  nth_error l i = Some v -> nth i l 0 = v.
Proof. intros H. now apply nth_error_nth. Qed.

(** ** [MetricsCollector.write] *)

Lemma init_consistent : consistent Collector.init.
Proof. repeat split; constructor. Qed.

Lemma register_new (c : Collector.MetricsCollector) (p : Z) :
  consistent c -> ~ In p c.(Collector.periods) ->
  Collector.register c p =
  {| Collector.periods := Collector.insert p c.(Collector.periods);
     Collector.sales := c.(Collector.sales) ++ [0];
     Collector.backorders := c.(Collector.backorders) ++ [0];
     Collector.service := c.(Collector.service) ++ [Collector.Integer 0] |}.
Proof.
  intros (_ & _ & _ & Hs) Hn. unfold Collector.register.
  destruct (existsb (Z.eqb p) (Collector.periods c)) eqn:E.
  - apply existsb_eqb_In in E. contradiction.
  - now rewrite sorted_snoc.
Qed.

Lemma register_known (c : Collector.MetricsCollector) (p : Z) :
  In p c.(Collector.periods) -> Collector.register c p = c.
Proof.
  intros Hin. unfold Collector.register.
  apply existsb_eqb_In in Hin. now rewrite Hin.
Qed.

Lemma register_consistent (c : Collector.MetricsCollector) (p : Z) :
  consistent c ->
  consistent (Collector.register c p) /\
  In p (Collector.periods (Collector.register c p)).
Proof.
  intros Hc.
  assert (Hdec : In p (Collector.periods c) \/ ~ In p (Collector.periods c)).
  { destruct (existsb (Z.eqb p) (Collector.periods c)) eqn:E.
    - left. now apply existsb_eqb_In.
    - right. intros Hin. apply existsb_eqb_In in Hin. congruence. }
  destruct Hdec as [Hin|Hn].
  - rewrite register_known by exact Hin. auto.
  - rewrite register_new by assumption.
    destruct Hc as (H1 & H2 & H3 & Hs). split.
    + unfold consistent. cbn [Collector.periods Collector.sales Collector.backorders Collector.service].
      rewrite !length_app, insert_length. cbn [List.length].
      repeat split; try lia. now apply insert_sorted.
    + cbn [Collector.periods]. apply insert_In. now left.
Qed.

Lemma add_at_some (l : list Z) (i : nat) (q : Z) :
  (i < List.length l)%nat ->
  exists l', Collector.add_at l i q = Some l' /\
             List.length l' = List.length l /\
             nth i l' 0 = nth i l 0 + q /\
             forall j, j <> i -> nth j l' 0 = nth j l 0.
Proof.
  intros Hi. unfold Collector.add_at.
  destruct (nth_error l i) as [v|] eqn:Ev.
  - destruct (store_some l i (v + q) Hi) as (l' & Hst & Hlen & Hnth & Hoth).
    exists l'. split; [exact Hst|]. split; [exact Hlen|]. split.
    + rewrite (nth_of_nth_error _ _ _ Hnth), (nth_of_nth_error _ _ _ Ev). reflexivity.
    + intros j Hj. specialize (Hoth j Hj).
      destruct (nth_error l j) as [w|] eqn:Ew.
      * now rewrite (nth_of_nth_error _ _ _ Hoth), (nth_of_nth_error _ _ _ Ew).
      * apply nth_error_None in Ew. apply nth_error_None in Hoth.
        rewrite !nth_overflow by lia. reflexivity.
  - apply nth_error_None in Ev. lia.
Qed.

Lemma accumulate_spec (c : Collector.MetricsCollector) (e : string) (i : nat) (q : Z) :
  consistent c -> (i < List.length c.(Collector.periods))%nat ->
  exists c',
    Collector.accumulate c e i q = Some c' /\ consistent c' /\
    Collector.periods c' = Collector.periods c /\
    Collector.service c' = Collector.service c /\
    nth i (Collector.sales c') 0 = nth i (Collector.sales c) 0 + satisfied_part e q /\
    nth i (Collector.backorders c') 0
    = nth i (Collector.backorders c) 0 + backordered_part e q /\
    forall j, j <> i ->
      nth j (Collector.sales c') 0 = nth j (Collector.sales c) 0 /\
      nth j (Collector.backorders c') 0 = nth j (Collector.backorders c) 0.
Proof.
  intros (H1 & H2 & H3 & Hs) Hi.
  unfold Collector.accumulate, satisfied_part, backordered_part.
  destruct (String.eqb e "sales-satisfied").
  - destruct (add_at_some (Collector.sales c) i q ltac:(lia))
      as (l' & -> & Hlen & Hnth & Hoth).
    eexists. split; [reflexivity|]. unfold consistent.
    cbn [Collector.periods Collector.sales Collector.backorders Collector.service].
    repeat split; try assumption; try lia;
      solve [now apply Hoth | rewrite ?String.eqb_refl; lia].
  - destruct (String.eqb e "sales-backordered").
    + destruct (add_at_some (Collector.backorders c) i q ltac:(lia))
        as (l' & -> & Hlen & Hnth & Hoth).
      eexists. split; [reflexivity|]. unfold consistent.
      cbn [Collector.periods Collector.sales Collector.backorders Collector.service].
      repeat split; try assumption; try lia; now apply Hoth.
    + exists c. repeat split; try assumption; lia.
Qed.

Lemma int_true_divide_raises (a b : Z) (e : exn) :
  Float.int_true_divide a b = Raise e ->
  e = ZeroDivisionError \/ e = OverflowError.
Proof.
  unfold Float.int_true_divide. destruct b; [intros H; injection H; auto| |];
    (destruct a; [discriminate| |]);
    match goal with |- context [SFdiv ?p ?q ?x ?y] => destruct (SFdiv p q x y) end;
    try discriminate; intros H; injection H; auto.
Qed.

Lemma service_level_raises (s b : Z) (e : exn) :
  Collector.service_level s b = Raise e ->
  e = ZeroDivisionError \/ e = OverflowError.
Proof.
  unfold Collector.service_level.
  destruct (Float.int_true_divide s (s + b)) as [q|e'] eqn:E; cbn [bind].
  - change (Float.of_int 100) with (Ok (S754_finite false 7036874417766400 (-46))).
    discriminate.
  - intros H; injection H as <-. eapply int_true_divide_raises; eassumption.
Qed.

Lemma rate_spec (c : Collector.MetricsCollector) (i : nat) :
  consistent c -> (i < List.length c.(Collector.periods))%nat ->
  consistent (fst (Collector.rate c i)) /\
  Collector.periods (fst (Collector.rate c i)) = Collector.periods c /\
  Collector.sales (fst (Collector.rate c i)) = Collector.sales c /\
  Collector.backorders (fst (Collector.rate c i)) = Collector.backorders c /\
  benign (snd (Collector.rate c i)).
Proof.
  intros Hc Hi. pose proof Hc as (H1 & H2 & H3 & Hs). unfold Collector.rate.
  destruct (nth_error (Collector.sales c) i) as [s|] eqn:Es;
    [|apply nth_error_None in Es; lia].
  destruct (nth_error (Collector.backorders c) i) as [b|] eqn:Eb;
    [|apply nth_error_None in Eb; lia].
  destruct (Collector.service_level s b) as [v|e] eqn:Ev.
  - destruct (store_some (Collector.service c) i (Collector.Real v) ltac:(lia))
      as (l' & -> & Hlen & _).
    unfold consistent.
    cbn [fst snd Collector.periods Collector.sales Collector.backorders Collector.service].
    repeat split; try assumption; try lia. now left.
  - cbn [fst snd]. repeat split; try assumption.
    destruct (service_level_raises _ _ _ Ev) as [->| ->]; unfold benign; auto.
Qed.

Section Write_facts.

Variable loads : string -> result Collector.MetricEntryType.

(** X10. A new collector is consistent and [write] keeps it so: the four
    lists stay of one length and the periods stay sorted, for every record
    that [json.loads] rejects or parses to a metric entry, however the call
    ends.  For a record that parses to a metric entry (a value of
    [MetricEntryType]: an object that holds [event], an integer [period] and
    an integer [quantity]) the call returns or raises [ZeroDivisionError] or
    [OverflowError] from the division: on a consistent collector no list
    access is ever out of range and [index] always finds the period.  An
    object that lacks one of these keys, or holds a period or quantity that
    [int] rejects, raises at [log[...]] or [int(...)]; it is not a value of
    [MetricEntryType] and the statement does not speak of it. *)
Theorem Collector_write_consistent
        (self : Collector.MetricsCollector) (s : string) :
  consistent Collector.init /\
  (consistent self ->
   consistent (fst (Collector.write loads self s)) /\
   (forall log, loads s = Ok log -> benign (snd (Collector.write loads self s)))).
Proof.
  split; [exact init_consistent|].
  intros Hc. unfold Collector.write.
  destruct (loads s) as [log|e].
  - destruct (Collector.tracked (Collector.event log)).
    + destruct (register_consistent self (Collector.period log) Hc) as [Hr Hin].
      destruct (index_In _ _ Hin) as (i & -> & Hi).
      destruct (accumulate_spec _ (Collector.event log) i (Collector.quantity log) Hr Hi)
        as (c' & -> & Hc' & Hp & _).
      rewrite <- Hp in Hi.
      destruct (rate_spec c' i Hc' Hi) as (Hk & _ & _ & _ & Hb).
      split; [exact Hk | intros _ _; exact Hb].
    + split; [exact Hc | intros _ _; now left].
  - split; [exact Hc | intros log H; discriminate H].
Qed.

End Write_facts.

Lemma index_nth_error (x : Z) (l : list Z) (i : nat) :
  Collector.index l x = Some i -> nth_error l i = Some x.
Proof.
  revert i. induction l as [|y l IH]; intros i; simpl; [discriminate|].
  destruct (Z.eqb_spec x y) as [->|Hne].
  - intros H; injection H as <-. reflexivity.
  - destruct (Collector.index l x) as [j|]; [|discriminate].
    intros H; injection H as <-. simpl. now apply IH.
Qed.

Lemma index_inj (x y : Z) (l : list Z) (i : nat) :
  Collector.index l x = Some i -> Collector.index l y = Some i -> x = y.
Proof.
  intros Hx Hy. apply index_nth_error in Hx. apply index_nth_error in Hy. congruence.
Qed.

Lemma index_Some_In (x : Z) (l : list Z) (i : nat) :
  Collector.index l x = Some i -> In x l.
Proof. intros H. apply index_nth_error in H. eapply nth_error_In; eassumption. Qed.

Lemma index_app_absent (x y : Z) (l : list Z) :
  ~ In y l -> y <> x -> Collector.index (l ++ [x]) y = None.
Proof.
  intros Hn Hne. apply index_absent. intros Hin. apply in_app_or in Hin.
  destruct Hin as [Hin|[Hin|[]]]; [contradiction | congruence].
Qed.

Lemma insert_app_last (p pm : Z) (l : list Z) :
  p < pm -> Collector.insert p (l ++ [pm]) = Collector.insert p l ++ [pm].
Proof.
  intros Hlt. induction l as [|y l IH]; simpl.
  - destruct (Z.leb_spec p pm); [reflexivity | lia].
  - destruct (p <=? y); [reflexivity | now rewrite IH].
Qed.

(** The greatest element of a sorted list is its last. *)
Lemma sorted_last (pm : Z) (l : list Z) :
  StronglySorted Z.lt l -> In pm l -> Forall (fun x => x <= pm) l ->
  exists l0, l = l0 ++ [pm] /\ ~ In pm l0.
Proof.
  intros Hs Hin Hmax.
  destruct (exists_last (l := l)) as (l0 & a & ->); [intros ->; contradiction|].
  assert (Hlt : Forall (fun x => x < a) l0).
  { clear Hin Hmax. induction l0 as [|y l0 IH]; [constructor|].
    simpl in Hs. inversion Hs as [|? ? Hs' Hy]; subst. constructor.
    - rewrite Forall_forall in Hy. apply Hy, in_or_app. right. now left.
    - now apply IH. }
  rewrite Forall_forall in Hlt, Hmax.
  assert (Ha : a <= pm) by (apply Hmax, in_or_app; right; now left).
  assert (Hn : ~ In pm l0) by (intros H; specialize (Hlt pm H); lia).
  apply in_app_or in Hin. destruct Hin as [Hin|[->|[]]]; [contradiction|].
  exists l0. split; [reflexivity | exact Hn].
Qed.

Section Write_series.

Variable loads : string -> result Collector.MetricEntryType.

(** X11. A record for a period that is known, or later than every known
    period, lands where it belongs: after the call the slot of its period
    holds what it held (0 for a new period) plus the quantity, under sales
    for [sales-satisfied] and under backorders for [sales-backordered], and
    the slots of all other periods hold what they held.  This is so however
    the call ends. *)
Theorem Collector_write_in_order
        (self : Collector.MetricsCollector) (s : string)
        (log : Collector.MetricEntryType) :
  consistent self ->
  loads s = Ok log ->
  Collector.tracked log.(Collector.event) = true ->
  In log.(Collector.period) self.(Collector.periods) \/
  Forall (fun x => x < log.(Collector.period)) self.(Collector.periods) ->
  let self' := fst (Collector.write loads self s) in
  forall p,
    slot self'.(Collector.periods) self'.(Collector.sales) p
    = slot self.(Collector.periods) self.(Collector.sales) p
      + (if p =? log.(Collector.period)
         then satisfied_part log.(Collector.event) log.(Collector.quantity)
         else 0) /\
    slot self'.(Collector.periods) self'.(Collector.backorders) p
    = slot self.(Collector.periods) self.(Collector.backorders) p
      + (if p =? log.(Collector.period)
         then backordered_part log.(Collector.event) log.(Collector.quantity)
         else 0).
Proof.
  intros Hc Hload Htr Hord self'. subst self'. unfold Collector.write.
  rewrite Hload, Htr.
  set (p0 := Collector.period log) in *.
  set (e := Collector.event log). set (q := Collector.quantity log).
  destruct (register_consistent self p0 Hc) as [Hr Hin].
  destruct (index_In _ _ Hin) as (i & Hidx & Hi). rewrite Hidx.
  destruct (accumulate_spec _ e i q Hr Hi)
    as (c' & -> & Hc' & Hp & _ & Hs & Hb & Hoth).
  destruct (rate_spec c' i Hc' ltac:(rewrite Hp; exact Hi)) as (_ & Rp & Rs & Rb & _).
  rewrite Rp, Rs, Rb, Hp. clear Rp Rs Rb.
  intros p. unfold slot.
  destruct Hord as [Hknown|Hnew].
  - rewrite (register_known self p0 Hknown) in *.
    destruct (Z.eqb_spec p p0) as [->|Hne].
    + rewrite Hidx. lia.
    + destruct (Collector.index (Collector.periods self) p) as [j|] eqn:Ej; [|lia].
      assert (j <> i) by (intros ->; apply Hne; eapply index_inj; eassumption).
      destruct (Hoth j ltac:(assumption)). lia.
  - assert (Hn : ~ In p0 (Collector.periods self)).
    { intros H. rewrite Forall_forall in Hnew. specialize (Hnew _ H). lia. }
    pose proof Hc as (L1 & L2 & _ & _).
    rewrite (register_new self p0 Hc Hn) in *.
    cbn [Collector.periods Collector.sales Collector.backorders] in *.
    rewrite (insert_above _ _ Hnew) in *.
    rewrite (index_snoc _ _ Hn) in Hidx. injection Hidx as <-.
    destruct (Z.eqb_spec p p0) as [->|Hne].
    + rewrite (index_snoc _ _ Hn), (index_absent _ _ Hn).
      rewrite Hs, Hb. rewrite <- L1 at 1. rewrite <- L2 at 1.
      rewrite !nth_middle. lia.
    + destruct (Collector.index (Collector.periods self) p) as [j|] eqn:Ej.
      * pose proof (index_Some_In _ _ _ Ej) as Hpin.
        rewrite (index_app_old _ _ _ Hpin), Ej.
        destruct (index_In _ _ Hpin) as (j' & Ej' & Hj'). rewrite Ej in Ej'.
        injection Ej' as <-.
        destruct (Hoth j ltac:(lia)) as [-> ->].
        rewrite !app_nth1 by lia. lia.
      * assert (~ In p (Collector.periods self)).
        { intros H. destruct (index_In _ _ H) as (j & Ej' & _). congruence. }
        rewrite index_app_absent by assumption. lia.
Qed.

(** X12. A record for a new period that is earlier than a known one lands
    in the wrong place: the periods are sorted again but the other lists are
    not, so after the call the latest known period reads 0 for sales and for
    backorders, whatever it read before. *)
Theorem Collector_write_out_of_order
        (self : Collector.MetricsCollector) (s : string)
        (log : Collector.MetricEntryType) (pm : Z) :
  consistent self ->
  loads s = Ok log ->
  Collector.tracked log.(Collector.event) = true ->
  ~ In log.(Collector.period) self.(Collector.periods) ->
  In pm self.(Collector.periods) ->
  Forall (fun x => x <= pm) self.(Collector.periods) ->
  log.(Collector.period) < pm ->
  let self' := fst (Collector.write loads self s) in
  In pm self'.(Collector.periods) /\
  slot self'.(Collector.periods) self'.(Collector.sales) pm = 0 /\
  slot self'.(Collector.periods) self'.(Collector.backorders) pm = 0.
Proof.
  intros Hc Hload Htr Hn Hpm Hmax Hlt self'. subst self'. unfold Collector.write.
  rewrite Hload, Htr.
  set (p0 := Collector.period log) in *.
  set (e := Collector.event log). set (q := Collector.quantity log).
  destruct (register_consistent self p0 Hc) as [Hr Hin].
  destruct (index_In _ _ Hin) as (i & Hidx & Hi). rewrite Hidx.
  destruct (accumulate_spec _ e i q Hr Hi)
    as (c' & -> & Hc' & Hp & _ & _ & _ & Hoth).
  destruct (rate_spec c' i Hc' ltac:(rewrite Hp; exact Hi)) as (_ & Rp & Rs & Rb & _).
  rewrite Rp, Rs, Rb, Hp. clear Rp Rs Rb.
  pose proof Hc as (L1 & L2 & _ & Hs).
  rewrite (register_new self p0 Hc Hn) in *.
  cbn [Collector.periods Collector.sales Collector.backorders] in *.
  destruct (sorted_last pm _ Hs Hpm Hmax) as (l0 & El & Hn0).
  rewrite El in *. rewrite (insert_app_last _ _ _ Hlt) in *.
  assert (Hnp : ~ In pm (Collector.insert p0 l0)).
  { intros H. apply insert_In in H. destruct H as [->|H]; [lia | contradiction]. }
  assert (Hp0 : In p0 (Collector.insert p0 l0)) by (apply insert_In; now left).
  rewrite (index_app_old _ _ _ Hp0) in Hidx.
  destruct (index_In _ _ Hp0) as (i' & Hi' & Hlen). rewrite Hidx in Hi'.
  injection Hi' as <-. rewrite insert_length in Hlen.
  rewrite length_app in L1, L2. cbn [List.length] in L1, L2.
  split; [apply in_or_app; right; now left|].
  unfold slot. rewrite (index_snoc _ _ Hnp), insert_length.
  destruct (Hoth (S (List.length l0)) ltac:(lia)) as [-> ->].
  replace (S (List.length l0)) with (List.length (Collector.sales self)) at 1 by lia.
  rewrite nth_middle.
  replace (S (List.length l0)) with (List.length (Collector.backorders self)) by lia.
  rewrite nth_middle. auto.
Qed.

(** X13. The first record of a new latest period with quantity 0 makes
    [write] raise [ZeroDivisionError]: the period is registered with zero
    totals, the rate is 0 / 0, and the service entry stays the integer 0
    that was appended. *)
Theorem Collector_write_zero_quantity
        (self : Collector.MetricsCollector) (s : string)
        (log : Collector.MetricEntryType) :
  consistent self ->
  loads s = Ok log ->
  Collector.tracked log.(Collector.event) = true ->
  Forall (fun x => x < log.(Collector.period)) self.(Collector.periods) ->
  log.(Collector.quantity) = 0 ->
  Collector.write loads self s
  = ({| Collector.periods := self.(Collector.periods) ++ [log.(Collector.period)];
        Collector.sales := self.(Collector.sales) ++ [0];
        Collector.backorders := self.(Collector.backorders) ++ [0];
        Collector.service := self.(Collector.service) ++ [Collector.Integer 0] |},
     Collector.Raised (Collector.Builtin ZeroDivisionError)).
Proof.
  intros Hc Hload Htr Hnew Hq. unfold Collector.write. rewrite Hload, Htr, Hq.
  set (p0 := Collector.period log) in *.
  assert (Hn : ~ In p0 (Collector.periods self)).
  { intros H. rewrite Forall_forall in Hnew. specialize (Hnew _ H). lia. }
  pose proof Hc as (L1 & L2 & _ & _).
  rewrite (register_new self p0 Hc Hn), (insert_above _ _ Hnew).
  cbn [Collector.periods]. rewrite (index_snoc _ _ Hn).
  assert (Es : nth_error (Collector.sales self ++ [0])
                         (List.length (Collector.periods self)) = Some 0).
  { rewrite <- L1, nth_error_app2, Nat.sub_diag by lia. reflexivity. }
  assert (Eb : nth_error (Collector.backorders self ++ [0])
                         (List.length (Collector.periods self)) = Some 0).
  { rewrite <- L2, nth_error_app2, Nat.sub_diag by lia. reflexivity. }
  assert (Hacc : Collector.accumulate
            {| Collector.periods := Collector.periods self ++ [p0];
               Collector.sales := Collector.sales self ++ [0];
               Collector.backorders := Collector.backorders self ++ [0];
               Collector.service := Collector.service self ++ [Collector.Integer 0] |}
            (Collector.event log) (List.length (Collector.periods self)) 0
          = Some {| Collector.periods := Collector.periods self ++ [p0];
               Collector.sales := Collector.sales self ++ [0];
               Collector.backorders := Collector.backorders self ++ [0];
               Collector.service := Collector.service self ++ [Collector.Integer 0] |}).
  { unfold Collector.accumulate, Collector.add_at.
    cbn [Collector.periods Collector.sales Collector.backorders Collector.service].
    rewrite Es, Eb. cbn [Z.add].
    rewrite (store_same _ _ _ Es), (store_same _ _ _ Eb). cbn [option_map].
    destruct (String.eqb (Collector.event log) "sales-satisfied"); [reflexivity|].
    destruct (String.eqb (Collector.event log) "sales-backordered"); reflexivity. }
  rewrite Hacc. unfold Collector.rate.
  cbn [Collector.periods Collector.sales Collector.backorders Collector.service].
  rewrite Es, Eb. reflexivity.
Qed.

End Write_series.

(** ** The service level as a percentage *)

(** A quotient [a / b] with [0 < a <= b]: positive, at most 1, and 1 when
    [a = b]. *)
Lemma div_fraction (a b : Z) :
  0 < a <= b -> b < 2 ^ 53 ->
  exists q, Float.int_true_divide a b = Ok q /\ nonneg_float 0 q /\
            scaled q <= W /\ (a = b -> scaled q = W).
Proof.
  intros Ha Hb.
  destruct a as [|pa|pa]; try lia. destruct b as [|pb|pb]; try lia.
  unfold Float.int_true_divide.
  change (Z.pos pa <? 0) with false. change (Z.pos pb <? 0) with false.
  change (Z.to_pos (Z.abs (Z.pos pa))) with pa.
  change (Z.to_pos (Z.abs (Z.pos pb))) with pb.
  unfold SFdiv. cbn [xorb].
  destruct (div_rounded false pa pb)
    as (m & e & s & -> & Hm & Hs & Hes & Hc & Hf & _ & Hbig); try lia.
  assert (HK : Float.ceil_div (Z.pos pa) (Z.pos pb) = 1)
    by (apply ceil_div_unique; lia).
  rewrite HK in Hc.
  assert (Hs52 : 52 <= s).
  { destruct (Z.leb_spec 52 s) as [|Hlt]; [assumption|exfalso].
    assert (2 ^ s <= 2 ^ 51) by (apply Z.pow_le_mono_r; lia).
    assert (Z.pos pa * 2 ^ s <= Z.pos pb * 2 ^ 51).
    { transitivity (Z.pos pb * 2 ^ s).
      - apply Z.mul_le_mono_nonneg_r; [apply Z.pow_nonneg|]; lia.
      - apply Z.mul_le_mono_nonneg_l; lia. }
    lia. }
  exists (S754_finite false (Z.to_pos m) e). split; [reflexivity|].
  split; [right; exists (Z.to_pos m), e; rewrite Z2Pos.id by lia; repeat split; lia|].
  cbn [scaled cond_Zopp]. rewrite Z2Pos.id by lia.
  set (V := m * 2 ^ (e + s)) in *.
  set (G := 2 ^ (1074 - s)).
  assert (HG : 0 < G) by (apply pow2_pos; lia).
  assert (HW : W = 2 ^ s * G).
  { unfold W, G. rewrite <- pow2_split by lia. f_equal. lia. }
  assert (HV : m * 2 ^ (e + 1074) = V * G).
  { unfold V, G. rewrite <- Z.mul_assoc, <- pow2_split by lia. do 2 f_equal. lia. }
  rewrite HV, HW. split.
  - apply Z.mul_le_mono_nonneg_r; lia.
  - intros E. injection E as E. subst pb.
    rewrite Z.div_same in Hf by lia. f_equal. lia.
Qed.

(** The product of a float that is at most 1 with [100.0]: at most 100, and
    100 when the factor is 1. *)
Lemma percent_bounds (q : spec_float) :
  nonneg_float 0 q -> scaled q <= W ->
  let v := Float.mul q (S754_finite false 7036874417766400 (-46)) in
  nonneg_float 3 v /\ scaled v <= 100 * W /\ (scaled q = W -> scaled v = 100 * W).
Proof.
  intros Hq Hle v. subst v. pose proof W_pos as HW.
  destruct Hq as [->|(mq & eq & -> & Hmq & Heq)]; cbn [Float.mul SFmul xorb].
  - split; [now left|]. cbn [scaled]. split; [lia | intros; lia].
  - cbn [scaled cond_Zopp] in Hle |- *.
    set (mh := 7036874417766400%positive).
    destruct (round_error false (Z.pos (mq * mh)) (eq + -46) 2148
                ltac:(lia) ltac:(lia) ltac:(lia))
      as (m' & e' & Hr & Hb & He' & _ & Hup & Hlo).
    cbv zeta in *. change (Z.pos (PosDef.Pos.mul mq mh)) with (Z.pos (mq * mh)).
    std_Z. rewrite Hr.
    set (d := Zdigits2 (Z.pos (mq * mh))) in *.
    set (f := Z.max (d + (eq + -46) - 53) (-1074)) in *.
    set (Q := Z.pos mq * 2 ^ (eq + 1074)) in *.
    assert (HQ : 0 < Q) by (apply Z.mul_pos_pos; [lia | apply pow2_pos; lia]).
    assert (EV : Z.pos (mq * mh) * 2 ^ (eq + -46 + 2148) = Q * (100 * W)).
    { rewrite Pos2Z.inj_mul. unfold Q, W.
      replace (eq + -46 + 2148) with ((eq + 1074) + 1028) by lia.
      rewrite (pow2_split (eq + 1074) 1028) by lia.
      change (Z.pos mh) with (100 * 2 ^ 46).
      change (2 ^ 1074) with (2 ^ 46 * 2 ^ 1028). ring. }
    rewrite EV in Hup, Hlo.
    assert (HN : Q * (100 * W) <= 100 * W * W).
    { replace (100 * W * W) with (W * (100 * W)) by ring.
      apply Z.mul_le_mono_nonneg_r; lia. }
    assert (Hd : d + (eq + -46) <= 7).
    { pose proof (Zdigits2_bounds (Z.pos (mq * mh)) ltac:(lia)) as [Dlo _].
      fold d in Dlo.
      assert (Hd0 : 0 < d) by (subst d; simpl; lia).
      destruct (Z.leb_spec (d + (eq + -46)) 7) as [|Hgt]; [assumption|exfalso].
      assert (H1 : 2 ^ (7 + 2148) <= 2 ^ (d - 1 + (eq + -46 + 2148)))
        by (apply Z.pow_le_mono_r; lia).
      rewrite (pow2_split (d - 1) (eq + -46 + 2148)) in H1 by lia.
      assert (H2 : 2 ^ (d - 1) * 2 ^ (eq + -46 + 2148)
                   <= Z.pos (mq * mh) * 2 ^ (eq + -46 + 2148))
        by (apply Z.mul_le_mono_nonneg_r; [apply Z.pow_nonneg|]; lia).
      rewrite EV in H2.
      assert (H3 : 100 * W * W < 2 ^ (7 + 2148)).
      { unfold W. change (2 ^ (7 + 2148)) with (128 * 2 ^ 1074 * 2 ^ 1074).
        assert (0 < 2 ^ 1074 * 2 ^ 1074) by (apply Z.mul_pos_pos; apply pow2_pos; lia).
        lia. }
      lia. }
    set (g := Z.max (eq + -46) f) in *.
    assert (Hg : -1074 <= g <= 2) by (subst g f; lia).
    assert (Hdiv : (2 ^ (g + 2148) | 100 * W * W)).
    { exists (25 * 2 ^ (2 - g)).
      replace (100 * W * W) with (25 * 2 ^ 2150) by (unfold W; reflexivity).
      rewrite <- Z.mul_assoc, <- pow2_split by lia. do 2 f_equal. lia. }
    destruct (pack_nonneg m' e' 3 Hb ltac:(lia) ltac:(lia)) as [Hnn Hsc].
    split; [exact Hnn|]. rewrite Hsc.
    assert (EO : m' * 2 ^ (e' + 2148) = m' * 2 ^ (e' + 1074) * W).
    { unfold W. rewrite <- Z.mul_assoc, <- pow2_split by lia. do 2 f_equal. lia. }
    rewrite EO in Hup, Hlo. split.
    + pose proof (Hup _ HN Hdiv) as H.
      apply (Z.mul_le_mono_pos_r _ _ W HW). lia.
    + intros E. rewrite E in Hup, Hlo.
      assert (H1 : W * (100 * W) <= 100 * W * W) by lia.
      assert (H2 : 100 * W * W <= W * (100 * W)) by lia.
      pose proof (Hup _ H1 Hdiv). pose proof (Hlo _ H2 Hdiv).
      apply (Z.mul_reg_r _ _ W); lia.
Qed.

(** X14. For nonnegative totals that are not both 0 (and below 2^53
    together) the service level is defined and is a percentage: a finite
    nonnegative float of value at most 100, exactly 100 when nothing is
    backordered and exactly 0 when nothing is satisfied.  Values are counted
    in units of 2^-1074: [scaled v = 100 * W] says [v = 100.0]. *)
Theorem Collector_service_level_percent (s b : Z) :
  0 <= s -> 0 <= b -> 0 < s + b < 2 ^ 53 ->
  exists v,
    Collector.service_level s b = Ok v /\
    nonneg_float 3 v /\
    0 <= scaled v <= 100 * W /\
    (b = 0 -> scaled v = 100 * W) /\
    (s = 0 -> scaled v = 0).
Proof.
  intros Hs Hb Hsb. unfold Collector.service_level.
  change (Float.of_int 100) with (Ok (S754_finite false 7036874417766400 (-46))).
  destruct (Z.eq_dec s 0) as [->|Hnz].
  - rewrite div_error_zero by lia. cbn [bind].
    exists (S754_zero false). pose proof W_pos.
    split; [reflexivity|]. split; [now left|]. cbn [scaled].
    repeat split; try lia.
  - destruct (div_fraction s (s + b) ltac:(lia) ltac:(lia))
      as (q & -> & Hnq & Hle & Hone).
    cbn [bind].
    destruct (percent_bounds q Hnq Hle) as (Hnn & Hup & Hex).
    eexists. split; [reflexivity|]. split; [exact Hnn|].
    pose proof (nonneg_scaled _ _ Hnn).
    repeat split; lia.
Qed.

Lemma nth_error_of_nth (l : list Z) (i : nat) :
  (i < List.length l)%nat -> nth_error l i = Some (nth i l 0).
Proof. intros H. now apply nth_error_nth'. Qed.

Section Write_rate.

Variable loads : string -> result Collector.MetricEntryType.

(** X15. The rate that [write] stores is the rate of the totals it has
    just recorded for the period of the record: with [S] and [B] the sales
    and backorders slots of that period after the call, the call returns
    with the service slot of the period holding [S / (S + B) * 100] when
    that is defined, and raises the exception of the division otherwise,
    the totals already updated. *)
Theorem Collector_write_rates_the_period
        (self : Collector.MetricsCollector) (s : string)
        (log : Collector.MetricEntryType) :
  consistent self ->
  loads s = Ok log ->
  Collector.tracked log.(Collector.event) = true ->
  let self' := fst (Collector.write loads self s) in
  let S := slot self'.(Collector.periods) self'.(Collector.sales)
                log.(Collector.period) in
  let B := slot self'.(Collector.periods) self'.(Collector.backorders)
                log.(Collector.period) in
  exists i,
    Collector.index self'.(Collector.periods) log.(Collector.period) = Some i /\
    match Collector.service_level S B with
    | Ok v =>
        snd (Collector.write loads self s) = Collector.Returned tt /\
        nth_error self'.(Collector.service) i = Some (Collector.Real v)
    | Raise e =>
        snd (Collector.write loads self s) = Collector.Raised (Collector.Builtin e)
    end.
Proof.
  intros Hc Hload Htr. cbv zeta. unfold Collector.write. rewrite Hload, Htr.
  set (p0 := Collector.period log) in *.
  destruct (register_consistent self p0 Hc) as [Hr Hin].
  destruct (index_In _ _ Hin) as (i & Hidx & Hi). rewrite Hidx.
  destruct (accumulate_spec _ (Collector.event log) i (Collector.quantity log) Hr Hi)
    as (c' & -> & Hc' & Hp & _).
  rewrite <- Hp in Hidx, Hi. clear Hp Hr Hin.
  pose proof Hc' as (L1 & L2 & L3 & _).
  exists i. unfold Collector.rate, slot.
  rewrite (nth_error_of_nth (Collector.sales c') i) by lia.
  rewrite (nth_error_of_nth (Collector.backorders c') i) by lia.
  destruct (Collector.service_level (nth i (Collector.sales c') 0)
                                    (nth i (Collector.backorders c') 0))
    as [v|e] eqn:Ev.
  - destruct (store_some (Collector.service c') i (Collector.Real v) ltac:(lia))
      as (l' & -> & _ & Hnth & _).
    cbn [fst snd Collector.periods Collector.sales Collector.backorders
         Collector.service].
    rewrite Hidx, Ev. auto.
  - cbn [fst snd]. rewrite Hidx, Ev. auto.
Qed.

End Write_rate.

(** * The theorems at concrete inputs *)

Lemma Fractional_get_releases_terminates_witness :
  exists (n : nat) (r : result Orders),
    forall fuel, (n <= fuel)%nat ->
      Fractional.get_releases fuel (supplier 9 [("X", 6); ("Y", 6)]) = Some r.
Proof.
  exact (proj2 Fractional_get_releases_terminates
               (supplier 9 [("X", 6); ("Y", 6)])).
Defined.

Lemma RSQ_get_orders_single_entry_witness :
  (RSQ.lookup (data (policy_node 30 25 2)) "review_time" = Ok 2 /\
   3 mod 2 <> 0 /\
   RSQ.get_orders (fun (_ : unit) (_ : Node) => 7) tt (policy_node 30 25 2) 3
   = Ok [("A", 0)]) /\
  (RSQ.lookup (data (policy_node 30 5 1)) "reorder_level" = Ok 5 /\
   5 <= 7 /\
   RSQ.get_orders (fun (_ : unit) (_ : Node) => 7) tt (policy_node 30 5 1) 3
   = Ok [("A", 0)]) /\
  (RSQ.lookup (data (policy_node 30 25 1)) "order_quantity" = Ok 30 /\
   3 mod 1 = 0 /\ 7 < 25 /\ 25 - 7 <= 2 ^ 53 /\ 30 < (25 - 7) * 2 ^ 1075 /\
   RSQ.get_orders (fun (_ : unit) (_ : Node) => 7) tt (policy_node 30 25 1) 3
   = Ok [("A", 30)]).
Proof.
  split; [|split].
  - split; [reflexivity|]. split; [discriminate|].
    destruct (RSQ_get_orders_single_entry unit (fun _ _ => 7) tt
                (policy_node 30 25 2) 3 2) as [H _].
    + reflexivity.
    + discriminate.
    + apply H. discriminate.
  - split; [reflexivity|]. split; [lia|].
    destruct (RSQ_get_orders_single_entry unit (fun _ _ => 7) tt
                (policy_node 30 5 1) 3 1) as [_ H].
    + reflexivity.
    + discriminate.
    + destruct (H 5) as [H0 _]; [reflexivity|]. apply H0. lia.
  - split; [reflexivity|]. split; [reflexivity|]. split; [reflexivity|].
    split; [lia|]. split; [reflexivity|].
    destruct (RSQ_get_orders_single_entry unit (fun _ _ => 7) tt
                (policy_node 30 25 1) 3 1) as [_ H].
    + reflexivity.
    + discriminate.
    + destruct (H 25) as [_ H30]; [reflexivity|].
      apply (H30 30).
      * reflexivity.
      * reflexivity.
      * reflexivity.
      * discriminate.
      * lia.
      * reflexivity.
Defined.

Lemma RSQ_get_orders_review_time_zero_witness :
  RSQ.lookup (data (policy_node 30 25 0)) "review_time" = Ok 0 /\
  RSQ.get_orders (fun (_ : unit) (_ : Node) => 7) tt (policy_node 30 25 0) 4
  = Raise ZeroDivisionError.
Proof.
  split; [reflexivity|].
  apply (RSQ_get_orders_review_time_zero unit (fun _ _ => 7) tt
           (policy_node 30 25 0) 4).
  reflexivity.
Defined.

Lemma RSQ_get_orders_idempotent_witness :
  let w := {| World.chain := two_echelon; World.node := leaf_L; World.heap := [] |} in
  let w' := {| World.chain := two_echelon; World.node := leaf_L;
               World.heap := [[("L", 0)]; []] |} in
  let library := World.reads Chain.inventory_assemblies_feasible in
  (fst (World.get_orders library 1 w') = Ok 2%nat /\
   List.length (World.heap (snd (World.get_orders library 1 w'))) = 3%nat /\
   firstn 2 (World.heap (snd (World.get_orders library 1 w'))) = [[("L", 0)]; []]) /\
  (World.returned (World.get_orders library 1 w)
   = World.returned (World.get_orders library 1 w')) /\
  (library (World.chain w) (World.node w) = (5, (World.chain w, World.node w)) /\
   let first := World.get_orders library 1 w in
   let second := World.get_orders library 1 (snd first) in
   World.returned first = Some (Ok [("L", 10)]) /\
   World.returned second = World.returned first /\
   World.chain (snd second) = World.chain w /\
   World.node (snd second) = World.node w).
Proof.
  intros w w' library.
  destruct (RSQ_get_orders_idempotent SupplyChain library) as (Hframe & Hmap & Htwice).
  split; [|split].
  - destruct (Hframe w' 1) as (_ & Hold & Hnew & _).
    destruct (Hnew 2%nat eq_refl) as [_ Hlen].
    split; [reflexivity|]. split; [exact Hlen | exact Hold].
  - destruct (Hmap w w' 1) as [Heq _]; [reflexivity | reflexivity | exact Heq].
  - split; [reflexivity|].
    destruct (Htwice w 1 5) as (Hc & Hn & Hsecond & _); [reflexivity|].
    intros first second. split; [reflexivity|]. split; [exact Hsecond|].
    split; [exact Hc | exact Hn].
Defined.

(** Scenario 6: a receipt of 5 units of A with [eta = 2] comes out of the
    third period's [pop_matured]. *)
Lemma Pipeline_receipt_matures_after_eta_periods_witness :
  PipelineOps.pop_matured
    (Nat.iter 2 PipelineOps.period (PipelineOps.add [] (receipt "A" 2 5)))
  = ([receipt "A" 0 5], []).
Proof.
  exact (proj2 (proj2 (proj2 Pipeline_receipt_matures_after_eta_periods))
               [] "A" 5 2%nat).
Defined.



Lemma Fractional_get_releases_small_witness :
  exists r,
    (forall fuel, (12 <= fuel)%nat ->
       Fractional.get_releases fuel (supplier 9 [("X", 6); ("Y", 6)]) = Some (Ok r)) /\
    Dict.sum r = 9.
Proof.
  destruct (Fractional_get_releases_small (supplier 9 [("X", 6); ("Y", 6)]))
    as (r & Hr & Hs & _).
  - reflexivity.
  - repeat constructor; simpl; lia.
  - vm_compute. split; [reflexivity | discriminate].
  - vm_compute. discriminate.
  - exists r. split; [exact Hr | exact Hs].
Defined.

Lemma tally_consistent : consistent tally.
Proof.
  repeat split. repeat constructor.
Qed.

Lemma RSQ_get_orders_reads_lazily_witness :
  RSQ.lookup (data (review_only_node 2)) "review_time" = Ok 2 /\
  3 mod 2 <> 0 /\
  RSQ.get_orders (fun (_ : unit) (_ : Node) => 7) tt (review_only_node 2) 3
  = Ok [("A", 0)].
Proof.
  split; [reflexivity|]. split; [vm_compute; discriminate|].
  apply (proj1 (RSQ_get_orders_reads_lazily unit (fun _ _ => 7) tt
                  (review_only_node 2) 3 2 eq_refl ltac:(lia))).
  vm_compute. discriminate.
Defined.

Lemma RSQ_get_orders_missing_parameter_witness :
  Dict.mem (data (review_only_node 1)) "reorder_level" = false /\
  RSQ.get_orders (fun (_ : unit) (_ : Node) => 7) tt (review_only_node 1) 3
  = Raise (KeyError "reorder_level").
Proof.
  split; [reflexivity|].
  apply (proj2 (RSQ_get_orders_missing_parameter unit (fun _ _ => 7) tt
                  (review_only_node 1) 3) 1); [reflexivity | lia | reflexivity | reflexivity].
Defined.

Lemma RSQ_get_orders_zero_order_quantity_witness :
  RSQ.lookup (data (policy_node 0 25 1)) "order_quantity" = Ok 0 /\
  3 mod 1 = 0 /\ 7 < 25 /\
  RSQ.get_orders (fun (_ : unit) (_ : Node) => 7) tt (policy_node 0 25 1) 3
  = Raise ZeroDivisionError.
Proof.
  split; [reflexivity|]. split; [reflexivity|]. split; [lia|].
  apply (proj1 (RSQ_get_orders_zero_order_quantity unit (fun _ _ => 7) tt
                  (policy_node 0 25 1) 3 1 25 eq_refl eq_refl eq_refl ltac:(lia))).
  split; [reflexivity | lia].
Defined.

Lemma RSQ_get_orders_least_batches_witness :
  exists k,
    RSQ.get_orders (fun (_ : unit) (_ : Node) => 7) tt (policy_node 4 25 1) 3
    = Ok [("A", k * 4)] /\
    1 <= k /\ 25 <= 7 + k * 4 /\ 7 + (k - 1) * 4 < 25.
Proof.
  apply (RSQ_get_orders_least_batches unit (fun _ _ => 7) tt
           (policy_node 4 25 1) 3 1 25 4);
    solve [reflexivity | lia | vm_compute; split; reflexivity].
Defined.

Lemma Fractional_total_within_stock_witness :
  0 <= Dict.get (stock (supplier 9 [("X", 6); ("Y", 6)])) "N" /\
  Fractional.get_releases 5 (supplier 9 [("X", 6); ("Y", 6)])
  = Some (Ok [("X", 4); ("Y", 5)]) /\
  Dict.sum [("X", 4); ("Y", 5)] <= 9.
Proof.
  split; [vm_compute; discriminate|]. split; [reflexivity|].
  apply (Fractional_total_within_stock 5 (supplier 9 [("X", 6); ("Y", 6)])
           [("X", 4); ("Y", 5)]).
  - vm_compute. discriminate.
  - reflexivity.
Defined.

Lemma Fractional_releases_keys_witness :
  Fractional.get_releases 5 (supplier 9 [("X", 6); ("Y", 6)])
  = Some (Ok [("X", 4); ("Y", 5)]) /\
  Dict.sum (orders (supplier 9 [("X", 6); ("Y", 6)])) <> 0 /\
  Dict.keys [("X", 4); ("Y", 5)] = Dict.keys (orders (supplier 9 [("X", 6); ("Y", 6)])).
Proof.
  split; [reflexivity|]. split; [vm_compute; discriminate|].
  apply (proj2 (Fractional_releases_keys 5 (supplier 9 [("X", 6); ("Y", 6)])
                  [("X", 4); ("Y", 5)] eq_refl eq_refl)).
  vm_compute. discriminate.
Defined.

Lemma Fractional_releases_all_without_shortage_witness :
  Fractional.get_releases 0 (supplier 20 [("X", 6); ("Y", 6)])
  = Some (Ok [("X", 6); ("Y", 6)]).
Proof.
  apply (Fractional_releases_all_without_shortage 0 (supplier 20 [("X", 6); ("Y", 6)])).
  - reflexivity.
  - repeat constructor; simpl; lia.
  - vm_compute. split; reflexivity.
  - vm_compute. discriminate.
Defined.

Lemma Fractional_correction_takes_from_the_top_witness :
  Fractional.reduce 5 [("X", 5); ("Y", 5)] 9 = Some (Ok [("X", 4); ("Y", 5)]) /\
  Dict.sum [("X", 4); ("Y", 5)] = Z.min (Dict.sum [("X", 5); ("Y", 5)]) 9 /\
  (forall k, Dict.get [("X", 4); ("Y", 5)] k <= Dict.get [("X", 5); ("Y", 5)] k).
Proof.
  split; [reflexivity|].
  destruct (Fractional_correction_takes_from_the_top
              5 [("X", 5); ("Y", 5)] [("X", 4); ("Y", 5)] 9 eq_refl)
    as (_ & Hs & Hle & _).
  split; [exact Hs | exact Hle].
Defined.

Lemma Collector_write_consistent_witness :
  consistent (fst (Collector.write (reads (record 3 "sales-backordered" 2)) tally "r")).
Proof.
  apply (proj1 (proj2 (Collector_write_consistent
                         (reads (record 3 "sales-backordered" 2)) tally "r")
                      tally_consistent)).
Defined.

Lemma Collector_write_in_order_witness :
  let self' := fst (Collector.write (reads (record 3 "sales-backordered" 2)) tally "r") in
  slot (Collector.periods self') (Collector.backorders self') 3 = 0 + 2 /\
  slot (Collector.periods self') (Collector.sales self') 1 = 3 + 0.
Proof.
  pose proof (Collector_write_in_order (reads (record 3 "sales-backordered" 2))
                tally "r" (record 3 "sales-backordered" 2)
                tally_consistent eq_refl eq_refl
                (or_introl (or_intror (or_introl eq_refl)))) as H.
  split.
  - exact (proj2 (H 3)).
  - exact (proj1 (H 1)).
Defined.

Lemma Collector_write_out_of_order_witness :
  let self' := fst (Collector.write (reads (record 2 "sales-satisfied" 5)) tally "r") in
  slot (Collector.periods tally) (Collector.sales tally) 3 = 4 /\
  slot (Collector.periods self') (Collector.sales self') 3 = 0.
Proof.
  split; [reflexivity|].
  refine (proj1 (proj2 (Collector_write_out_of_order
                          (reads (record 2 "sales-satisfied" 5)) tally "r"
                          (record 2 "sales-satisfied" 5) 3
                          tally_consistent eq_refl eq_refl _ _ _ _))).
  - simpl. intros [H|[H|[]]]; discriminate H.
  - simpl. auto.
  - repeat constructor; lia.
  - simpl. lia.
Defined.

Lemma Collector_write_zero_quantity_witness :
  Collector.write (reads (record 4 "sales-satisfied" 0)) tally "r"
  = ({| Collector.periods := [1; 3; 4];
        Collector.sales := [3; 4; 0];
        Collector.backorders := [1; 0; 0];
        Collector.service := Collector.service tally ++ [Collector.Integer 0] |},
     Collector.Raised (Collector.Builtin ZeroDivisionError)).
Proof.
  apply (Collector_write_zero_quantity (reads (record 4 "sales-satisfied" 0))
           tally "r" (record 4 "sales-satisfied" 0) tally_consistent eq_refl eq_refl).
  - repeat constructor; simpl; lia.
  - reflexivity.
Defined.

Lemma Collector_service_level_percent_witness :
  exists v, Collector.service_level 3 1 = Ok v /\ 0 <= scaled v <= 100 * W.
Proof.
  destruct (Collector_service_level_percent 3 1) as (v & Hv & _ & Hb & _);
    try lia.
  exists v. split; [exact Hv | exact Hb].
Defined.

Lemma Collector_write_rates_the_period_witness :
  exists i,
    Collector.index
      (Collector.periods
         (fst (Collector.write (reads (record 3 "sales-backordered" 4)) tally "r")))
      3 = Some i /\
    snd (Collector.write (reads (record 3 "sales-backordered" 4)) tally "r")
    = Collector.Returned tt /\
    nth_error
      (Collector.service
         (fst (Collector.write (reads (record 3 "sales-backordered" 4)) tally "r")))
      i = Some (Collector.Real (S754_finite false 7036874417766400 (-47))).
Proof.
  destruct (Collector_write_rates_the_period
              (reads (record 3 "sales-backordered" 4)) tally "r"
              (record 3 "sales-backordered" 4) tally_consistent eq_refl eq_refl)
    as (i & Hi & H).
  exists i. split; [exact Hi | exact H].
Defined.
